(** * Ssl::ConnectionImpl: the non-blocking TLS connection state machine

    A shallow embedding of [source/common/ssl/connection_impl.cc].  The
    connection object is an explicit [World] value threaded through every
    member function.  Everything the C++ code calls but does not define
    (the TLS engine, the byte buffer, the upstream callbacks) is
    supplied by an environment [Env] of oracles, so that every statement
    below is quantified over all behaviours of those collaborators.  A ghost
    event list records, in program order, each engine call, each log line,
    each buffer commit or drain and each raised connection event. *)

From Stdlib Require Import ZArith NArith List Bool String Ascii Lia.
From Stdlib Require Import Strings.Byte.
Import ListNotations.
Open Scope Z_scope.

(** ** Constants of the TLS engine (openssl/ssl.h, openssl/sha.h) *)

Module OpenSSL.
Definition SSL_ERROR_NONE : Z := 0.
Definition SSL_ERROR_SSL : Z := 1.
Definition SSL_ERROR_WANT_READ : Z := 2.
Definition SSL_ERROR_WANT_WRITE : Z := 3.
Definition SSL_ERROR_SYSCALL : Z := 5.
Definition SSL_ERROR_ZERO_RETURN : Z := 6.
Definition SHA256_DIGEST_LENGTH : nat := 32.
End OpenSSL.
Import OpenSSL.

(** ** Data of the connection *)

(** Network::ConnectionImpl::PostIoAction; the code uses both values. *)
Inductive PostIoAction : Type := KeepOpen | Close.

(** Modelled from the spec: Network::Connection::State, the value returned
    by [state()] (its header is not part of the sources).  The code tests
    for [Open] only; the spec names [Closed] as the terminal state;
    [Closing] stands for a connection that is no longer [Open] and not yet
    [Closed]. *)
Inductive State : Type := Open | Closing | Closed.

(** Modelled from the spec: Network::ConnectionEvent (its header is not part
    of the sources).  The code raises [Connected]; the spec lists a closed
    event for a local and for a remote close. *)
Inductive ConnectionEvent : Type := RemoteClose | LocalClose | Connected.

(** Buffer::RawSlice: [void* mem_] is kept as an address, [uint64_t len_]
    as its value. *)
Record RawSlice : Type := mkSlice { mem_ : Z; len_ : Z }.

Definition two64 : Z := 2 ^ 64.

(** Modelled from the spec: Buffer::Instance (include/envoy/buffer/buffer.h
    and its implementation are not part of the sources).  The spec gives the
    interface [reserve], [commit], [currentSlices] (read-only) and
    [drain(bytes)] over "a sequence of contiguous memory slices"; a buffer is
    the list of its slices, front first.  [commit] appends the first [n]
    reserved regions with the lengths the caller left in them, [drain]
    removes bytes from the front, advancing into a slice when the amount
    ends inside it.  What [reserve] hands out is decided by the buffer's
    allocator and comes from the environment. *)
Module Buffer.
Definition Instance : Type := list RawSlice.

Fixpoint length (b : Instance) : Z :=
  match b with
  | [] => 0
  | s :: b' => len_ s + length b'
  end.

Definition getRawSlices (b : Instance) : list RawSlice := b.

Definition commit (slices : list RawSlice) (n : nat) (b : Instance) : Instance :=
  b ++ firstn n slices.

Fixpoint drain (n : Z) (b : Instance) : Instance :=
  match b with
  | [] => []
  | s :: b' =>
      if n <? len_ s
      then mkSlice (mem_ s + n) (len_ s - n) :: b'
      else drain (n - len_ s) b'
  end.
End Buffer.

(** ** Ghost events *)

Inductive LogLevel : Type := LvTrace | LvDebug.

(** One constructor per [conn_log_*] call site of the file. *)
Inductive LogMsg : Type :=
| MsgSslReadReturns (rc : Z)
| MsgHandshakeComplete
| MsgVerificationFailed
| MsgHandshakeError (err : Z)
| MsgSslError (code : Z)
| MsgSslWriteReturns (rc : Z)
| MsgSslShutdown (rc : Z).

(** [EvRead] and [EvWrite] record the slice the call is made for, address
    [mem] and [uint64_t] length [len], and the [int] [num] that [SSL_read]
    or [SSL_write] receives as its length parameter. *)
Inductive Event : Type :=
| EvHandshakeStep (rc : Z)
| EvRead (mem len num rc : Z)
| EvWrite (mem len num rc : Z)
| EvShutdown (rc : Z)
| EvCommit (slices : list RawSlice)
| EvDrain (n : Z)
| EvLog (lvl : LogLevel) (msg : LogMsg)
| EvRaise (e : ConnectionEvent) (handshake_complete : bool)
| EvTransportClose.

(** ** The environment *)

(** What one call into the TLS engine answers: the [int] it returns, the
    code [SSL_get_error] gives for that return value, and the records the
    call left on the engine's error queue. *)
Record SslResult : Type := mkResult {
  rc : Z;
  ssl_error : Z;
  queued : list Z
}.

(** Modelled from the spec: how the upstream consumers react to a raised
    event (the callbacks are not part of the sources): they let the
    connection be, or close it synchronously. *)
Inductive Reaction : Type := Ignore | CloseConnection.

(** The oracles are indexed by the number of engine calls made so far
    on the session ([reserve_space] by the number of reservations). *)
Record Env : Type := mkEnv {
  engine : nat -> SslResult;
  verifyPeer : nat -> bool;
  upstream : nat -> Reaction;
  reserve_space : nat -> list RawSlice;
  peer_certificate : nat -> option (list byte);
  X509_digest : list byte -> list byte
}.

(** ** The connection object *)

Record World : Type := mkWorld {
  handshake_complete_ : bool;
  state_ : State;
  read_buffer_ : Buffer.Instance;
  write_buffer_ : Buffer.Instance;
  err_queue : list Z;
  ssl_calls : nat;
  reserve_calls : nat;
  events : list Event
}.

Definition emit (e : Event) (w : World) : World :=
  mkWorld (handshake_complete_ w) (state_ w) (read_buffer_ w) (write_buffer_ w)
          (err_queue w) (ssl_calls w) (reserve_calls w) (events w ++ [e]).

Definition log (lvl : LogLevel) (m : LogMsg) (w : World) : World :=
  emit (EvLog lvl m) w.

Definition set_handshake_complete (b : bool) (w : World) : World :=
  mkWorld b (state_ w) (read_buffer_ w) (write_buffer_ w)
          (err_queue w) (ssl_calls w) (reserve_calls w) (events w).

Definition set_state (s : State) (w : World) : World :=
  mkWorld (handshake_complete_ w) s (read_buffer_ w) (write_buffer_ w)
          (err_queue w) (ssl_calls w) (reserve_calls w) (events w).

Definition set_read_buffer (b : Buffer.Instance) (w : World) : World :=
  mkWorld (handshake_complete_ w) (state_ w) b (write_buffer_ w)
          (err_queue w) (ssl_calls w) (reserve_calls w) (events w).

Definition set_write_buffer (b : Buffer.Instance) (w : World) : World :=
  mkWorld (handshake_complete_ w) (state_ w) (read_buffer_ w) b
          (err_queue w) (ssl_calls w) (reserve_calls w) (events w).

Definition set_err_queue (q : list Z) (w : World) : World :=
  mkWorld (handshake_complete_ w) (state_ w) (read_buffer_ w) (write_buffer_ w)
          q (ssl_calls w) (reserve_calls w) (events w).

(** The state of a freshly constructed connection: the constructor leaves
    [handshake_complete_] false and the transport open. *)
Definition initial (rd wr : Buffer.Instance) (q : list Z) : World :=
  mkWorld false Open rd wr q 0 0 [].

(** Modelled from the spec: Hex::encode (common/common/hex.h is not part of
    the sources); the spec says the digest is "hex-encoded": two digits per
    byte, high nibble first. *)
Module Hex.
Definition digit (n : N) : ascii :=
  nth (N.to_nat n)
      ["0"; "1"; "2"; "3"; "4"; "5"; "6"; "7";
       "8"; "9"; "a"; "b"; "c"; "d"; "e"; "f"]%char "0"%char.

Fixpoint encode (data : list byte) : string :=
  match data with
  | [] => EmptyString
  | d :: rest =>
      String (digit (N.shiftr (Byte.to_N d) 4))
             (String (digit (N.land (Byte.to_N d) 15)) (encode rest))
  end.
End Hex.

(** The conversion of a [uint64_t] to [int] at a call: the low 32 bits,
    read as a signed number. *)
Definition to_int (n : Z) : Z := (n + 2 ^ 31) mod 2 ^ 32 - 2 ^ 31.

Section Connection.

Variable env : Env.

(** *** Calls into the engine *)

(** Every [SSL_*] call takes the next answer of the engine, appends the
    records it queued to the error queue and is recorded.  The queue is a
    list without a bound; the queue of the library is a ring of
    [ERR_NUM_ERRORS] slots, and the two agree as long as fewer records
    than that are queued. *)
Definition engine_call (ev : Z -> Event) (w : World) : SslResult * World :=
  let r := engine env (ssl_calls w) in
  (r, mkWorld (handshake_complete_ w) (state_ w) (read_buffer_ w) (write_buffer_ w)
              (err_queue w ++ queued r) (S (ssl_calls w)) (reserve_calls w)
              (events w ++ [ev (rc r)])).

Definition SSL_do_handshake : World -> SslResult * World :=
  engine_call EvHandshakeStep.

(** [int SSL_read(SSL*, void* buf, int num)] and
    [int SSL_write(SSL*, const void* buf, int num)]: both callers pass the
    [uint64_t] [len_] of a slice, which the call converts to [int]. *)
Definition SSL_read (mem len : Z) : World -> SslResult * World :=
  engine_call (EvRead mem len (to_int len)).

Definition SSL_write (mem len : Z) : World -> SslResult * World :=
  engine_call (EvWrite mem len (to_int len)).

Definition SSL_shutdown : World -> SslResult * World :=
  engine_call EvShutdown.

Definition SSL_get_error (r : SslResult) : Z := ssl_error r.

(** [ERR_get_error]: removes and returns the earliest record of the error
    queue, or returns 0 when the queue is empty. *)
Definition ERR_get_error (w : World) : Z * World :=
  match err_queue w with
  | [] => (0, w)
  | e :: q => (e, set_err_queue q w)
  end.

(** *** ConnectionImpl::drainErrorQueue

    [while (uint64_t err = ERR_get_error()) { conn_log_debug(...); }]
    The loop runs on the queue itself: it stops at the empty queue or
    at a record equal to 0, which it has then already removed. *)
Fixpoint drain_loop (q : list Z) (evs : list Event) : list Z * list Event :=
  match q with
  | [] => ([], evs)
  | err :: q' =>
      if err =? 0 then (q', evs)
      else drain_loop q' (evs ++ [EvLog LvDebug (MsgSslError err)])
  end.

Definition drainErrorQueue (w : World) : World :=
  let (q, evs) := drain_loop (err_queue w) (events w) in
  mkWorld (handshake_complete_ w) (state_ w) (read_buffer_ w) (write_buffer_ w)
          q (ssl_calls w) (reserve_calls w) evs.

(** Modelled from the spec: Network::ConnectionImpl::closeSocket (the
    base class is not part of the sources): "the normal transport close
    proceeds". *)
Definition Network_closeSocket (w : World) : World :=
  emit EvTransportClose (set_state Closed w).

(** *** ConnectionImpl::closeSocket *)
Definition closeSocket (w : World) : World :=
  let w1 :=
    if handshake_complete_ w then
      let (r, w1) := SSL_shutdown w in
      let w2 := log LvDebug (MsgSslShutdown (rc r)) w1 in
      drainErrorQueue w2
    else w in
  Network_closeSocket w1.

(** Modelled from the spec: Network::ConnectionImpl::raiseEvents (not part
    of the sources).  The event reaches the upstream consumers, which see
    the connection as it is at that moment; a consumer may close the
    connection synchronously, which runs the virtual [closeSocket]. *)
Definition raiseEvents (e : ConnectionEvent) (w : World) : World :=
  let w1 := emit (EvRaise e (handshake_complete_ w)) w in
  match upstream env (ssl_calls w1) with
  | Ignore => w1
  | CloseConnection => closeSocket w1
  end.

(** *** ConnectionImpl::doHandshake

    [ASSERT(!handshake_complete_)] is compiled out of release builds;
    both callers test the flag before the call. *)
Definition doHandshake (w : World) : PostIoAction * World :=
  let (r, w1) := SSL_do_handshake w in
  if rc r =? 1 then
    let w2 := log LvDebug MsgHandshakeComplete w1 in
    if negb (verifyPeer env (ssl_calls w2)) then
      (Close, log LvDebug MsgVerificationFailed w2)
    else
      let w3 := set_handshake_complete true w2 in
      let w4 := raiseEvents Connected w3 in
      (match state_ w4 with Open => KeepOpen | _ => Close end, w4)
  else
    let err := SSL_get_error r in
    let w2 := log LvDebug (MsgHandshakeError err) w1 in
    if (err =? SSL_ERROR_WANT_READ) || (err =? SSL_ERROR_WANT_WRITE) then
      (KeepOpen, w2)
    else
      (Close, drainErrorQueue w2).

(** *** ConnectionImpl::doReadFromSocket *)

(** [read_buffer_.reserve(16384, slices, 2)]: at most two regions. *)
Definition reserve (w : World) : list RawSlice * World :=
  (firstn 2 (reserve_space env (reserve_calls w)),
   mkWorld (handshake_complete_ w) (state_ w) (read_buffer_ w) (write_buffer_ w)
           (err_queue w) (ssl_calls w) (S (reserve_calls w)) (events w)).

Definition commit (slices : list RawSlice) (n : nat) (w : World) : World :=
  emit (EvCommit (firstn n slices))
       (set_read_buffer (Buffer.commit slices n (read_buffer_ w)) w).

(** The variables the [for] loop over the reserved regions works on:
    [slices[0..i)] as the loop left them, [slices_to_commit], and the
    [keep_reading] and [action] of the enclosing scope. *)
Record ReadVars : Type := mkReadVars {
  visited : list RawSlice;
  slices_to_commit : nat;
  keep_reading : bool;
  action : PostIoAction
}.

(** The [for] loop, from index [i] on; [todo] is [slices[i..num_slices)]. *)
Fixpoint read_slices (todo : list RawSlice) (v : ReadVars) (w : World)
  : ReadVars * list RawSlice * World :=
  match todo with
  | [] => (v, [], w)
  | s :: rest =>
      let (r, w1) := SSL_read (mem_ s) (len_ s) w in
      let w2 := log LvTrace (MsgSslReadReturns (rc r)) w1 in
      if 0 <? rc r then
        read_slices rest
          (mkReadVars (visited v ++ [mkSlice (mem_ s) (rc r)])
                      (S (slices_to_commit v)) (keep_reading v) (action v))
          w2
      else
        let err := SSL_get_error r in
        if err =? SSL_ERROR_WANT_READ then
          (mkReadVars (visited v) (slices_to_commit v) false (action v), todo, w2)
        else
          (mkReadVars (visited v) (slices_to_commit v) false Close, todo,
           drainErrorQueue w2)
  end.

(** The [while (keep_reading)] loop.  The engine may go on delivering data
    for ever, so the loop carries fuel; [None] is "still reading". *)
Fixpoint read_loop (fuel : nat) (act : PostIoAction) (w : World)
  : option (PostIoAction * World) :=
  match fuel with
  | O => None
  | S fuel' =>
      let (slices, w1) := reserve w in
      let '(v, rest, w2) := read_slices slices (mkReadVars [] 0 true act) w1 in
      let w3 :=
        if (0 <? slices_to_commit v)%nat
        then commit (visited v ++ rest) (slices_to_commit v) w2
        else w2 in
      if keep_reading v then read_loop fuel' (action v) w3
      else Some (action v, w3)
  end.

Definition is_close (a : PostIoAction) : bool :=
  match a with Close => true | KeepOpen => false end.

Definition doReadFromSocket (fuel : nat) (w : World)
  : option (PostIoAction * World) :=
  if negb (handshake_complete_ w) then
    let (act, w1) := doHandshake w in
    if is_close act || negb (handshake_complete_ w1) then Some (act, w1)
    else read_loop fuel KeepOpen w1
  else read_loop fuel KeepOpen w.

(** *** ConnectionImpl::doWriteToSocket *)

(** The [for] loop over the slices of the write buffer.  The first
    component is [Some Close] when the loop left the function through
    [return PostIoAction::Close].  [bytes_written] is a [uint64_t]. *)
Fixpoint write_slices (todo : list RawSlice) (bytes_written : Z) (w : World)
  : option PostIoAction * Z * World :=
  match todo with
  | [] => (None, bytes_written, w)
  | s :: rest =>
      let (r, w1) := SSL_write (mem_ s) (len_ s) w in
      let w2 := log LvTrace (MsgSslWriteReturns (rc r)) w1 in
      if 0 <? rc r then
        write_slices rest ((bytes_written + rc r) mod two64) w2
      else
        let err := SSL_get_error r in
        if err =? SSL_ERROR_WANT_WRITE then (None, bytes_written, w2)
        else (Some Close, bytes_written, drainErrorQueue w2)
  end.

Definition drain (n : Z) (w : World) : World :=
  emit (EvDrain n) (set_write_buffer (Buffer.drain n (write_buffer_ w)) w).

Definition write_body (w : World) : PostIoAction * World :=
  if Buffer.length (write_buffer_ w) =? 0 then (KeepOpen, w)
  else
    let slices := Buffer.getRawSlices (write_buffer_ w) in
    match write_slices slices 0 w with
    | (Some act, _, w1) => (act, w1)
    | (None, bytes_written, w1) =>
        (KeepOpen, if 0 <? bytes_written then drain bytes_written w1 else w1)
    end.

Definition doWriteToSocket (w : World) : PostIoAction * World :=
  if negb (handshake_complete_ w) then
    let (act, w1) := doHandshake w in
    if is_close act || negb (handshake_complete_ w1) then (act, w1)
    else write_body w1
  else write_body w.

(** *** ConnectionImpl::sha256PeerCertificateDigest

    [None] is the abort of [RELEASE_ASSERT(n == computed_hash.size())]. *)
Definition sha256PeerCertificateDigest (w : World) : option string :=
  match peer_certificate env (ssl_calls w) with
  | None => Some EmptyString
  | Some cert =>
      let computed_hash := X509_digest env cert in
      if (List.length computed_hash =? SHA256_DIGEST_LENGTH)%nat
      then Some (Hex.encode computed_hash)
      else None
  end.

End Connection.


(** ** Reading the ghost events *)

(** The error records logged by [drainErrorQueue], in order. *)
Definition logged (evs : list Event) : list Z :=
  flat_map (fun e => match e with
                     | EvLog LvDebug (MsgSslError code) => [code]
                     | _ => []
                     end) evs.

(** One entry per raised [Connected] event: the value [handshake_complete_]
    had when the event was raised. *)
Definition connected (evs : list Event) : list bool :=
  flat_map (fun e => match e with
                     | EvRaise Connected b => [b]
                     | _ => []
                     end) evs.

(** The engine calls of each kind, in order: the slice a call was made for
    and what the engine returned. *)
Definition read_calls (evs : list Event) : list (RawSlice * Z) :=
  flat_map (fun e => match e with
                     | EvRead mem len _ r => [(mkSlice mem len, r)]
                     | _ => []
                     end) evs.

Definition write_calls (evs : list Event) : list (RawSlice * Z) :=
  flat_map (fun e => match e with
                     | EvWrite mem len _ r => [(mkSlice mem len, r)]
                     | _ => []
                     end) evs.

(** The buffer address and the [int] length the engine received in each
    of these calls, in order. *)
Definition read_args (evs : list Event) : list (Z * Z) :=
  flat_map (fun e => match e with
                     | EvRead mem _ num _ => [(mem, num)]
                     | _ => []
                     end) evs.

Definition write_args (evs : list Event) : list (Z * Z) :=
  flat_map (fun e => match e with
                     | EvWrite mem _ num _ => [(mem, num)]
                     | _ => []
                     end) evs.

(** What a call made for the slice [s] passes to the engine. *)
Definition as_passed (s : RawSlice) : Z * Z := (mem_ s, to_int (len_ s)).

Definition shutdown_calls (evs : list Event) : list Z :=
  flat_map (fun e => match e with
                     | EvShutdown r => [r]
                     | _ => []
                     end) evs.

Fixpoint transport_closes (evs : list Event) : nat :=
  match evs with
  | [] => O
  | EvTransportClose :: evs' => S (transport_closes evs')
  | _ :: evs' => transport_closes evs'
  end.

(** A region the engine put [n > 0] bytes into, with its length set to [n];
    nothing for a call that delivered no bytes. *)
Definition shrunk (c : RawSlice * Z) : list RawSlice :=
  if 0 <? snd c then [mkSlice (mem_ (fst c)) (snd c)] else [].

Definition received (evs : list Event) : list RawSlice :=
  flat_map shrunk (read_calls evs).

(** The bytes the engine accepted over a list of write calls. *)
Fixpoint accepted (cs : list (RawSlice * Z)) : Z :=
  match cs with
  | [] => 0
  | c :: cs' => (if 0 <? snd c then snd c else 0) + accepted cs'
  end.

Definition written (evs : list Event) : Z := accepted (write_calls evs).

Definition error_log (codes : list Z) : list Event :=
  map (fun code => EvLog LvDebug (MsgSslError code)) codes.

(** The records the engine queues during its calls [c], ..., [c + n - 1],
    and the bytes it returns in them. *)
Fixpoint pushed (env : Env) (c n : nat) : list Z :=
  match n with
  | O => []
  | S n' => queued (engine env c) ++ pushed env (S c) n'
  end.

Fixpoint delivered (env : Env) (c n : nat) : Z :=
  match n with
  | O => 0
  | S n' => rc (engine env c) + delivered env (S c) n'
  end.

(** The states of the spec's state machine, read off the connection. *)
Inductive Phase : Type := Handshaking | Established | Terminated.

Definition phase (w : World) : Phase :=
  match state_ w with
  | Open => if handshake_complete_ w then Established else Handshaking
  | _ => Terminated
  end.

(** ** Driving the connection *)

(** The three functions that classify engine outcomes. *)
Inductive IoCall : Type := Advance | PumpRead (fuel : nat) | PumpWrite.

Definition perform (env : Env) (c : IoCall) (w : World)
  : option (PostIoAction * World) :=
  match c with
  | Advance => Some (doHandshake env w)
  | PumpRead fuel => doReadFromSocket env fuel w
  | PumpWrite => Some (doWriteToSocket env w)
  end.

Fixpoint drive (env : Env) (cs : list IoCall) (w : World)
  : option (list PostIoAction * World) :=
  match cs with
  | [] => Some ([], w)
  | c :: cs' =>
      match perform env c w with
      | None => None
      | Some (a, w1) =>
          match drive env cs' w1 with
          | None => None
          | Some (acts, w2) => Some (a :: acts, w2)
          end
      end
  end.

(** The entry points the event loop and the upstream consumers reach
    ([doHandshake] is private and only runs inside the two pumps). *)
Inductive Call : Type := OnRead (fuel : nat) | OnWrite | OnClose.

Definition call (env : Env) (c : Call) (w : World) : option World :=
  match c with
  | OnRead fuel => option_map snd (doReadFromSocket env fuel w)
  | OnWrite => Some (snd (doWriteToSocket env w))
  | OnClose => Some (closeSocket env w)
  end.

Fixpoint lifetime (env : Env) (cs : list Call) (w : World) : option World :=
  match cs with
  | [] => Some w
  | c :: cs' =>
      match call env c w with
      | None => None
      | Some w1 => lifetime env cs' w1
      end
  end.

(** ** Assumptions on the collaborators *)

(** [ERR_get_error] returns 0 for the empty queue, so no record is 0. *)
Definition queue_ok (w : World) : Prop := Forall (fun e => e <> 0) (err_queue w).

Definition engine_ok (env : Env) : Prop :=
  forall k, Forall (fun e => e <> 0) (queued (engine env k)).

(** A blocking outcome of a handshake step. *)
Definition blocking (r : SslResult) : Prop :=
  rc r <= 0 /\
  (ssl_error r = SSL_ERROR_WANT_READ \/ ssl_error r = SSL_ERROR_WANT_WRITE).

(** The flag and the raised [Connected] events agree: none before the flag
    is set, one (raised with the flag already set) after. *)
Definition consistent (w : World) : Prop :=
  connected (events w) = if handshake_complete_ w then [true] else [].

(** ** Vocabulary of the proofs *)

Create Rewrite HintDb ghost.

(** What one run of the [for] loop of [doReadFromSocket] does, from [w]
    with the loop variables [v] to [w'] with [v'], emitting [evs]: only the
    error queue, the call counter and the events change; the calls go to
    the regions in order and carry the engine's answers; the regions that
    received bytes are appended to [visited] and counted; and either every
    region was read with success, or the loop stopped at the first call
    that failed. *)
Record ReadSlicesSpec (env : Env) (todo : list RawSlice) (v : ReadVars)
       (w : World) (v' : ReadVars) (rest : list RawSlice) (w' : World)
       (evs : list Event) : Prop := {
  rs_world :
    w' = mkWorld (handshake_complete_ w) (state_ w) (read_buffer_ w)
                 (write_buffer_ w) (err_queue w')
                 (ssl_calls w + List.length (read_calls evs))%nat
                 (reserve_calls w) (events w ++ evs);
  rs_connected : connected evs = [];
  rs_write_calls : write_calls evs = [];
  rs_shutdown_calls : shutdown_calls evs = [];
  rs_transport : transport_closes evs = 0%nat;
  rs_regions :
    map fst (read_calls evs) = firstn (List.length (read_calls evs)) todo;
  rs_answers :
    map snd (read_calls evs) =
    map (fun k => rc (engine env k))
        (seq (ssl_calls w) (List.length (read_calls evs)));
  rs_visited : visited v' = visited v ++ received evs;
  rs_count :
    slices_to_commit v' = (slices_to_commit v + List.length (received evs))%nat;
  rs_rest : rest = skipn (List.length (received evs)) todo;
  rs_pattern :
    (keep_reading v' = keep_reading v /\ action v' = action v /\
     List.length (read_calls evs) = List.length todo /\
     Forall (fun c => 0 < snd c) (read_calls evs))
    \/
    (keep_reading v' = false /\
     exists ok bad,
       read_calls evs = ok ++ [bad] /\
       Forall (fun c => 0 < snd c) ok /\ snd bad <= 0 /\
       action v' =
         if ssl_error (engine env (ssl_calls w + List.length ok)) =? SSL_ERROR_WANT_READ
         then action v else Close)
}.

(** Proof steps that recur: equality of two connection records, and
    reading the ghost events of an explicit list. *)
Ltac world_eq :=
  unfold log, emit, set_handshake_complete, set_state, set_read_buffer,
    set_write_buffer, set_err_queue;
  simpl; f_equal; try lia; rewrite <- ?app_assoc; try reflexivity.

Ltac ghost_simpl :=
  unfold received, written; simpl; autorewrite with ghost; simpl.

Ltac ghost_rw := simpl; autorewrite with ghost; simpl.

(** The regions handed out by the reservations [c], ..., [c + n - 1]. *)
Definition reserved (env : Env) (c n : nat) : list RawSlice :=
  flat_map (fun k => firstn 2 (reserve_space env k)) (seq c n).

(** What the [while] loop of [doReadFromSocket] does when it returns
    [act]: the read buffer gains exactly the regions that received bytes,
    and the last engine call is the first that failed. *)
Record ReadLoopSpec (env : Env) (act0 : PostIoAction) (w : World)
       (act : PostIoAction) (w' : World) (evs : list Event) : Prop := {
  rl_world :
    w' = mkWorld (handshake_complete_ w) (state_ w)
                 (read_buffer_ w ++ received evs)
                 (write_buffer_ w) (err_queue w')
                 (ssl_calls w + List.length (read_calls evs))%nat
                 (reserve_calls w') (events w ++ evs);
  rl_connected : connected evs = [];
  rl_write_calls : write_calls evs = [];
  rl_shutdown_calls : shutdown_calls evs = [];
  rl_transport : transport_closes evs = 0%nat;
  rl_regions :
    exists n,
      reserve_calls w' = (reserve_calls w + n)%nat /\
      map fst (read_calls evs) =
      firstn (List.length (read_calls evs)) (reserved env (reserve_calls w) n);
  rl_answers :
    map snd (read_calls evs) =
    map (fun k => rc (engine env k))
        (seq (ssl_calls w) (List.length (read_calls evs)));
  rl_pattern :
    exists ok bad,
      read_calls evs = ok ++ [bad] /\
      Forall (fun c => 0 < snd c) ok /\ snd bad <= 0 /\
      act =
        if ssl_error (engine env (ssl_calls w + List.length ok)) =? SSL_ERROR_WANT_READ
        then act0 else Close
}.

(** The connection after [reserve], and after the commit that follows the
    [for] loop. *)
Definition after_reserve (w : World) : World :=
  mkWorld (handshake_complete_ w) (state_ w) (read_buffer_ w) (write_buffer_ w)
          (err_queue w) (ssl_calls w) (S (reserve_calls w)) (events w).

Definition after_commit (v : ReadVars) (rest : list RawSlice) (w : World)
  : World :=
  if (0 <? slices_to_commit v)%nat
  then commit (visited v ++ rest) (slices_to_commit v) w
  else w.

(** The engine's contract for [SSL_write]: the call on a slice reports at
    most the slice's length as written.  [c] is the index of the call on the
    first slice. *)
Fixpoint writes_fit (env : Env) (slices : list RawSlice) (c : nat) : Prop :=
  match slices with
  | [] => True
  | s :: rest => rc (engine env c) <= len_ s /\ writes_fit env rest (S c)
  end.

(** A buffer as [getRawSlices] shows it: no empty slice, and a length that
    fits the [uint64_t] that [length()] returns. *)
Definition buffer_ok (b : Buffer.Instance) : Prop :=
  Forall (fun s => 0 < len_ s) b /\ Buffer.length b < two64.

(** What the [for] loop of [doWriteToSocket] does: [ret] is [Some Close]
    when the loop returned from the function, [bw'] the byte count it leaves
    in [bytes_written]. *)
Record WriteSlicesSpec (env : Env) (todo : list RawSlice) (bw : Z) (w : World)
       (ret : option PostIoAction) (bw' : Z) (w' : World)
       (evs : list Event) : Prop := {
  ws_world :
    w' = mkWorld (handshake_complete_ w) (state_ w) (read_buffer_ w)
                 (write_buffer_ w) (err_queue w')
                 (ssl_calls w + List.length (write_calls evs))%nat
                 (reserve_calls w) (events w ++ evs);
  ws_connected : connected evs = [];
  ws_read_calls : read_calls evs = [];
  ws_shutdown_calls : shutdown_calls evs = [];
  ws_transport : transport_closes evs = 0%nat;
  ws_regions :
    map fst (write_calls evs) = firstn (List.length (write_calls evs)) todo;
  ws_answers :
    map snd (write_calls evs) =
    map (fun k => rc (engine env k))
        (seq (ssl_calls w) (List.length (write_calls evs)));
  ws_bytes : bw' mod two64 = (bw + written evs) mod two64;
  ws_range : 0 <= bw < two64 -> 0 <= bw' < two64;
  ws_fit :
    writes_fit env todo (ssl_calls w) ->
    Forall (fun s => 0 < len_ s) todo ->
    written evs <= Buffer.length todo;
  ws_pattern :
    (ret = None /\
     List.length (write_calls evs) = List.length todo /\
     Forall (fun c => 0 < snd c) (write_calls evs))
    \/
    (exists ok bad,
       write_calls evs = ok ++ [bad] /\
       Forall (fun c => 0 < snd c) ok /\ snd bad <= 0 /\
       ret =
         if ssl_error (engine env (ssl_calls w + List.length ok)) =? SSL_ERROR_WANT_WRITE
         then None else Some Close)
}.

(** What [doWriteToSocket] does once the handshake is complete. *)
Record WriteBodySpec (env : Env) (w : World) (act : PostIoAction) (w' : World)
       (evs : list Event) : Prop := {
  wb_world :
    w' = mkWorld (handshake_complete_ w) (state_ w) (read_buffer_ w)
                 (write_buffer_ w') (err_queue w')
                 (ssl_calls w + List.length (write_calls evs))%nat
                 (reserve_calls w) (events w ++ evs);
  wb_connected : connected evs = [];
  wb_read_calls : read_calls evs = [];
  wb_shutdown_calls : shutdown_calls evs = [];
  wb_transport : transport_closes evs = 0%nat;
  wb_regions :
    map fst (write_calls evs) =
    firstn (List.length (write_calls evs)) (write_buffer_ w);
  wb_answers :
    map snd (write_calls evs) =
    map (fun k => rc (engine env k))
        (seq (ssl_calls w) (List.length (write_calls evs)));
  wb_fit :
    writes_fit env (write_buffer_ w) (ssl_calls w) ->
    Forall (fun s => 0 < len_ s) (write_buffer_ w) ->
    written evs <= Buffer.length (write_buffer_ w);
  wb_buffer :
    write_buffer_ w' =
    match act with
    | Close => write_buffer_ w
    | KeepOpen =>
        if 0 <? written evs mod two64
        then Buffer.drain (written evs mod two64) (write_buffer_ w)
        else write_buffer_ w
    end;
  wb_pattern :
    (Buffer.length (write_buffer_ w) = 0 /\ act = KeepOpen /\ w' = w /\ evs = [])
    \/
    (Buffer.length (write_buffer_ w) <> 0 /\ act = KeepOpen /\
     List.length (write_calls evs) = List.length (write_buffer_ w) /\
     Forall (fun c => 0 < snd c) (write_calls evs))
    \/
    (Buffer.length (write_buffer_ w) <> 0 /\
     exists ok bad,
       write_calls evs = ok ++ [bad] /\
       Forall (fun c => 0 < snd c) ok /\ snd bad <= 0 /\
       act =
         if ssl_error (engine env (ssl_calls w + List.length ok)) =? SSL_ERROR_WANT_WRITE
         then KeepOpen else Close)
}.

(** From [w] to [w'] no error record was lost: what was queued at [w] and
    what the engine queued in the [n] calls made since is what has been
    logged since and what is still queued at [w']. *)
Definition settles (env : Env) (w w' : World) : Prop :=
  queue_ok w' /\
  exists n evs,
    ssl_calls w' = (ssl_calls w + n)%nat /\
    events w' = events w ++ evs /\
    logged evs ++ err_queue w' = err_queue w ++ pushed env (ssl_calls w) n.

(** "A call is followed by another call only if it satisfies [P]". *)
Definition continues_only_after (P : RawSlice * Z -> Prop)
           (cs : list (RawSlice * Z)) : Prop :=
  forall pre c post, cs = pre ++ c :: post -> post <> [] -> P c.

(** The region of the call was filled to its whole length. *)
Definition fully_satisfied (c : RawSlice * Z) : Prop := snd c = len_ (fst c).

(** The call delivered some bytes. *)
Definition got_bytes (c : RawSlice * Z) : Prop := 0 < snd c.

(** "No call follows a call that delivered nothing". *)
Definition stops_at_failure (cs : list (RawSlice * Z)) : Prop :=
  forall pre c post, cs = pre ++ c :: post -> snd c <= 0 -> post = [].

(** The loop was left by [return PostIoAction::Close]: the call on slice
    [k] failed with something other than WantWrite. *)
Definition write_fatal (env : Env) (w : World) (k : nat) : bool :=
  (k <? List.length (write_buffer_ w))%nat &&
  negb (ssl_error (engine env (ssl_calls w + k)) =? SSL_ERROR_WANT_WRITE).

(** ** Concrete environments and connections *)

Module Scenario.

Definition delivers (n : Z) : SslResult := mkResult n SSL_ERROR_NONE [].
Definition want_read : SslResult := mkResult (-1) SSL_ERROR_WANT_READ [].
Definition want_write : SslResult := mkResult (-1) SSL_ERROR_WANT_WRITE [].

(** A protocol failure that leaves one record on the error queue. *)
Definition failure : SslResult := mkResult (-1) SSL_ERROR_SSL [336151576].
Definition hangup : SslResult := mkResult (-1) SSL_ERROR_SYSCALL [].

(** A stand-in for SHA-256 with the right output length. *)
Definition stand_in_digest (cert : list byte) : list byte :=
  firstn 32 (cert ++ repeat x00 32).

(** An engine that gives the listed answers in order; the peer certificate
    is known to the session once the first handshake step has run. *)
Definition scripted (answers : list SslResult) (verified : bool)
           (reaction : Reaction) (regions : list RawSlice)
           (cert : option (list byte)) : Env :=
  mkEnv (fun k => nth k answers hangup)
        (fun _ => verified)
        (fun _ => reaction)
        (fun _ => regions)
        (fun k => match k with O => None | S _ => cert end)
        stand_in_digest.

Definition leaf_certificate : list byte := [x30; x82; x01; x0a; x30; x81; xb1].

Definition fresh : World := initial [] [] [].

(** A connection whose handshake completed in its first engine call. *)
Definition established (rd wr : Buffer.Instance) (q : list Z) : World :=
  mkWorld true Open rd wr q 1 0
          [EvHandshakeStep 1; EvLog LvDebug MsgHandshakeComplete;
           EvRaise Connected true].

Definition world_of (r : option (PostIoAction * World)) (w : World) : World :=
  match r with
  | Some (_, w') => w'
  | None => w
  end.

(** The handshake succeeds and the peer is accepted. *)
Definition accepting : Env := scripted [delivers 1] true Ignore [] None.

(** The handshake succeeds and a consumer closes on [Connected]. *)
Definition vetoing : Env :=
  scripted [delivers 1; delivers 1] true CloseConnection [] None.

(** The handshake succeeds in the engine, the peer fails verification. *)
Definition rejecting : Env :=
  scripted [delivers 1] false Ignore [] (Some leaf_certificate).

Definition stalling : Env :=
  scripted [want_read; want_write; want_read] true Ignore [] None.

Definition one_region : list RawSlice := [mkSlice 4096 16384].
Definition two_regions : list RawSlice := [mkSlice 4096 4000; mkSlice 65536 12384].

Definition five_then_blocked (regions : list RawSlice) : Env :=
  scripted [delivers 1; delivers 5; want_read] true Ignore regions None.

Definition five_then_failure (regions : list RawSlice) : Env :=
  scripted [delivers 1; delivers 5; failure] true Ignore regions None.

Definition hundred_bytes : Buffer.Instance := [mkSlice 8192 40; mkSlice 12288 60].

Definition forty_then_blocked : Env :=
  scripted [delivers 1; delivers 40; want_write; delivers 60] true Ignore [] None.

Definition forty_then_failure : Env :=
  scripted [delivers 1; delivers 40; failure] true Ignore [] None.


Definition failing_shutdown : Env :=
  scripted [delivers 1; failure] true Ignore [] None.

End Scenario.

(** ** Vocabulary of the further properties *)

(** Whether a handshake step entered at [w] completes the handshake: the
    engine reports success and the peer passes verification. *)
Definition completes (env : Env) (w : World) : bool :=
  (rc (engine env (ssl_calls w)) =? 1) && verifyPeer env (S (ssl_calls w)).

(** Whether a consumer closes the connection on the [Connected] event
    raised by a handshake step entered at [w]. *)
Definition vetoed (env : Env) (w : World) : bool :=
  match upstream env (S (ssl_calls w)) with
  | Ignore => false
  | CloseConnection => true
  end.

(** The spec's states in the order the state machine goes through them. *)
Definition phase_rank (p : Phase) : nat :=
  match p with
  | Handshaking => 0
  | Established => 1
  | Terminated => 2
  end.

Definition is_open (s : State) : bool :=
  match s with
  | Open => true
  | _ => false
  end.

(** Whether a pump entered at [w] before the handshake is complete goes on
    to its I/O in the same call: the step completes the handshake and the
    connection is still [Open] after the [Connected] event. *)
Definition proceeds (env : Env) (w : World) : bool :=
  completes env w && negb (vetoed env w) && is_open (state_ w).

(** The connection has done no application I/O and no shutdown so far:
    the engine was never asked to read, write or shut down, and the
    buffers hold what they held at construction. *)
Definition quiet_so_far (rd wr : Buffer.Instance) (w : World) : Prop :=
  read_calls (events w) = [] /\
  write_calls (events w) = [] /\
  shutdown_calls (events w) = [] /\
  read_buffer_ w = rd /\
  write_buffer_ w = wr.

(** A peer that never stops sending: every engine call delivers a hundred
    bytes, and every reservation offers the same region. *)
Definition streaming : Env :=
  mkEnv (fun _ => Scenario.delivers 100)
        (fun _ => true)
        (fun _ => Ignore)
        (fun _ => Scenario.one_region)
        (fun _ => None)
        Scenario.stand_in_digest.

(** ** Vocabulary of the engine's parameters and of the loop entry *)

(** The [int] recorded with a read or write call is the conversion of the
    length of the slice the call was made for. *)
Definition converted (e : Event) : Prop :=
  match e with
  | EvRead _ len num _ => num = to_int len
  | EvWrite _ len num _ => num = to_int len
  | _ => True
  end.

(** From [w] to [w'] events were only added, each read and write call
    among them with its converted length. *)
Definition grows (w w' : World) : Prop :=
  exists evs, events w' = events w ++ evs /\ Forall converted evs.

(** A slice whose length passes unchanged through the [int] parameter. *)
Definition fits_int (s : RawSlice) : Prop := 0 <= len_ s < 2 ^ 31.

(** The connection as the loop of [doReadFromSocket] or [doWriteToSocket]
    finds it: the connection itself when the handshake is complete, the
    connection after the handshake step when the call has to take that step
    first. *)
Definition loop_entry (env : Env) (w : World) : World :=
  if handshake_complete_ w then w else snd (doHandshake env w).

(** Whether a call of [doReadFromSocket] or [doWriteToSocket] entered at
    [w] gets past the handshake test to its loop. *)
Definition reaches_loop (env : Env) (w : World) : bool :=
  handshake_complete_ w || proceeds env w.



(** * Proofs *)

(** ** The ghost events of a concatenation *)

Lemma logged_app (a b : list Event) : logged (a ++ b) = logged a ++ logged b.
Proof. apply flat_map_app. Qed.

Lemma connected_app (a b : list Event) :
  connected (a ++ b) = connected a ++ connected b.
Proof. apply flat_map_app. Qed.

Lemma read_calls_app (a b : list Event) :
  read_calls (a ++ b) = read_calls a ++ read_calls b.
Proof. apply flat_map_app. Qed.

Lemma write_calls_app (a b : list Event) :
  write_calls (a ++ b) = write_calls a ++ write_calls b.
Proof. apply flat_map_app. Qed.

Lemma shutdown_calls_app (a b : list Event) :
  shutdown_calls (a ++ b) = shutdown_calls a ++ shutdown_calls b.
Proof. apply flat_map_app. Qed.

Lemma transport_closes_app (a b : list Event) :
  transport_closes (a ++ b) = (transport_closes a + transport_closes b)%nat.
Proof.
  induction a as [|e a IH]; simpl; [reflexivity|].
  destruct e; simpl; rewrite ?IH; reflexivity.
Qed.

Lemma received_app (a b : list Event) :
  received (a ++ b) = received a ++ received b.
Proof. unfold received. now rewrite read_calls_app, flat_map_app. Qed.

Lemma accepted_app (a b : list (RawSlice * Z)) :
  accepted (a ++ b) = accepted a + accepted b.
Proof. induction a as [|c a IH]; simpl; [reflexivity | rewrite IH; lia]. Qed.

Lemma written_app (a b : list Event) : written (a ++ b) = written a + written b.
Proof. unfold written. now rewrite write_calls_app, accepted_app. Qed.

Lemma error_log_app (a b : list Z) :
  error_log (a ++ b) = error_log a ++ error_log b.
Proof. apply map_app. Qed.

Lemma logged_error_log (codes : list Z) : logged (error_log codes) = codes.
Proof. induction codes as [|c l IH]; simpl; [reflexivity | now rewrite IH]. Qed.

Lemma connected_error_log (codes : list Z) : connected (error_log codes) = [].
Proof. induction codes as [|c l IH]; simpl; auto. Qed.

Lemma read_calls_error_log (codes : list Z) : read_calls (error_log codes) = [].
Proof. induction codes as [|c l IH]; simpl; auto. Qed.

Lemma write_calls_error_log (codes : list Z) : write_calls (error_log codes) = [].
Proof. induction codes as [|c l IH]; simpl; auto. Qed.

Lemma shutdown_calls_error_log (codes : list Z) :
  shutdown_calls (error_log codes) = [].
Proof. induction codes as [|c l IH]; simpl; auto. Qed.

Lemma transport_closes_error_log (codes : list Z) :
  transport_closes (error_log codes) = 0%nat.
Proof. induction codes as [|c l IH]; simpl; auto. Qed.

#[local] Hint Rewrite logged_app connected_app read_calls_app write_calls_app
  shutdown_calls_app transport_closes_app received_app written_app
  logged_error_log connected_error_log read_calls_error_log
  write_calls_error_log shutdown_calls_error_log transport_closes_error_log
  app_nil_r : ghost.

(** ** drainErrorQueue *)

(** Whatever the queue holds, the loop only appends debug lines. *)
Lemma drain_loop_events (q : list Z) :
  forall evs, exists codes, snd (drain_loop q evs) = evs ++ error_log codes.
Proof.
  induction q as [|e q IH]; intros evs; simpl.
  - exists []. simpl. now rewrite app_nil_r.
  - destruct (e =? 0).
    + exists []. simpl. now rewrite app_nil_r.
    + destruct (IH (evs ++ [EvLog LvDebug (MsgSslError e)])) as [codes Hc].
      exists (e :: codes). rewrite Hc, <- app_assoc. reflexivity.
Qed.

(** On a queue without a 0 record the loop empties the queue and logs every
    record, oldest first. *)
Lemma drain_loop_exhaustive (q : list Z) :
  Forall (fun e => e <> 0) q ->
  forall evs, drain_loop q evs = ([], evs ++ error_log q).
Proof.
  induction 1 as [|e q He Hq IH]; intros evs; simpl.
  - now rewrite app_nil_r.
  - destruct (Z.eqb_spec e 0) as [E|_]; [contradiction|].
    rewrite IH, <- app_assoc. reflexivity.
Qed.

(** [drainErrorQueue] is the loop of the source: take a record with
    [ERR_get_error], stop if it is 0, log it and go round again otherwise. *)
Lemma drainErrorQueue_unfold (w : World) :
  drainErrorQueue w =
  let (err, w1) := ERR_get_error w in
  if err =? 0 then w1
  else drainErrorQueue (log LvDebug (MsgSslError err) w1).
Proof.
  unfold drainErrorQueue, ERR_get_error.
  destruct w as [f s rb wb q c rcs evs]. simpl.
  destruct q as [|e q]; simpl; [reflexivity|].
  destruct (e =? 0); reflexivity.
Qed.

Lemma drainErrorQueue_frame (w : World) :
  exists q codes,
    drainErrorQueue w =
    mkWorld (handshake_complete_ w) (state_ w) (read_buffer_ w) (write_buffer_ w)
            q (ssl_calls w) (reserve_calls w) (events w ++ error_log codes).
Proof.
  unfold drainErrorQueue.
  destruct (drain_loop_events (err_queue w) (events w)) as [codes Hc].
  destruct (drain_loop (err_queue w) (events w)) as [q evs]. simpl in Hc.
  exists q, codes. now rewrite Hc.
Qed.

Lemma drainErrorQueue_exhaustive (w : World) :
  queue_ok w ->
  drainErrorQueue w =
  mkWorld (handshake_complete_ w) (state_ w) (read_buffer_ w) (write_buffer_ w)
          [] (ssl_calls w) (reserve_calls w)
          (events w ++ error_log (err_queue w)).
Proof.
  intros Hq. unfold drainErrorQueue.
  now rewrite (drain_loop_exhaustive _ Hq).
Qed.

(** ** closeSocket *)

Lemma closeSocket_frame (env : Env) (w : World) :
  exists evs,
    events (closeSocket env w) = events w ++ evs ++ [EvTransportClose] /\
    connected evs = [] /\
    transport_closes evs = 0%nat /\
    shutdown_calls evs =
      (if handshake_complete_ w then [rc (engine env (ssl_calls w))] else []) /\
    handshake_complete_ (closeSocket env w) = handshake_complete_ w /\
    state_ (closeSocket env w) = Closed /\
    ssl_calls (closeSocket env w) =
      (if handshake_complete_ w then S (ssl_calls w) else ssl_calls w).
Proof.
  unfold closeSocket. destruct (handshake_complete_ w) eqn:Hf.
  - unfold SSL_shutdown, engine_call, log, emit. simpl.
    match goal with |- context [drainErrorQueue ?x] =>
      destruct (drainErrorQueue_frame x) as (q & codes & ->) end.
    simpl.
    exists ([EvShutdown (rc (engine env (ssl_calls w)));
             EvLog LvDebug (MsgSslShutdown (rc (engine env (ssl_calls w))))]
            ++ error_log codes).
    autorewrite with ghost. simpl.
    repeat split; auto. now rewrite <- !app_assoc.
  - exists []. simpl. repeat split; auto.
Qed.

(** C9: [closeSocket] attempts the engine's shutdown notification exactly
    when the handshake had completed (once, and before the transport
    close), never otherwise; whatever the engine returns for it, the
    transport close follows: the connection ends [Closed] with exactly one
    transport close, which is the last thing the call does. *)
Theorem closeSocket_shutdown_iff_handshake_complete (env : Env) (w : World) :
  exists evs,
    events (closeSocket env w) = events w ++ evs ++ [EvTransportClose] /\
    transport_closes evs = 0%nat /\
    shutdown_calls evs =
      (if handshake_complete_ w then [rc (engine env (ssl_calls w))] else []) /\
    ssl_calls (closeSocket env w) =
      (if handshake_complete_ w then S (ssl_calls w) else ssl_calls w) /\
    state_ (closeSocket env w) = Closed.
Proof.
  destruct (closeSocket_frame env w) as (evs & H1 & _ & H3 & H4 & _ & H6 & H7).
  exists evs. auto.
Qed.

(** [closeSocket] on a connection whose handshake had completed, in full. *)
Lemma closeSocket_after_handshake (env : Env) (w : World) :
  engine_ok env ->
  queue_ok w ->
  handshake_complete_ w = true ->
  closeSocket env w =
  mkWorld true Closed (read_buffer_ w) (write_buffer_ w) [] (S (ssl_calls w))
          (reserve_calls w)
          (events w
           ++ [EvShutdown (rc (engine env (ssl_calls w)));
               EvLog LvDebug (MsgSslShutdown (rc (engine env (ssl_calls w))))]
           ++ error_log (err_queue w ++ queued (engine env (ssl_calls w)))
           ++ [EvTransportClose]).
Proof.
  intros He Hq Hf. unfold closeSocket. rewrite Hf.
  unfold SSL_shutdown, engine_call, log, emit. simpl.
  rewrite drainErrorQueue_exhaustive.
  - unfold Network_closeSocket, emit, set_state. simpl.
    rewrite Hf, <- !app_assoc. reflexivity.
  - unfold queue_ok. simpl. apply Forall_app. split; [exact Hq | apply He].
Qed.

(** C10: when the handshake had completed, [closeSocket] drains the error
    queue after the shutdown notification and before the transport close:
    every record that was queued before the call or by the notification is
    logged, in order, between the notification and the transport close, and
    the queue is empty when the call returns. *)
Theorem closeSocket_drains_after_shutdown (env : Env) (w : World) :
  engine_ok env ->
  queue_ok w ->
  handshake_complete_ w = true ->
  err_queue (closeSocket env w) = [] /\
  state_ (closeSocket env w) = Closed /\
  events (closeSocket env w) =
    events w
    ++ [EvShutdown (rc (engine env (ssl_calls w)));
        EvLog LvDebug (MsgSslShutdown (rc (engine env (ssl_calls w))))]
    ++ error_log (err_queue w ++ queued (engine env (ssl_calls w)))
    ++ [EvTransportClose].
Proof.
  intros He Hq Hf. rewrite (closeSocket_after_handshake env w He Hq Hf).
  simpl. auto.
Qed.

(** ** doHandshake, case by case *)

Lemma doHandshake_blocked (env : Env) (w : World) :
  blocking (engine env (ssl_calls w)) ->
  doHandshake env w =
  (KeepOpen,
   mkWorld (handshake_complete_ w) (state_ w) (read_buffer_ w) (write_buffer_ w)
           (err_queue w ++ queued (engine env (ssl_calls w)))
           (S (ssl_calls w)) (reserve_calls w)
           (events w
            ++ [EvHandshakeStep (rc (engine env (ssl_calls w)));
                EvLog LvDebug
                  (MsgHandshakeError (ssl_error (engine env (ssl_calls w))))])).
Proof.
  intros [Hrc Herr]. unfold doHandshake, SSL_do_handshake, engine_call.
  destruct (Z.eqb_spec (rc (engine env (ssl_calls w))) 1) as [E|_]; [lia|].
  unfold SSL_get_error, log, emit. simpl.
  replace ((ssl_error (engine env (ssl_calls w)) =? SSL_ERROR_WANT_READ)
           || (ssl_error (engine env (ssl_calls w)) =? SSL_ERROR_WANT_WRITE))
    with true.
  - now rewrite <- app_assoc.
  - symmetry. apply orb_true_iff.
    destruct Herr as [-> | ->]; [left | right]; reflexivity.
Qed.

Lemma doHandshake_rejected (env : Env) (w : World) :
  rc (engine env (ssl_calls w)) = 1 ->
  verifyPeer env (S (ssl_calls w)) = false ->
  doHandshake env w =
  (Close,
   mkWorld (handshake_complete_ w) (state_ w) (read_buffer_ w) (write_buffer_ w)
           (err_queue w ++ queued (engine env (ssl_calls w)))
           (S (ssl_calls w)) (reserve_calls w)
           (events w
            ++ [EvHandshakeStep 1;
                EvLog LvDebug MsgHandshakeComplete;
                EvLog LvDebug MsgVerificationFailed])).
Proof.
  intros Hrc Hv. unfold doHandshake, SSL_do_handshake, engine_call.
  rewrite Hrc. simpl. rewrite Hv. simpl.
  unfold log, emit. simpl. now rewrite <- !app_assoc.
Qed.

Lemma doHandshake_verified (env : Env) (w : World) :
  rc (engine env (ssl_calls w)) = 1 ->
  verifyPeer env (S (ssl_calls w)) = true ->
  doHandshake env w =
  let w4 :=
    raiseEvents env Connected
      (mkWorld true (state_ w) (read_buffer_ w) (write_buffer_ w)
               (err_queue w ++ queued (engine env (ssl_calls w)))
               (S (ssl_calls w)) (reserve_calls w)
               (events w ++ [EvHandshakeStep 1;
                             EvLog LvDebug MsgHandshakeComplete])) in
  (match state_ w4 with Open => KeepOpen | _ => Close end, w4).
Proof.
  intros Hrc Hv. unfold doHandshake, SSL_do_handshake, engine_call.
  rewrite Hrc. simpl. rewrite Hv. simpl.
  unfold log, emit, set_handshake_complete. simpl.
  now rewrite <- !app_assoc.
Qed.

Lemma doHandshake_fatal (env : Env) (w : World) :
  rc (engine env (ssl_calls w)) <> 1 ->
  ssl_error (engine env (ssl_calls w)) <> SSL_ERROR_WANT_READ ->
  ssl_error (engine env (ssl_calls w)) <> SSL_ERROR_WANT_WRITE ->
  doHandshake env w =
  (Close,
   drainErrorQueue
     (mkWorld (handshake_complete_ w) (state_ w) (read_buffer_ w) (write_buffer_ w)
              (err_queue w ++ queued (engine env (ssl_calls w)))
              (S (ssl_calls w)) (reserve_calls w)
              (events w
               ++ [EvHandshakeStep (rc (engine env (ssl_calls w)));
                   EvLog LvDebug
                     (MsgHandshakeError (ssl_error (engine env (ssl_calls w))))]))).
Proof.
  intros Hrc Hr Hw. unfold doHandshake, SSL_do_handshake, engine_call.
  destruct (Z.eqb_spec (rc (engine env (ssl_calls w))) 1) as [E|_]; [contradiction|].
  unfold SSL_get_error, log, emit. simpl.
  destruct (Z.eqb_spec (ssl_error (engine env (ssl_calls w))) SSL_ERROR_WANT_READ);
    [contradiction|].
  destruct (Z.eqb_spec (ssl_error (engine env (ssl_calls w))) SSL_ERROR_WANT_WRITE);
    [contradiction|].
  simpl. now rewrite <- app_assoc.
Qed.

(** The four cases are all there is. *)
Lemma doHandshake_outcomes (env : Env) (w : World) :
  let r := engine env (ssl_calls w) in
  (rc r = 1 /\ verifyPeer env (S (ssl_calls w)) = true) \/
  (rc r = 1 /\ verifyPeer env (S (ssl_calls w)) = false) \/
  (rc r <> 1 /\ (ssl_error r = SSL_ERROR_WANT_READ \/
                 ssl_error r = SSL_ERROR_WANT_WRITE)) \/
  (rc r <> 1 /\ ssl_error r <> SSL_ERROR_WANT_READ /\
   ssl_error r <> SSL_ERROR_WANT_WRITE).
Proof.
  intros r.
  destruct (Z.eq_dec (rc r) 1) as [E|E].
  - destruct (verifyPeer env (S (ssl_calls w))); tauto.
  - destruct (Z.eq_dec (ssl_error r) SSL_ERROR_WANT_READ); [tauto|].
    destruct (Z.eq_dec (ssl_error r) SSL_ERROR_WANT_WRITE); tauto.
Qed.

(** C2: a handshake step that succeeds in the engine but whose peer fails
    verification makes [doHandshake] return [Close] after two debug lines and
    nothing else: no [Connected] event is raised, [handshake_complete_] is
    still false, and the connection is not in the state the spec calls
    Open. *)
Theorem doHandshake_verification_failure (env : Env) (w : World) :
  handshake_complete_ w = false ->
  rc (engine env (ssl_calls w)) = 1 ->
  verifyPeer env (S (ssl_calls w)) = false ->
  exists w',
    doHandshake env w = (Close, w') /\
    events w' = events w ++ [EvHandshakeStep 1;
                             EvLog LvDebug MsgHandshakeComplete;
                             EvLog LvDebug MsgVerificationFailed] /\
    connected (events w') = connected (events w) /\
    handshake_complete_ w' = false /\
    state_ w' = state_ w /\
    phase w' <> Established.
Proof.
  intros Hf Hrc Hv. rewrite (doHandshake_rejected env w Hrc Hv).
  eexists. split; [reflexivity|]. simpl.
  repeat split; auto.
  - autorewrite with ghost. reflexivity.
  - unfold phase. simpl. rewrite Hf. destruct (state_ w); discriminate.
Qed.

(** ** The read loops *)

Lemma world_eta (w : World) :
  w = mkWorld (handshake_complete_ w) (state_ w) (read_buffer_ w)
              (write_buffer_ w) (err_queue w) (ssl_calls w) (reserve_calls w)
              (events w).
Proof. now destruct w. Qed.

Lemma slice_eta (s : RawSlice) : mkSlice (mem_ s) (len_ s) = s.
Proof. now destruct s. Qed.

Lemma shrunk_some (s : RawSlice) (n : Z) :
  0 < n -> shrunk (s, n) = [mkSlice (mem_ s) n].
Proof.
  intros H. unfold shrunk. simpl.
  destruct (Z.ltb_spec 0 n); [reflexivity | lia].
Qed.

Lemma shrunk_none (s : RawSlice) (n : Z) : n <= 0 -> shrunk (s, n) = [].
Proof.
  intros H. unfold shrunk. simpl.
  destruct (Z.ltb_spec 0 n); [lia | reflexivity].
Qed.

Lemma read_slices_spec (env : Env) (todo : list RawSlice) :
  forall v w v' rest w',
    read_slices env todo v w = (v', rest, w') ->
    exists evs, ReadSlicesSpec env todo v w v' rest w' evs.
Proof.
  induction todo as [|s todo IH]; intros v w v' rest w' H.
  - simpl in H. injection H as <- <- <-. exists [].
    constructor; ghost_simpl; rewrite ?Nat.add_0_r; try reflexivity.
    + apply world_eta.
    + left. auto.
  - simpl in H.
    set (r := engine env (ssl_calls w)) in *.
    destruct (Z.ltb_spec 0 (rc r)) as [Hpos|Hneg].
    + apply IH in H. destruct H as [evs2 S2]. destruct S2. simpl in *.
      exists (EvRead (mem_ s) (len_ s) (to_int (len_ s)) (rc r)
              :: EvLog LvTrace (MsgSslReadReturns (rc r)) :: evs2).
      pose proof (shrunk_some (mkSlice (mem_ s) (len_ s)) _ Hpos) as Hsh.
      simpl in Hsh. unfold received in *.
      constructor; ghost_simpl; rewrite ?Hsh, ?slice_eta; simpl;
        try assumption.
      * etransitivity; [exact rs_world0|]. world_eq.
      * now rewrite rs_regions0.
      * now rewrite rs_answers0.
      * rewrite rs_visited0, <- app_assoc. reflexivity.
      * rewrite rs_count0. lia.
      * destruct rs_pattern0 as [(K & A & L & F) | (K & ok & bad & R & F & B & A)].
        -- left. repeat split; auto.
        -- right. split; [exact K|].
           exists ((s, rc r) :: ok), bad.
           rewrite R. repeat split; auto.
           rewrite A. simpl.
           replace (ssl_calls w + S (Datatypes.length ok))%nat
             with (S (ssl_calls w + Datatypes.length ok))%nat by lia.
           reflexivity.
    + pose proof (shrunk_none (mkSlice (mem_ s) (len_ s)) _ Hneg) as Hsh.
      assert (Hpat : forall a,
        a = (if ssl_error r =? SSL_ERROR_WANT_READ then action v else Close) ->
        false = keep_reading v /\ a = action v /\
        1%nat = S (Datatypes.length todo) /\
        Forall (fun c : RawSlice * Z => 0 < snd c) [(s, rc r)] \/
        false = false /\
        exists ok bad,
          [(s, rc r)] = ok ++ [bad] /\
          Forall (fun c : RawSlice * Z => 0 < snd c) ok /\
          snd bad <= 0 /\
          a = (if ssl_error (engine env (ssl_calls w + Datatypes.length ok))
                  =? SSL_ERROR_WANT_READ then action v else Close)).
      { intros a Ha. right. split; [reflexivity|].
        exists [], (s, rc r). simpl.
        rewrite Nat.add_0_r. fold r. auto. }
      unfold SSL_get_error in H.
      destruct (ssl_error r =? SSL_ERROR_WANT_READ) eqn:He.
      * injection H as <- <- <-.
        exists [EvRead (mem_ s) (len_ s) (to_int (len_ s)) (rc r);
                EvLog LvTrace (MsgSslReadReturns (rc r))].
        constructor; ghost_simpl; rewrite ?Hsh, ?slice_eta, ?app_nil_r; simpl;
          try reflexivity; try lia.
        -- world_eq.
        -- now apply Hpat.
      * match type of H with context [drainErrorQueue ?x] =>
          destruct (drainErrorQueue_frame x) as (q & codes & Hd) end.
        rewrite Hd in H. simpl in H. injection H as <- <- <-.
        exists ([EvRead (mem_ s) (len_ s) (to_int (len_ s)) (rc r);
                 EvLog LvTrace (MsgSslReadReturns (rc r))] ++ error_log codes).
        constructor; ghost_simpl; rewrite ?Hsh, ?slice_eta, ?app_nil_r; simpl;
          try reflexivity; try lia.
        -- world_eq.
        -- now apply Hpat.
Qed.

Lemma read_loop_unfold (env : Env) (fuel : nat) (act : PostIoAction) (w : World) :
  read_loop env (S fuel) act w =
  let '(v, rest, w2) :=
    read_slices env (firstn 2 (reserve_space env (reserve_calls w)))
                (mkReadVars [] 0 true act) (after_reserve w) in
  if keep_reading v then read_loop env fuel (action v) (after_commit v rest w2)
  else Some (action v, after_commit v rest w2).
Proof. reflexivity. Qed.

(** Committing after the [for] loop appends exactly the regions that
    received bytes. *)
Lemma after_commit_spec (v : ReadVars) (rest : list RawSlice) (w : World)
      (got : list RawSlice) :
  visited v = got ->
  slices_to_commit v = List.length got ->
  exists evs,
    after_commit v rest w =
    mkWorld (handshake_complete_ w) (state_ w) (read_buffer_ w ++ got)
            (write_buffer_ w) (err_queue w) (ssl_calls w) (reserve_calls w)
            (events w ++ evs) /\
    connected evs = [] /\ write_calls evs = [] /\ shutdown_calls evs = [] /\
    transport_closes evs = 0%nat /\ read_calls evs = [] /\ logged evs = [].
Proof.
  intros Hv Hc. unfold after_commit. rewrite Hc.
  destruct got as [|g got]; simpl.
  - exists []. rewrite !app_nil_r. repeat split; auto. apply world_eta.
  - exists [EvCommit (g :: got)]. unfold commit, Buffer.commit. rewrite Hv.
    replace (firstn (S (List.length got)) ((g :: got) ++ rest)) with (g :: got).
    + unfold emit, set_read_buffer. simpl. repeat split; auto.
    + change (S (List.length got)) with (List.length (g :: got)).
      rewrite firstn_app, firstn_all, Nat.sub_diag. simpl.
      now rewrite app_nil_r.
Qed.

Lemma reserved_S (env : Env) (c n : nat) :
  reserved env c (S n) =
  firstn 2 (reserve_space env c) ++ reserved env (S c) n.
Proof. reflexivity. Qed.

Lemma read_loop_spec (env : Env) (fuel : nat) :
  forall act0 w act w',
    read_loop env fuel act0 w = Some (act, w') ->
    exists evs, ReadLoopSpec env act0 w act w' evs.
Proof.
  induction fuel as [|fuel IH]; intros act0 w act w' H; [discriminate|].
  rewrite read_loop_unfold in H.
  pose proof (reserved_S env (reserve_calls w)) as HS.
  remember (firstn 2 (reserve_space env (reserve_calls w))) as slices eqn:Hsl.
  clear Hsl.
  match type of H with context [read_slices env ?sl ?v0 ?w1] =>
    destruct (read_slices env sl v0 w1) as [[v rest] w2] eqn:Hrs end.
  apply read_slices_spec in Hrs. destruct Hrs as [evs1 S1].
  destruct S1. simpl in *.
  destruct (after_commit_spec v rest w2 (received evs1)) as (evc & Hc & C1 & C2 & C3 & C4 & C5 & C6);
    [assumption | assumption |].
  rewrite Hc in H. rewrite rs_world0 in H. simpl in H.
  assert (Rc : received evc = []) by (unfold received; now rewrite C5).
  destruct (keep_reading v) eqn:K.
  - destruct rs_pattern0 as [(_ & A & L & F) | (K' & _)]; [|discriminate].
    apply IH in H. destruct H as [evs2 S2]. destruct S2. simpl in *.
    destruct rl_regions0 as (n & Hn & Hreg).
    destruct rl_pattern0 as (ok & bad & R & Fok & B & Hact).
    exists (evs1 ++ evc ++ evs2).
    constructor; ghost_rw;
      rewrite ?rs_connected0, ?rs_write_calls0, ?rs_shutdown_calls0,
        ?rs_transport0, ?C1, ?C2, ?C3, ?C4, ?C5, ?Rc; simpl; try assumption.
    + etransitivity; [exact rl_world0|]. rewrite !length_app. world_eq.
    + exists (S n). split; [lia|].
      rewrite HS, map_app, rs_regions0, Hreg, length_app, L, firstn_all.
      rewrite firstn_app.
      rewrite (firstn_all2 slices) by lia. f_equal. f_equal. lia.
    + rewrite !length_app, !map_app, seq_app, map_app.
      now rewrite rs_answers0, rl_answers0.
    + exists (read_calls evs1 ++ ok), bad.
      rewrite R, app_assoc. split; [reflexivity|].
      split; [apply Forall_app; auto|]. split; [exact B|].
      rewrite Hact, A, length_app, Nat.add_assoc. reflexivity.
  - destruct rs_pattern0 as [(K' & _) | (_ & ok & bad & R & Fok & B & Hact)];
      [discriminate|].
    injection H as <- <-.
    exists (evs1 ++ evc).
    constructor; ghost_rw;
      rewrite ?rs_connected0, ?rs_write_calls0, ?rs_shutdown_calls0,
        ?rs_transport0, ?C1, ?C2, ?C3, ?C4, ?C5, ?Rc, ?app_nil_r; simpl;
      try assumption; try reflexivity.
    + world_eq.
    + exists 1%nat. split; [lia|].
      rewrite HS. unfold reserved. simpl. rewrite app_nil_r. exact rs_regions0.
    + exists ok, bad. auto.
Qed.

(** ** The write loop *)

Lemma accepted_nonneg (cs : list (RawSlice * Z)) : 0 <= accepted cs.
Proof.
  induction cs as [|c cs IH]; simpl; [lia|].
  destruct (Z.ltb_spec 0 (snd c)); lia.
Qed.

Lemma buffer_length_nonneg (b : Buffer.Instance) :
  Forall (fun s => 0 < len_ s) b -> 0 <= Buffer.length b.
Proof. induction 1; simpl; lia. Qed.

Lemma buffer_length_app (a b : Buffer.Instance) :
  Buffer.length (a ++ b) = Buffer.length a + Buffer.length b.
Proof. induction a as [|s a IH]; simpl; [reflexivity | rewrite IH; lia]. Qed.

Lemma two64_pos : 0 < two64.
Proof. reflexivity. Qed.

Lemma write_slices_spec (env : Env) (todo : list RawSlice) :
  forall bw w ret bw' w',
    write_slices env todo bw w = (ret, bw', w') ->
    exists evs, WriteSlicesSpec env todo bw w ret bw' w' evs.
Proof.
  induction todo as [|s todo IH]; intros bw w ret bw' w' H.
  - simpl in H. injection H as <- <- <-. exists [].
    constructor; ghost_simpl; rewrite ?Nat.add_0_r, ?Z.add_0_r;
      try reflexivity; try tauto; try lia.
    + apply world_eta.
    + left. auto.
  - simpl in H.
    set (r := engine env (ssl_calls w)) in *.
    destruct (Z.ltb_spec 0 (rc r)) as [Hpos|Hneg].
    + apply IH in H. destruct H as [evs2 S2]. destruct S2. simpl in *.
      exists (EvWrite (mem_ s) (len_ s) (to_int (len_ s)) (rc r)
              :: EvLog LvTrace (MsgSslWriteReturns (rc r)) :: evs2).
      assert (Hlt : (0 <? rc r) = true) by (apply Z.ltb_lt; exact Hpos).
      unfold written in *.
      constructor; ghost_simpl; rewrite ?Hlt, ?slice_eta; simpl;
        try assumption.
      * etransitivity; [exact ws_world0|]. world_eq.
      * now rewrite ws_regions0.
      * now rewrite ws_answers0.
      * rewrite ws_bytes0, Zplus_mod_idemp_l. f_equal. lia.
      * intros Hr. apply ws_range0. apply Z.mod_pos_bound. exact two64_pos.
      * intros [Hfit1 Hfit2] Hlen.
        specialize (ws_fit0 Hfit2 (Forall_inv_tail Hlen)). fold r in Hfit1. lia.
      * destruct ws_pattern0 as [(K & L & F) | (ok & bad & R & F & B & A)].
        -- left. repeat split; auto.
        -- right. exists ((s, rc r) :: ok), bad.
           rewrite R. repeat split; auto.
           rewrite A. simpl.
           replace (ssl_calls w + S (Datatypes.length ok))%nat
             with (S (ssl_calls w + Datatypes.length ok))%nat by lia.
           reflexivity.
    + assert (Hlt : (0 <? rc r) = false) by (apply Z.ltb_ge; exact Hneg).
      assert (Hpat : forall a,
        a = (if ssl_error r =? SSL_ERROR_WANT_WRITE then None else Some Close) ->
        a = None /\ 1%nat = S (Datatypes.length todo) /\
        Forall (fun c : RawSlice * Z => 0 < snd c) [(s, rc r)] \/
        exists ok bad,
          [(s, rc r)] = ok ++ [bad] /\
          Forall (fun c : RawSlice * Z => 0 < snd c) ok /\
          snd bad <= 0 /\
          a = (if ssl_error (engine env (ssl_calls w + Datatypes.length ok))
                  =? SSL_ERROR_WANT_WRITE then None else Some Close)).
      { intros a Ha. right. exists [], (s, rc r). simpl.
        rewrite Nat.add_0_r. fold r. auto. }
      assert (Hfit : Forall (fun s0 => 0 < len_ s0) (s :: todo) ->
                     0 <= len_ s + Buffer.length todo).
      { intros Hl. pose proof (Forall_inv Hl) as Hs. simpl in Hs.
        pose proof (buffer_length_nonneg todo (Forall_inv_tail Hl)). lia. }
      unfold SSL_get_error in H.
      destruct (ssl_error r =? SSL_ERROR_WANT_WRITE) eqn:He.
      * injection H as <- <- <-.
        exists [EvWrite (mem_ s) (len_ s) (to_int (len_ s)) (rc r);
                EvLog LvTrace (MsgSslWriteReturns (rc r))].
        constructor; ghost_simpl;
          rewrite ?Hlt, ?slice_eta, ?app_nil_r, ?Z.add_0_r; simpl;
          try reflexivity; try lia; try tauto.
        -- world_eq.
        -- now apply Hpat.
      * match type of H with context [drainErrorQueue ?x] =>
          destruct (drainErrorQueue_frame x) as (q & codes & Hd) end.
        rewrite Hd in H. simpl in H. injection H as <- <- <-.
        exists ([EvWrite (mem_ s) (len_ s) (to_int (len_ s)) (rc r);
                 EvLog LvTrace (MsgSslWriteReturns (rc r))] ++ error_log codes).
        constructor; ghost_simpl;
          rewrite ?Hlt, ?slice_eta, ?app_nil_r, ?Z.add_0_r; simpl;
          try reflexivity; try lia; try tauto.
        -- world_eq.
        -- now apply Hpat.
Qed.

Lemma drain_length (b : Buffer.Instance) :
  Forall (fun s => 0 < len_ s) b ->
  forall n, 0 <= n <= Buffer.length b ->
            Buffer.length (Buffer.drain n b) = Buffer.length b - n.
Proof.
  induction 1 as [|s b Hs Hb IH]; intros n Hn; simpl in *.
  - lia.
  - destruct (Z.ltb_spec n (len_ s)); simpl.
    + lia.
    + rewrite IH by lia. lia.
Qed.

Lemma drain_zero (b : Buffer.Instance) :
  Forall (fun s => 0 < len_ s) b -> Buffer.drain 0 b = b.
Proof.
  destruct 1 as [|s b Hs Hb]; simpl; [reflexivity|].
  destruct (Z.ltb_spec 0 (len_ s)); [|lia].
  now rewrite Z.add_0_r, Z.sub_0_r, slice_eta.
Qed.

Lemma after_drain_spec (bw : Z) (w : World) :
  exists evs,
    (if 0 <? bw then drain bw w else w) =
    mkWorld (handshake_complete_ w) (state_ w) (read_buffer_ w)
            (if 0 <? bw then Buffer.drain bw (write_buffer_ w)
             else write_buffer_ w)
            (err_queue w) (ssl_calls w) (reserve_calls w) (events w ++ evs) /\
    connected evs = [] /\ write_calls evs = [] /\ read_calls evs = [] /\
    shutdown_calls evs = [] /\ transport_closes evs = 0%nat /\ logged evs = [].
Proof.
  destruct (0 <? bw).
  - exists [EvDrain bw]. unfold drain, emit, set_write_buffer. simpl.
    repeat split; auto.
  - exists []. rewrite app_nil_r. repeat split; auto. apply world_eta.
Qed.

Lemma write_body_spec (env : Env) (w : World) (act : PostIoAction) (w' : World) :
  write_body env w = (act, w') ->
  exists evs, WriteBodySpec env w act w' evs.
Proof.
  unfold write_body, Buffer.getRawSlices.
  destruct (Z.eqb_spec (Buffer.length (write_buffer_ w)) 0) as [E|E]; intros H.
  - injection H as <- <-. exists [].
    constructor; ghost_rw; rewrite ?Nat.add_0_r, ?app_nil_r;
      try reflexivity; try tauto.
    + apply world_eta.
    + intros _ Hl. pose proof (buffer_length_nonneg _ Hl). unfold written.
      simpl. lia.
  - destruct (write_slices env (write_buffer_ w) 0 w) as [[ret bw] w1] eqn:Hws.
    apply write_slices_spec in Hws. destruct Hws as [evs1 S1]. destruct S1.
    assert (Hbw : bw = written evs1 mod two64).
    { rewrite <- (Z.mod_small bw two64); [exact ws_bytes0|].
      apply ws_range0. pose proof two64_pos. lia. }
    destruct (after_drain_spec bw w1)
      as (evd & Hd & D1 & D2 & D3 & D4 & D5 & D6).
    assert (Wd : written evd = 0) by (unfold written; now rewrite D2).
    assert (Keep :
      (KeepOpen, if 0 <? bw then drain bw w1 else w1) = (act, w') ->
      (List.length (write_calls evs1) = List.length (write_buffer_ w) /\
       Forall (fun c => 0 < snd c) (write_calls evs1) \/
       exists ok bad,
         write_calls evs1 = ok ++ [bad] /\
         Forall (fun c => 0 < snd c) ok /\ snd bad <= 0 /\
         KeepOpen =
           if ssl_error (engine env (ssl_calls w + List.length ok))
              =? SSL_ERROR_WANT_WRITE
           then KeepOpen else Close) ->
      exists evs, WriteBodySpec env w act w' evs).
    { intros Hk Hp. injection Hk as <- <-. rewrite Hd, ws_world0. simpl.
      exists (evs1 ++ evd).
      constructor; ghost_rw;
        rewrite ?ws_connected0, ?ws_read_calls0, ?ws_shutdown_calls0,
          ?ws_transport0, ?D1, ?D2, ?D3, ?D4, ?D5, ?Wd, ?app_nil_r,
          ?Z.add_0_r, <- ?Hbw;
        simpl; try assumption; try reflexivity.
      - world_eq.
      - right. destruct Hp as [(L & F) | Hp]; [left | right]; auto. }
    destruct ws_pattern0 as [(K & L & F) | (ok & bad & R & F & B & A)].
    + subst ret. apply Keep; auto.
    + destruct (ssl_error (engine env (ssl_calls w + Datatypes.length ok))
                =? SSL_ERROR_WANT_WRITE) eqn:He; subst ret.
      * apply Keep; auto. right. exists ok, bad. rewrite He. auto.
      * injection H as <- <-. exists evs1.
        constructor; try assumption; try reflexivity.
        -- rewrite ws_world0. reflexivity.
        -- rewrite ws_world0. reflexivity.
        -- right. right. split; [exact E|]. exists ok, bad. rewrite He. auto.
Qed.

(** ** The handshake flag and the Connected event over the connection's life *)

Lemma consistent_quiet (w w' : World) (evs : list Event) :
  consistent w ->
  handshake_complete_ w' = handshake_complete_ w ->
  events w' = events w ++ evs ->
  connected evs = [] ->
  consistent w'.
Proof.
  unfold consistent. intros C F E Q.
  now rewrite F, E, connected_app, Q, app_nil_r.
Qed.

Lemma raiseEvents_spec (env : Env) (e : ConnectionEvent) (w : World) :
  exists evs,
    events (raiseEvents env e w) =
      events w ++ [EvRaise e (handshake_complete_ w)] ++ evs /\
    connected evs = [] /\
    handshake_complete_ (raiseEvents env e w) = handshake_complete_ w /\
    state_ (raiseEvents env e w) =
      match upstream env (ssl_calls w) with
      | Ignore => state_ w
      | CloseConnection => Closed
      end.
Proof.
  unfold raiseEvents. simpl.
  destruct (upstream env (ssl_calls w)).
  - exists []. simpl. auto.
  - match goal with |- context [closeSocket env ?x] =>
      destruct (closeSocket_frame env x) as (evs & E & Q & _ & _ & F & S & _) end.
    exists (evs ++ [EvTransportClose]). rewrite E, F, S. simpl.
    rewrite connected_app, Q. simpl. rewrite <- app_assoc. auto.
Qed.

Lemma doHandshake_consistent (env : Env) (w : World) (act : PostIoAction)
      (w' : World) :
  handshake_complete_ w = false ->
  consistent w ->
  doHandshake env w = (act, w') ->
  consistent w'.
Proof.
  intros Hf C H. unfold consistent in *. rewrite Hf in C.
  destruct (doHandshake_outcomes env w)
    as [(Hrc & Hv) | [(Hrc & Hv) | [(Hrc & He) | (Hrc & Hr & Hw)]]].
  - rewrite (doHandshake_verified env w Hrc Hv) in H. simpl in H.
    injection H as _ <-.
    match goal with |- context [raiseEvents env Connected ?x] =>
      destruct (raiseEvents_spec env Connected x) as (evs & E & Q & F & _) end.
    rewrite E, F. ghost_rw. rewrite C, Q. reflexivity.
  - rewrite (doHandshake_rejected env w Hrc Hv) in H. injection H as _ <-.
    simpl. rewrite Hf, connected_app, C. reflexivity.
  - unfold doHandshake, SSL_do_handshake, engine_call in H.
    destruct (Z.eqb_spec (rc (engine env (ssl_calls w))) 1); [contradiction|].
    unfold SSL_get_error in H.
    replace ((ssl_error (engine env (ssl_calls w)) =? SSL_ERROR_WANT_READ)
             || (ssl_error (engine env (ssl_calls w)) =? SSL_ERROR_WANT_WRITE))
      with true in H
      by (symmetry; apply orb_true_iff; destruct He as [-> | ->]; auto).
    injection H as _ <-. simpl.
    rewrite Hf, !connected_app, C. reflexivity.
  - rewrite (doHandshake_fatal env w Hrc Hr Hw) in H. injection H as _ <-.
    match goal with |- context [drainErrorQueue ?x] =>
      destruct (drainErrorQueue_frame x) as (q & codes & ->) end.
    simpl. rewrite Hf. autorewrite with ghost. rewrite C. reflexivity.
Qed.

Lemma doReadFromSocket_consistent (env : Env) (fuel : nat) (w : World)
      (act : PostIoAction) (w' : World) :
  consistent w ->
  doReadFromSocket env fuel w = Some (act, w') ->
  consistent w' /\ (handshake_complete_ w = true -> handshake_complete_ w' = true).
Proof.
  intros C H. unfold doReadFromSocket in H.
  assert (Loop : forall w1, consistent w1 ->
            read_loop env fuel KeepOpen w1 = Some (act, w') ->
            consistent w' /\ handshake_complete_ w' = handshake_complete_ w1).
  { intros w1 C1 H1. apply read_loop_spec in H1. destruct H1 as [evs S].
    destruct S. split.
    - apply (consistent_quiet w1 w' evs); auto; rewrite rl_world0; reflexivity.
    - rewrite rl_world0. reflexivity. }
  destruct (handshake_complete_ w) eqn:Hf; simpl in H.
  - destruct (Loop w C H) as [C' F]. split; [exact C'|]. now rewrite F.
  - destruct (doHandshake env w) as [a w1] eqn:Hd.
    pose proof (doHandshake_consistent env w a w1 Hf C Hd) as C1.
    split; [|discriminate].
    destruct (is_close a || negb (handshake_complete_ w1)).
    + now injection H as _ <-.
    + apply (Loop w1 C1 H).
Qed.

Lemma doWriteToSocket_consistent (env : Env) (w : World)
      (act : PostIoAction) (w' : World) :
  consistent w ->
  doWriteToSocket env w = (act, w') ->
  consistent w' /\ (handshake_complete_ w = true -> handshake_complete_ w' = true).
Proof.
  intros C H. unfold doWriteToSocket in H.
  assert (Body : forall w1, consistent w1 ->
            write_body env w1 = (act, w') ->
            consistent w' /\ handshake_complete_ w' = handshake_complete_ w1).
  { intros w1 C1 H1. apply write_body_spec in H1. destruct H1 as [evs S].
    destruct S. split.
    - apply (consistent_quiet w1 w' evs); auto; rewrite wb_world0; reflexivity.
    - rewrite wb_world0. reflexivity. }
  destruct (handshake_complete_ w) eqn:Hf; simpl in H.
  - destruct (Body w C H) as [C' F]. split; [exact C'|]. now rewrite F.
  - destruct (doHandshake env w) as [a w1] eqn:Hd.
    pose proof (doHandshake_consistent env w a w1 Hf C Hd) as C1.
    split; [|discriminate].
    destruct (is_close a || negb (handshake_complete_ w1)).
    + now injection H as _ <-.
    + apply (Body w1 C1 H).
Qed.

Lemma call_consistent (env : Env) (c : Call) (w w' : World) :
  consistent w ->
  call env c w = Some w' ->
  consistent w' /\ (handshake_complete_ w = true -> handshake_complete_ w' = true).
Proof.
  intros C H. destruct c as [fuel| |]; simpl in H.
  - destruct (doReadFromSocket env fuel w) as [[a w1]|] eqn:Hr; [|discriminate].
    injection H as <-. apply (doReadFromSocket_consistent env fuel w a w1 C Hr).
  - injection H as <-. destruct (doWriteToSocket env w) as [a w1] eqn:Hw.
    apply (doWriteToSocket_consistent env w a w1 C Hw).
  - injection H as <-.
    destruct (closeSocket_frame env w) as (evs & E & Q & _ & _ & F & _).
    split.
    + apply (consistent_quiet w _ (evs ++ [EvTransportClose])); auto.
      rewrite connected_app, Q. reflexivity.
    + now rewrite F.
Qed.

Lemma lifetime_consistent (env : Env) (cs : list Call) :
  forall w w',
    consistent w ->
    lifetime env cs w = Some w' ->
    consistent w' /\ (handshake_complete_ w = true -> handshake_complete_ w' = true).
Proof.
  induction cs as [|c cs IH]; intros w w' C H; simpl in H.
  - injection H as <-. auto.
  - destruct (call env c w) as [w1|] eqn:Hc; [|discriminate].
    destruct (call_consistent env c w w1 C Hc) as [C1 F1].
    destruct (IH w1 w' C1 H) as [C' F']. auto.
Qed.

(** A connection as the constructor leaves it is consistent. *)
Lemma initial_consistent (rd wr : Buffer.Instance) (q : list Z) :
  consistent (initial rd wr q).
Proof. reflexivity. Qed.

(** Every state a connection can get into through its entry points is
    consistent. *)
Lemma reachable_consistent (env : Env) (cs : list Call)
      (rd wr : Buffer.Instance) (q : list Z) (w : World) :
  lifetime env cs (initial rd wr q) = Some w -> consistent w.
Proof.
  intros H.
  exact (proj1 (lifetime_consistent env cs _ _ (initial_consistent rd wr q) H)).
Qed.

(** C1: when the engine's handshake step succeeds and the peer passes
    verification, [doHandshake] sets [handshake_complete_] and then raises
    [Connected], which the consumers see with the flag already true; it
    raises nothing else.  It returns [KeepOpen] exactly when the connection
    is still [Open] after the consumers reacted, and [Close] when a consumer
    closed it.  Whatever the entry points do afterwards, the flag stays
    true and that [Connected] event stays the only one of the connection. *)
Theorem doHandshake_connected_once (env : Env) (w : World) :
  handshake_complete_ w = false ->
  consistent w ->
  rc (engine env (ssl_calls w)) = 1 ->
  verifyPeer env (S (ssl_calls w)) = true ->
  exists act w' tail,
    doHandshake env w = (act, w') /\
    handshake_complete_ w' = true /\
    events w' = events w ++ [EvHandshakeStep 1;
                             EvLog LvDebug MsgHandshakeComplete;
                             EvRaise Connected true] ++ tail /\
    connected tail = [] /\
    connected (events w') = [true] /\
    (act = KeepOpen <-> state_ w' = Open) /\
    (act = Close <-> state_ w' <> Open) /\
    (upstream env (S (ssl_calls w)) = CloseConnection -> act = Close) /\
    (forall cs final,
        lifetime env cs w' = Some final ->
        handshake_complete_ final = true /\ connected (events final) = [true]).
Proof.
  intros Hf C Hrc Hv.
  destruct (doHandshake env w) as [act w'] eqn:Hd.
  pose proof (doHandshake_consistent env w act w' Hf C Hd) as C'.
  rewrite (doHandshake_verified env w Hrc Hv) in Hd. simpl in Hd.
  injection Hd as Ha Hw.
  match type of Hw with raiseEvents env Connected ?x = _ =>
    destruct (raiseEvents_spec env Connected x) as (tail & E & Q & F & S) end.
  rewrite Hw in *. simpl in *.
  assert (Hflag : handshake_complete_ w' = true) by exact F.
  exists act, w', tail.
  split; [reflexivity|]. split; [exact Hflag|].
  split; [rewrite E, <- app_assoc; reflexivity|].
  split; [exact Q|].
  split; [unfold consistent in C'; now rewrite Hflag in C'|].
  split; [subst act; destruct (state_ w'); split; congruence|].
  split; [subst act; destruct (state_ w'); split; congruence|].
  split.
  - intros Hu. rewrite Hu in S. subst act. now rewrite S.
  - intros cs final Hl.
    destruct (lifetime_consistent env cs w' final C' Hl) as [Cf Ff].
    specialize (Ff Hflag). split; [exact Ff|].
    unfold consistent in Cf. now rewrite Ff in Cf.
Qed.

(** ** A handshake that only blocks *)

(** While the handshake is incomplete, each of the three functions is one
    handshake step when that step blocks. *)
Lemma perform_blocked (env : Env) (c : IoCall) (w : World) :
  handshake_complete_ w = false ->
  blocking (engine env (ssl_calls w)) ->
  perform env c w =
  Some (KeepOpen,
        mkWorld false (state_ w) (read_buffer_ w) (write_buffer_ w)
                (err_queue w ++ queued (engine env (ssl_calls w)))
                (S (ssl_calls w)) (reserve_calls w)
                (events w
                 ++ [EvHandshakeStep (rc (engine env (ssl_calls w)));
                     EvLog LvDebug
                       (MsgHandshakeError
                          (ssl_error (engine env (ssl_calls w))))])).
Proof.
  intros Hf Hb. pose proof (doHandshake_blocked env w Hb) as Hd.
  rewrite Hf in Hd.
  destruct c as [|fuel|]; simpl.
  - now rewrite Hd.
  - unfold doReadFromSocket. rewrite Hf. simpl. now rewrite Hd.
  - unfold doWriteToSocket. rewrite Hf. simpl. now rewrite Hd.
Qed.

Lemma drive_blocked (env : Env) (cs : list IoCall) :
  forall w,
    handshake_complete_ w = false ->
    (forall k, (ssl_calls w <= k < ssl_calls w + List.length cs)%nat ->
               blocking (engine env k)) ->
    exists w' evs,
      drive env cs w = Some (repeat KeepOpen (List.length cs), w') /\
      events w' = events w ++ evs /\
      connected evs = [] /\
      transport_closes evs = 0%nat /\
      logged evs = [] /\
      handshake_complete_ w' = false /\
      state_ w' = state_ w /\
      phase w' = phase w /\
      ssl_calls w' = (ssl_calls w + List.length cs)%nat /\
      read_buffer_ w' = read_buffer_ w /\
      write_buffer_ w' = write_buffer_ w.
Proof.
  induction cs as [|c cs IH]; intros w Hf Hb; simpl.
  - exists w, []. rewrite app_nil_r, Nat.add_0_r. repeat split; auto.
  - assert (Hb0 : blocking (engine env (ssl_calls w))).
    { apply Hb. simpl. lia. }
    rewrite (perform_blocked env c w Hf Hb0).
    match goal with |- context [drive env cs ?x] => set (w1 := x) end.
    destruct (IH w1) as (w' & evs & Hdr & E & Q & T & L & F & S & P & N & R & W).
    { reflexivity. }
    { intros k Hk. apply Hb. simpl in *. lia. }
    rewrite Hdr. exists w'. eexists.
    split; [reflexivity|].
    split; [rewrite E; simpl; rewrite <- app_assoc; reflexivity|].
    ghost_rw. rewrite Q, T, L. simpl in *.
    repeat split; auto; try lia.
    rewrite P. unfold phase. simpl. now rewrite Hf.
Qed.

(** C3: as long as every handshake step of the engine answers WantRead or
    WantWrite, any sequence of calls to [doHandshake], [doReadFromSocket]
    and [doWriteToSocket] returns [KeepOpen] each time, makes one engine
    call each, leaves [handshake_complete_] false and the transport state
    and both buffers untouched, raises no [Connected] event, closes
    nothing and drains nothing: an open connection stays in the spec's
    Handshaking state, however long the sequence. *)
Theorem handshake_blocking_stays (env : Env) (cs : list IoCall) (w : World) :
  handshake_complete_ w = false ->
  (forall k, (ssl_calls w <= k < ssl_calls w + List.length cs)%nat ->
             blocking (engine env k)) ->
  exists w' evs,
    drive env cs w = Some (repeat KeepOpen (List.length cs), w') /\
    events w' = events w ++ evs /\
    connected evs = [] /\
    transport_closes evs = 0%nat /\
    logged evs = [] /\
    handshake_complete_ w' = false /\
    state_ w' = state_ w /\
    (state_ w = Open -> phase w' = Handshaking) /\
    ssl_calls w' = (ssl_calls w + List.length cs)%nat /\
    read_buffer_ w' = read_buffer_ w /\
    write_buffer_ w' = write_buffer_ w.
Proof.
  intros Hf Hb.
  destruct (drive_blocked env cs w Hf Hb)
    as (w' & evs & Hdr & E & Q & T & L & F & S & P & N & R & W).
  exists w', evs. repeat split; auto.
  intros Ho. unfold phase. now rewrite S, Ho, F.
Qed.

(** ** Accounting for the error queue *)

Lemma pushed_app (env : Env) (n m : nat) :
  forall c, pushed env c (n + m) = pushed env c n ++ pushed env (c + n) m.
Proof.
  induction n as [|n IH]; intros c; simpl.
  - now rewrite Nat.add_0_r.
  - rewrite IH, <- app_assoc. do 3 f_equal. lia.
Qed.

Lemma settles_refl (env : Env) (w : World) : queue_ok w -> settles env w w.
Proof.
  intros Hq. split; [exact Hq|]. exists 0%nat, []. simpl.
  now rewrite Nat.add_0_r, !app_nil_r.
Qed.

Lemma settles_trans (env : Env) (w1 w2 w3 : World) :
  settles env w1 w2 -> settles env w2 w3 -> settles env w1 w3.
Proof.
  intros (_ & n & e1 & N1 & E1 & L1) (Q & m & e2 & N2 & E2 & L2).
  split; [exact Q|].
  exists (n + m)%nat, (e1 ++ e2). split; [lia|].
  split; [rewrite E2, E1, app_assoc; reflexivity|].
  rewrite logged_app, <- app_assoc, L2, app_assoc, L1, pushed_app, N1.
  now rewrite <- app_assoc.
Qed.

(** A step that changes neither the queue nor the number of engine calls
    and logs no error record. *)
Lemma settles_quiet (env : Env) (w w' : World) (evs : list Event) :
  queue_ok w ->
  err_queue w' = err_queue w ->
  ssl_calls w' = ssl_calls w ->
  events w' = events w ++ evs ->
  logged evs = [] ->
  settles env w w'.
Proof.
  intros Hq Q N E L. split; [unfold queue_ok; now rewrite Q|].
  exists 0%nat, evs. simpl.
  now rewrite N, E, Q, L, Nat.add_0_r, !app_nil_r.
Qed.

Lemma settles_engine_call (env : Env) (ev : Z -> Event) (w : World) :
  engine_ok env ->
  queue_ok w ->
  logged [ev (rc (engine env (ssl_calls w)))] = [] ->
  settles env w (snd (engine_call env ev w)).
Proof.
  intros He Hq Hl. unfold engine_call. simpl. split.
  - unfold queue_ok. simpl. apply Forall_app. split; [exact Hq | apply He].
  - exists 1%nat, [ev (rc (engine env (ssl_calls w)))]. simpl.
    split; [lia|]. split; [reflexivity|].
    simpl in Hl. rewrite Hl, app_nil_r. reflexivity.
Qed.

Lemma settles_drainErrorQueue (env : Env) (w : World) :
  queue_ok w ->
  settles env w (drainErrorQueue w) /\ err_queue (drainErrorQueue w) = [].
Proof.
  intros Hq. rewrite (drainErrorQueue_exhaustive w Hq). simpl.
  split; [|reflexivity]. split; [constructor|].
  exists 0%nat, (error_log (err_queue w)). simpl.
  now rewrite Nat.add_0_r, logged_error_log, !app_nil_r.
Qed.

Lemma settles_queue_ok (env : Env) (w w' : World) :
  settles env w w' -> queue_ok w'.
Proof. now intros [Q _]. Qed.

(** One engine call followed by its trace line. *)
Lemma settles_call_logged (env : Env) (ev : Z -> Event) (m : Z -> LogMsg)
      (lvl : LogLevel) (w : World) :
  engine_ok env ->
  queue_ok w ->
  logged [ev (rc (engine env (ssl_calls w)))] = [] ->
  logged [EvLog lvl (m (rc (engine env (ssl_calls w))))] = [] ->
  settles env w
    (log lvl (m (rc (engine env (ssl_calls w)))) (snd (engine_call env ev w))).
Proof.
  intros He Hq L1 L2.
  eapply settles_trans; [apply settles_engine_call; eassumption|].
  pose proof (settles_queue_ok _ _ _ (settles_engine_call env ev w He Hq L1)).
  eapply settles_quiet; try eassumption; reflexivity.
Qed.

Lemma read_slices_settles (env : Env) (todo : list RawSlice) :
  engine_ok env ->
  forall v w v' rest w',
    queue_ok w ->
    read_slices env todo v w = (v', rest, w') ->
    settles env w w' /\
    (action v = KeepOpen -> action v' = Close -> err_queue w' = []).
Proof.
  intros He. induction todo as [|s todo IH]; intros v w v' rest w' Hq H.
  - simpl in H. injection H as <- <- <-. split; [now apply settles_refl|].
    congruence.
  - simpl in H.
    pose proof (settles_call_logged env (EvRead (mem_ s) (len_ s) (to_int (len_ s)))
                  MsgSslReadReturns LvTrace w He Hq eq_refl eq_refl) as S1.
    pose proof (settles_queue_ok _ _ _ S1) as Q1.
    unfold engine_call in S1, Q1. simpl in S1, Q1.
    destruct (0 <? rc (engine env (ssl_calls w))).
    + destruct (IH _ _ _ _ _ Q1 H) as [S2 C2]. split.
      * eapply settles_trans; eassumption.
      * exact C2.
    + unfold SSL_get_error in H.
      destruct (ssl_error (engine env (ssl_calls w)) =? SSL_ERROR_WANT_READ).
      * injection H as <- <- <-. split; [exact S1|]. simpl. congruence.
      * injection H as <- <- <-.
        destruct (settles_drainErrorQueue env _ Q1) as [S2 E2]. split.
        -- eapply settles_trans; eassumption.
        -- intros _ _. exact E2.
Qed.

Lemma read_loop_settles (env : Env) (fuel : nat) :
  engine_ok env ->
  forall w act w',
    queue_ok w ->
    read_loop env fuel KeepOpen w = Some (act, w') ->
    settles env w w' /\ (act = Close -> err_queue w' = []).
Proof.
  intros He. induction fuel as [|fuel IH]; intros w act w' Hq H; [discriminate|].
  rewrite read_loop_unfold in H.
  match type of H with context [read_slices env ?sl ?v0 ?w1] =>
    destruct (read_slices env sl v0 w1) as [[v rest] w2] eqn:Hrs end.
  assert (S0 : settles env w (after_reserve w)).
  { apply (settles_quiet env w _ []); auto. simpl. now rewrite app_nil_r. }
  destruct (read_slices_settles env _ He _ _ _ _ _ (settles_queue_ok _ _ _ S0) Hrs)
    as [S1 C1].
  pose proof (settles_queue_ok _ _ _ S1) as Q1.
  apply read_slices_spec in Hrs. destruct Hrs as [evs1 R1]. destruct R1.
  destruct (after_commit_spec v rest w2 (received evs1))
    as (evc & Hc & _ & _ & _ & _ & _ & L); [assumption | assumption |].
  assert (S2 : settles env w2 (after_commit v rest w2)).
  { apply (settles_quiet env w2 _ evc); auto; rewrite Hc; reflexivity. }
  assert (S : settles env w (after_commit v rest w2)).
  { eapply settles_trans; [exact S0|]. eapply settles_trans; eassumption. }
  destruct (keep_reading v) eqn:K.
  - destruct rs_pattern0 as [(_ & A & _) | (K' & _)]; [|discriminate].
    simpl in A. rewrite A in H.
    destruct (IH _ _ _ (settles_queue_ok _ _ _ S) H) as [S3 C3].
    split; [eapply settles_trans; eassumption | exact C3].
  - injection H as <- <-. split; [exact S|].
    intros Hcl. rewrite Hc. simpl. now apply C1.
Qed.

Lemma write_slices_settles (env : Env) (todo : list RawSlice) :
  engine_ok env ->
  forall bw w ret bw' w',
    queue_ok w ->
    write_slices env todo bw w = (ret, bw', w') ->
    settles env w w' /\ (ret = Some Close -> err_queue w' = []).
Proof.
  intros He. induction todo as [|s todo IH]; intros bw w ret bw' w' Hq H.
  - simpl in H. injection H as <- <- <-. split; [now apply settles_refl|].
    discriminate.
  - simpl in H.
    pose proof (settles_call_logged env (EvWrite (mem_ s) (len_ s) (to_int (len_ s)))
                  MsgSslWriteReturns LvTrace w He Hq eq_refl eq_refl) as S1.
    pose proof (settles_queue_ok _ _ _ S1) as Q1.
    unfold engine_call in S1, Q1. simpl in S1, Q1.
    destruct (0 <? rc (engine env (ssl_calls w))).
    + destruct (IH _ _ _ _ _ Q1 H) as [S2 C2]. split.
      * eapply settles_trans; eassumption.
      * exact C2.
    + unfold SSL_get_error in H.
      destruct (ssl_error (engine env (ssl_calls w)) =? SSL_ERROR_WANT_WRITE).
      * injection H as <- <- <-. split; [exact S1|]. discriminate.
      * injection H as <- <- <-.
        destruct (settles_drainErrorQueue env _ Q1) as [S2 E2]. split.
        -- eapply settles_trans; eassumption.
        -- intros _. exact E2.
Qed.

Lemma write_body_settles (env : Env) (w : World) (act : PostIoAction)
      (w' : World) :
  engine_ok env ->
  queue_ok w ->
  write_body env w = (act, w') ->
  settles env w w' /\ (act = Close -> err_queue w' = []).
Proof.
  intros He Hq. unfold write_body, Buffer.getRawSlices.
  destruct (Buffer.length (write_buffer_ w) =? 0); intros H.
  - injection H as <- <-. split; [now apply settles_refl | discriminate].
  - destruct (write_slices env (write_buffer_ w) 0 w) as [[ret bw] w1] eqn:Hws.
    destruct (write_slices_settles env _ He _ _ _ _ _ Hq Hws) as [S1 C1].
    destruct ret as [a|].
    + injection H as <- <-. split; [exact S1|].
      intros ->. now apply C1.
    + injection H as <- <-. split; [|discriminate].
      eapply settles_trans; [exact S1|].
      destruct (after_drain_spec bw w1) as (evd & Hd & _ & _ & _ & _ & _ & L).
      apply (settles_quiet env w1 _ evd); auto;
        try (rewrite Hd; reflexivity).
      exact (settles_queue_ok _ _ _ S1).
Qed.








(** ** Reading after the handshake *)

Lemma split_answers (f : nat -> Z) (c : nat) (ok : list (RawSlice * Z))
      (bad : RawSlice * Z) :
  map snd (ok ++ [bad]) = map f (seq c (List.length (ok ++ [bad]))) ->
  map snd ok = map f (seq c (List.length ok)) /\
  snd bad = f (c + List.length ok)%nat.
Proof.
  rewrite length_app. simpl. rewrite seq_app, !map_app. simpl.
  intros H. apply app_inj_tail in H. exact H.
Qed.

Lemma positive_prefix (f : nat -> Z) (ok : list (RawSlice * Z)) :
  forall c,
    map snd ok = map f (seq c (List.length ok)) ->
    Forall (fun x => 0 < snd x) ok ->
    forall i, (i < List.length ok)%nat -> 0 < f (c + i)%nat.
Proof.
  induction ok as [|x ok IH]; intros c Hm Hp i Hi; simpl in *; [lia|].
  injection Hm as Hx Hm. inversion Hp as [|? ? Px Pok]; subst.
  destruct i as [|i].
  - rewrite Nat.add_0_r, <- Hx. exact Px.
  - replace (c + S i)%nat with (S c + i)%nat by lia.
    apply IH; auto. lia.
Qed.

Lemma accepted_delivered (env : Env) (ok : list (RawSlice * Z)) :
  forall c,
    map snd ok = map (fun k => rc (engine env k)) (seq c (List.length ok)) ->
    Forall (fun x => 0 < snd x) ok ->
    accepted ok = delivered env c (List.length ok).
Proof.
  induction ok as [|x ok IH]; intros c Hm Hp; simpl in *; [reflexivity|].
  injection Hm as Hx Hm. inversion Hp as [|? ? Px Pok]; subst.
  rewrite (IH (S c) Hm Pok), <- Hx.
  destruct (Z.ltb_spec 0 (snd x)); [reflexivity | lia].
Qed.

Lemma buffer_length_shrunk (cs : list (RawSlice * Z)) :
  Buffer.length (flat_map shrunk cs) = accepted cs.
Proof.
  induction cs as [|c cs IH]; simpl; [reflexivity|].
  rewrite buffer_length_app, IH. unfold shrunk.
  destruct (0 <? snd c); simpl; lia.
Qed.

Lemma accepted_failed (ok : list (RawSlice * Z)) (bad : RawSlice * Z) :
  snd bad <= 0 -> accepted (ok ++ [bad]) = accepted ok.
Proof.
  intros H. rewrite accepted_app. simpl.
  destruct (Z.ltb_spec 0 (snd bad)); lia.
Qed.

Lemma shrunk_positive (cs : list (RawSlice * Z)) :
  Forall (fun s => 0 < len_ s) (flat_map shrunk cs).
Proof.
  induction cs as [|c cs IH]; simpl; [constructor|].
  apply Forall_app. split; [|exact IH].
  unfold shrunk. destruct (Z.ltb_spec 0 (snd c)); repeat constructor.
  simpl. assumption.
Qed.

(** The first call that fails is where the reads of a call stop. *)
Lemma first_failure (f : nat -> Z) (c n : nat) (ok : list (RawSlice * Z))
      (bad : RawSlice * Z) :
  (forall i, (i < n)%nat -> 0 < f (c + i)%nat) ->
  f (c + n)%nat <= 0 ->
  map snd (ok ++ [bad]) = map f (seq c (List.length (ok ++ [bad]))) ->
  Forall (fun x => 0 < snd x) ok ->
  snd bad <= 0 ->
  List.length ok = n.
Proof.
  intros Hpos Hneg Hm Hok Hbad.
  destruct (split_answers f c ok bad Hm) as [Hm1 Hm2].
  pose proof (positive_prefix f ok c Hm1 Hok) as Hp.
  destruct (Nat.lt_trichotomy (List.length ok) n) as [L | [E | G]].
  - specialize (Hpos _ L). lia.
  - exact E.
  - specialize (Hp _ G). lia.
Qed.

(** With a reservation that is never empty, the loop ends at the engine's
    first failing answer; [n + 1] rounds are enough when that is the
    answer number [n]. *)
Lemma read_loop_terminates (env : Env) :
  (forall k, reserve_space env k <> []) ->
  forall fuel n act0 w,
    (forall i, (i < n)%nat -> 0 < rc (engine env (ssl_calls w + i))) ->
    rc (engine env (ssl_calls w + n)) <= 0 ->
    (n < fuel)%nat ->
    exists act w', read_loop env fuel act0 w = Some (act, w').
Proof.
  intros Hres. induction fuel as [|fuel IH]; intros n act0 w Hpos Hneg Hn; [lia|].
  rewrite read_loop_unfold.
  assert (Hlen : (1 <= List.length (firstn 2 (reserve_space env (reserve_calls w))))%nat).
  { specialize (Hres (reserve_calls w)).
    destruct (reserve_space env (reserve_calls w)) as [|a [|b l]]; simpl;
      [contradiction | lia | lia]. }
  remember (firstn 2 (reserve_space env (reserve_calls w))) as slices eqn:Hsl.
  clear Hsl.
  match goal with |- context [read_slices env slices ?v0 ?w1] =>
    destruct (read_slices env slices v0 w1) as [[v rest] w2] eqn:Hrs end.
  apply read_slices_spec in Hrs. destruct Hrs as [evs1 S1]. destruct S1.
  simpl in *.
  destruct (keep_reading v) eqn:K; [|eauto].
  destruct rs_pattern0 as [(_ & A & L & F) | (K' & _)]; [|discriminate].
  destruct (after_commit_spec v rest w2 (received evs1))
    as (evc & Hc & _); [assumption | assumption |].
  pose proof (positive_prefix (fun k => rc (engine env k)) (read_calls evs1)
                (ssl_calls w) rs_answers0 F) as Hp.
  assert (Hge : (List.length slices <= n)%nat).
  { destruct (Nat.le_gt_cases (List.length slices) n) as [G|G]; [exact G|].
    rewrite <- L in G. specialize (Hp _ G). lia. }
  apply (IH (n - List.length slices)%nat).
  - intros i Hi. rewrite Hc, rs_world0. simpl. rewrite L.
    replace (ssl_calls w + List.length slices + i)%nat
      with (ssl_calls w + (List.length slices + i))%nat by lia.
    apply Hpos. lia.
  - rewrite Hc, rs_world0. simpl. rewrite L.
    replace (ssl_calls w + List.length slices + (n - List.length slices))%nat
      with (ssl_calls w + n)%nat by lia.
    exact Hneg.
  - lia.
Qed.

Lemma doReadFromSocket_after_handshake (env : Env) (fuel : nat) (w : World) :
  handshake_complete_ w = true ->
  doReadFromSocket env fuel w = read_loop env fuel KeepOpen w.
Proof. intros Hf. unfold doReadFromSocket. now rewrite Hf. Qed.

(** C4: after the handshake, when the engine delivers bytes [n] times and
    then fails, [doReadFromSocket] returns (any fuel above [n] is enough)
    and has appended to the read buffer exactly the regions of the calls
    that delivered bytes, each with the length delivered, so that the
    buffer grew by the bytes delivered; this holds when the failing answer
    is WantRead, where the result is [KeepOpen], and just the same when it
    is anything else (WantWrite included), where the result is [Close] and
    the error queue has been drained. *)
Theorem doReadFromSocket_commits_received (env : Env) (w : World)
        (n fuel : nat) :
  handshake_complete_ w = true ->
  engine_ok env ->
  queue_ok w ->
  (forall k, reserve_space env k <> []) ->
  (forall i, (i < n)%nat -> 0 < rc (engine env (ssl_calls w + i))) ->
  rc (engine env (ssl_calls w + n)) <= 0 ->
  (n < fuel)%nat ->
  exists w' evs,
    doReadFromSocket env fuel w =
      Some (if ssl_error (engine env (ssl_calls w + n)) =? SSL_ERROR_WANT_READ
            then KeepOpen else Close, w') /\
    events w' = events w ++ evs /\
    map snd (read_calls evs) =
      map (fun k => rc (engine env k)) (seq (ssl_calls w) (S n)) /\
    read_buffer_ w' = read_buffer_ w ++ received evs /\
    Forall (fun s => 0 < len_ s) (received evs) /\
    Buffer.length (read_buffer_ w') =
      Buffer.length (read_buffer_ w) + delivered env (ssl_calls w) n /\
    (ssl_error (engine env (ssl_calls w + n)) <> SSL_ERROR_WANT_READ ->
     err_queue w' = [] /\
     logged evs = err_queue w ++ pushed env (ssl_calls w) (S n)).
Proof.
  intros Hf He Hq Hres Hpos Hneg Hfuel.
  rewrite (doReadFromSocket_after_handshake env fuel w Hf).
  destruct (read_loop_terminates env Hres fuel n KeepOpen w Hpos Hneg Hfuel)
    as (act & w' & H).
  destruct (read_loop_settles env fuel He w act w' Hq H)
    as [(_ & m & evs' & N & E & L) C].
  destruct (read_loop_spec env fuel KeepOpen w act w' H) as [evs S].
  destruct S. destruct rl_pattern0 as (ok & bad & R & Fok & B & A).
  assert (Ee : events w' = events w ++ evs) by (rewrite rl_world0; reflexivity).
  assert (Hevs : evs' = evs).
  { rewrite E in Ee. now apply app_inv_head in Ee. }
  subst evs'.
  assert (Hm : m = List.length (read_calls evs)).
  { rewrite rl_world0 in N. simpl in N. lia. }
  rewrite R in rl_answers0.
  pose proof (first_failure (fun k => rc (engine env k)) (ssl_calls w) n ok bad
                Hpos Hneg rl_answers0 Fok B) as Hn.
  destruct (split_answers _ _ ok bad rl_answers0) as [Hm1 Hm2].
  assert (Hlen : List.length (read_calls evs) = S n).
  { rewrite R, length_app. simpl. lia. }
  rewrite Hn in A. rewrite Hlen in Hm. subst m act.
  exists w', evs.
  split; [exact H|]. split; [exact Ee|].
  split; [rewrite R, <- Hlen, R; exact rl_answers0|].
  split; [rewrite rl_world0; reflexivity|].
  split; [apply shrunk_positive|].
  split.
  - rewrite rl_world0. simpl. rewrite buffer_length_app. f_equal.
    unfold received. rewrite buffer_length_shrunk, R, (accepted_failed ok bad B).
    rewrite <- Hn. apply accepted_delivered; assumption.
  - intros Hne.
    destruct (Z.eqb_spec (ssl_error (engine env (ssl_calls w + n)))
                         SSL_ERROR_WANT_READ) as [Eq|_]; [contradiction|].
    rewrite (C eq_refl) in *. rewrite app_nil_r in L. auto.
Qed.

(** ** When the read loop goes on to the next region *)

Lemma continues_while_bytes (ok : list (RawSlice * Z)) (bad : RawSlice * Z) :
  Forall got_bytes ok ->
  snd bad <= 0 ->
  continues_only_after got_bytes (ok ++ [bad]) /\ stops_at_failure (ok ++ [bad]).
Proof.
  intros Hok Hbad.
  assert (C : continues_only_after got_bytes (ok ++ [bad])).
  { intros pre c post E Hpost.
    destruct (exists_last Hpost) as (post' & z & ->).
    change (pre ++ c :: post' ++ [z]) with (pre ++ (c :: post') ++ [z]) in E.
    rewrite app_assoc in E. apply app_inj_tail in E. destruct E as [E _].
    rewrite Forall_forall in Hok. apply Hok. rewrite E.
    apply in_or_app. right. left. reflexivity. }
  split; [exact C|].
  intros pre c post E Hc. destruct post as [|p post]; [reflexivity|].
  assert (G : got_bytes c) by (apply (C pre c (p :: post) E); discriminate).
  unfold got_bytes in G. lia.
Qed.

(** ** Writing after the handshake *)

Lemma doWriteToSocket_after_handshake (env : Env) (w : World) :
  handshake_complete_ w = true ->
  doWriteToSocket env w = write_body env w.
Proof. intros Hf. unfold doWriteToSocket. now rewrite Hf. Qed.

Lemma buffer_ok_empty (b : Buffer.Instance) :
  buffer_ok b -> Buffer.length b = 0 -> b = [].
Proof.
  intros [Hl _] H0. destruct Hl as [|s b Hs Hb]; [reflexivity|].
  simpl in H0. pose proof (buffer_length_nonneg b Hb). lia.
Qed.

(** C6 (amended): after the handshake, let the engine accept bytes on the
    first [k] slices of the write buffer and fail on the next one, if there
    is one.  [doWriteToSocket] then returns [KeepOpen] unless that failure is
    something other than WantWrite, and when it returns [KeepOpen] it has
    drained from the front of the write buffer exactly the bytes the engine
    accepted, however many slices it went through; an empty buffer gives
    [KeepOpen] with nothing changed and no engine call.  When the failure is
    not WantWrite the function returns [Close] from inside the loop: the
    queue of errors is drained, the write buffer is left as it was. *)
Theorem doWriteToSocket_drains_written (env : Env) (w : World) (k : nat) :
  handshake_complete_ w = true ->
  engine_ok env ->
  queue_ok w ->
  buffer_ok (write_buffer_ w) ->
  writes_fit env (write_buffer_ w) (ssl_calls w) ->
  (k <= List.length (write_buffer_ w))%nat ->
  (forall i, (i < k)%nat -> 0 < rc (engine env (ssl_calls w + i))) ->
  ((k < List.length (write_buffer_ w))%nat ->
   rc (engine env (ssl_calls w + k)) <= 0) ->
  exists w' evs,
    doWriteToSocket env w =
      (if write_fatal env w k then Close else KeepOpen, w') /\
    events w' = events w ++ evs /\
    map fst (write_calls evs) =
      firstn (List.length (write_calls evs)) (write_buffer_ w) /\
    written evs = delivered env (ssl_calls w) k /\
    0 <= written evs <= Buffer.length (write_buffer_ w) /\
    ssl_calls w' =
      (ssl_calls w
       + if (k <? List.length (write_buffer_ w))%nat then S k else k)%nat /\
    (write_buffer_ w = [] -> w' = w) /\
    (if write_fatal env w k
     then write_buffer_ w' = write_buffer_ w /\ err_queue w' = []
     else write_buffer_ w' = Buffer.drain (written evs) (write_buffer_ w) /\
          Buffer.length (write_buffer_ w') =
            Buffer.length (write_buffer_ w) - written evs).
Proof.
  intros Hf He Hq Hok Hfit Hk Hpos Hneg.
  rewrite (doWriteToSocket_after_handshake env w Hf).
  destruct (write_body env w) as [act w'] eqn:H.
  destruct (write_body_settles env w act w' He Hq H) as [_ C].
  destruct (write_body_spec env w act w' H) as [evs S]. destruct S.
  pose proof (wb_fit0 Hfit (proj1 Hok)) as Hle.
  assert (Hge : 0 <= written evs) by apply accepted_nonneg.
  assert (Hsmall : written evs mod two64 = written evs).
  { apply Z.mod_small. destruct Hok as [_ Hlt]. lia. }
  assert (Hcalls : (List.length (write_calls evs)
                    <= List.length (write_buffer_ w))%nat).
  { pose proof (f_equal (@List.length _) wb_regions0) as Hl.
    rewrite length_map, length_firstn in Hl. lia. }
  assert (Hdrain :
    act = KeepOpen ->
    write_buffer_ w' = Buffer.drain (written evs) (write_buffer_ w) /\
    Buffer.length (write_buffer_ w') =
      Buffer.length (write_buffer_ w) - written evs).
  { intros ->. rewrite wb_buffer0, Hsmall.
    destruct (Z.ltb_spec 0 (written evs)) as [P|P].
    - split; [reflexivity|]. apply drain_length; [apply Hok | lia].
    - replace (written evs) with 0 by lia.
      rewrite (drain_zero _ (proj1 Hok)). split; [reflexivity | lia]. }
  assert (Hw : ssl_calls w' = (ssl_calls w + List.length (write_calls evs))%nat)
    by (rewrite wb_world0; reflexivity).
  assert (Hev : events w' = events w ++ evs) by (rewrite wb_world0; reflexivity).
  exists w', evs. unfold write_fatal.
  destruct wb_pattern0
    as [(Z0 & A & W & V) | [(NZ & A & L & F) | (NZ & ok & bad & R & F & B & A)]].
  - (* the buffer is empty *)
    pose proof (buffer_ok_empty _ Hok Z0) as Hnil.
    subst w' evs act. rewrite Hnil in Hk |- *. simpl in Hk.
    assert (k = 0)%nat by lia. subst k. simpl.
    rewrite Nat.add_0_r, app_nil_r. simpl.
    repeat split; auto; lia.
  - (* every slice was written *)
    pose proof (positive_prefix (fun j => rc (engine env j)) (write_calls evs)
                  (ssl_calls w) wb_answers0 F) as Hp.
    assert (k = List.length (write_buffer_ w)).
    { destruct (Nat.eq_dec k (List.length (write_buffer_ w))) as [E|E]; [exact E|].
      assert (G : (k < List.length (write_buffer_ w))%nat) by lia.
      specialize (Hneg G). rewrite <- L in G. specialize (Hp _ G). lia. }
    subst k act. rewrite Nat.ltb_irrefl. simpl.
    assert (Hwr : written evs = delivered env (ssl_calls w)
                                          (List.length (write_buffer_ w))).
    { unfold written. rewrite <- L. apply accepted_delivered; assumption. }
    repeat split; auto; try lia; try (apply Hdrain; reflexivity).
    intros Hnil. rewrite Hnil in NZ. simpl in NZ. contradiction.
  - (* the call on slice [length ok] failed *)
    rewrite R in wb_answers0.
    destruct (split_answers _ _ ok bad wb_answers0) as [Hm1 Hm2].
    pose proof (positive_prefix (fun j => rc (engine env j)) ok
                  (ssl_calls w) Hm1 F) as Hp.
    assert (Hlt : (List.length ok < List.length (write_buffer_ w))%nat).
    { rewrite R, length_app in Hcalls. simpl in Hcalls. lia. }
    assert (k = List.length ok).
    { destruct (Nat.lt_trichotomy k (List.length ok)) as [G | [E | G]].
      - specialize (Hp _ G). assert (G' : (k < List.length (write_buffer_ w))%nat) by lia.
        specialize (Hneg G'). lia.
      - exact E.
      - specialize (Hpos _ G). lia. }
    subst k. apply Nat.ltb_lt in Hlt. rewrite Hlt. simpl.
    assert (Hwr : written evs = delivered env (ssl_calls w) (List.length ok)).
    { unfold written. rewrite R, (accepted_failed ok bad B).
      apply accepted_delivered; assumption. }
    assert (Hlen : List.length (write_calls evs) = S (List.length ok)).
    { rewrite R, length_app. simpl. lia. }
    destruct (ssl_error (engine env (ssl_calls w + List.length ok))
              =? SSL_ERROR_WANT_WRITE); simpl; subst act.
    + repeat split; auto; try lia; try (apply Hdrain; reflexivity).
      intros Hnil. rewrite Hnil in NZ. simpl in NZ. contradiction.
    + repeat split; auto; try lia.
      intros Hnil. rewrite Hnil in NZ. simpl in NZ. contradiction.
Qed.

(** ** The peer certificate digest *)

Lemma hex_encode_length (data : list byte) :
  String.length (Hex.encode data) = (2 * List.length data)%nat.
Proof.
  induction data as [|d data IH]; simpl; [reflexivity|]. rewrite IH. lia.
Qed.

(** C7 (amended): [sha256PeerCertificateDigest] can be called at any
    time and never looks at [handshake_complete_]: it returns the empty
    string exactly when the engine holds no peer certificate for the
    session, and otherwise the 64 hexadecimal digits of the 32-byte digest
    of that certificate.  The result is a function of the session state
    alone, so repeated calls agree and nothing computed earlier is kept. *)
Theorem sha256PeerCertificateDigest_follows_engine (env : Env) (w : World) :
  (forall cert, List.length (X509_digest env cert) = SHA256_DIGEST_LENGTH) ->
  match peer_certificate env (ssl_calls w) with
  | None => sha256PeerCertificateDigest env w = Some EmptyString
  | Some cert =>
      sha256PeerCertificateDigest env w
        = Some (Hex.encode (X509_digest env cert)) /\
      String.length (Hex.encode (X509_digest env cert)) = 64%nat
  end /\
  (forall w2, ssl_calls w2 = ssl_calls w ->
              sha256PeerCertificateDigest env w2
              = sha256PeerCertificateDigest env w) /\
  (forall b, sha256PeerCertificateDigest env (set_handshake_complete b w)
             = sha256PeerCertificateDigest env w).
Proof.
  intros Hlen. unfold sha256PeerCertificateDigest. split; [|split].
  - destruct (peer_certificate env (ssl_calls w)) as [cert|]; [|reflexivity].
    rewrite Hlen, Nat.eqb_refl, hex_encode_length, Hlen. auto.
  - intros w2 ->. reflexivity.
  - intros b. reflexivity.
Qed.

(** * Concrete runs *)

Lemma stand_in_digest_length (cert : list byte) :
  List.length (Scenario.stand_in_digest cert) = SHA256_DIGEST_LENGTH.
Proof.
  unfold Scenario.stand_in_digest.
  rewrite length_firstn, length_app, repeat_length.
  unfold SHA256_DIGEST_LENGTH. lia.
Qed.

Lemma scripted_engine_ok (answers : list SslResult) (verified : bool)
      (reaction : Reaction) (regions : list RawSlice)
      (cert : option (list byte)) :
  Forall (fun r => Forall (fun e => e <> 0) (queued r)) answers ->
  engine_ok (Scenario.scripted answers verified reaction regions cert).
Proof.
  intros H k. unfold Scenario.scripted. simpl.
  destruct (nth_in_or_default k answers Scenario.hangup) as [Hin | ->].
  - rewrite Forall_forall in H. apply H. exact Hin.
  - constructor.
Qed.

(** A fresh connection whose first handshake step succeeds and whose peer
    is accepted becomes the established connection of the runs below. *)
Example handshake_accepted :
  doHandshake Scenario.accepting Scenario.fresh
  = (KeepOpen, Scenario.established [] [] []).
Proof. reflexivity. Qed.

(** The two read runs of the spec, on one reserved region and on two. *)
Example read_five_then_blocked :
  doReadFromSocket (Scenario.five_then_blocked Scenario.one_region) 2
                   (Scenario.established [] [] [])
  = Some (KeepOpen,
          mkWorld true Open [mkSlice 4096 5] [] [] 3 2
                  (events (Scenario.established [] [] [])
                   ++ [EvRead 4096 16384 16384 5;
                       EvLog LvTrace (MsgSslReadReturns 5);
                       EvCommit [mkSlice 4096 5];
                       EvRead 4096 16384 16384 (-1);
                       EvLog LvTrace (MsgSslReadReturns (-1))])).
Proof. reflexivity. Qed.

Example read_five_then_failure :
  doReadFromSocket (Scenario.five_then_failure Scenario.two_regions) 1
                   (Scenario.established [] [] [])
  = Some (Close,
          mkWorld true Open [mkSlice 4096 5] [] [] 3 1
                  (events (Scenario.established [] [] [])
                   ++ [EvRead 4096 4000 4000 5;
                       EvLog LvTrace (MsgSslReadReturns 5);
                       EvRead 65536 12384 12384 (-1);
                       EvLog LvTrace (MsgSslReadReturns (-1));
                       EvLog LvDebug (MsgSslError 336151576);
                       EvCommit [mkSlice 4096 5]])).
Proof. reflexivity. Qed.

(** The write run of the spec: 40 of 100 bytes go out, then the rest. *)
Example write_forty_then_sixty :
  let (first, w1) :=
    doWriteToSocket Scenario.forty_then_blocked
                    (Scenario.established [] Scenario.hundred_bytes []) in
  let (second, w2) := doWriteToSocket Scenario.forty_then_blocked w1 in
  first = KeepOpen /\ write_buffer_ w1 = [mkSlice 12288 60] /\
  Buffer.length (write_buffer_ w1) = 60 /\
  second = KeepOpen /\ write_buffer_ w2 = [] /\
  written (skipn 3 (events w1)) = 40 /\
  written (skipn 3 (events w2)) = 100.
Proof. vm_compute. repeat split; reflexivity. Qed.

(** A handshake that completes inside [doReadFromSocket] goes straight on
    to reading. *)
Example read_completes_handshake_then_reads :
  option_map fst
    (doReadFromSocket (Scenario.five_then_blocked Scenario.one_region) 2
                      Scenario.fresh) = Some KeepOpen /\
  read_buffer_
    (Scenario.world_of
       (doReadFromSocket (Scenario.five_then_blocked Scenario.one_region) 2
                         Scenario.fresh) Scenario.fresh) = [mkSlice 4096 5].
Proof. split; reflexivity. Qed.

(** * Where the code departs from the claims *)

(** C5, as stated, fails: the first region has room for 4000 bytes and
    receives 5, and the loop still goes on to call the engine on the second
    region. *)
Lemma read_continues_after_partial_region :
  let w := Scenario.established [] [] [] in
  let env := Scenario.five_then_blocked Scenario.two_regions in
  let w' := Scenario.world_of (doReadFromSocket env 1 w) w in
  doReadFromSocket env 1 w = Some (KeepOpen, w') /\
  read_calls (events w')
    = [(mkSlice 4096 4000, 5); (mkSlice 65536 12384, -1)] /\
  ~ continues_only_after fully_satisfied (read_calls (events w')).
Proof.
  cbv zeta. split; [reflexivity|]. split; [reflexivity|].
  intros H.
  specialize (H [] (mkSlice 4096 4000, 5) [(mkSlice 65536 12384, -1)] eq_refl).
  unfold fully_satisfied in H. simpl in H.
  assert (E : 5 = 4000) by (apply H; discriminate).
  discriminate E.
Qed.

(** C6, as stated, fails: the engine accepts the 40 bytes of the first
    slice and then fails on the second; the function returns [Close] with
    all 100 bytes still in the write buffer. *)
Lemma write_failure_leaves_buffer :
  let w := Scenario.established [] Scenario.hundred_bytes [] in
  let env := Scenario.forty_then_failure in
  let w' := snd (doWriteToSocket env w) in
  doWriteToSocket env w = (Close, w') /\
  written (skipn (List.length (events w)) (events w')) = 40 /\
  Buffer.length (write_buffer_ w') = 100 /\
  write_buffer_ w' <> Buffer.drain 40 (write_buffer_ w).
Proof.
  cbv zeta. split; [reflexivity|]. split; [reflexivity|].
  split; [reflexivity|]. vm_compute. discriminate.
Qed.

(** C7, as stated, fails: the engine has completed its handshake and holds
    the peer's certificate, the peer failed verification, so
    [handshake_complete_] is false; the digest is not the empty string. *)
Lemma digest_without_handshake_complete :
  let env := Scenario.rejecting in
  let w' := snd (doHandshake env Scenario.fresh) in
  doHandshake env Scenario.fresh = (Close, w') /\
  handshake_complete_ w' = false /\
  exists s, sha256PeerCertificateDigest env w' = Some s /\
            String.length s = 64%nat /\ s <> EmptyString.
Proof.
  cbv zeta. split; [reflexivity|]. split; [reflexivity|].
  eexists. split; [reflexivity|]. split; [reflexivity | discriminate].
Qed.


(** * The theorems at concrete inputs *)

Lemma doHandshake_connected_once_witness :
  handshake_complete_ Scenario.fresh = false /\
  consistent Scenario.fresh /\
  rc (engine Scenario.vetoing 0) = 1 /\
  verifyPeer Scenario.vetoing 1 = true /\
  exists w',
    doHandshake Scenario.vetoing Scenario.fresh = (Close, w') /\
    handshake_complete_ w' = true /\
    connected (events w') = [true].
Proof.
  split; [reflexivity|]. split; [reflexivity|].
  split; [reflexivity|]. split; [reflexivity|].
  destruct (doHandshake_connected_once Scenario.vetoing Scenario.fresh
              eq_refl eq_refl eq_refl eq_refl)
    as (act & w' & tail & H & F & _ & _ & C & _ & _ & U & _).
  exists w'. rewrite (U eq_refl) in H. auto.
Defined.

Lemma doHandshake_verification_failure_witness :
  handshake_complete_ Scenario.fresh = false /\
  rc (engine Scenario.rejecting 0) = 1 /\
  verifyPeer Scenario.rejecting 1 = false /\
  exists w',
    doHandshake Scenario.rejecting Scenario.fresh = (Close, w') /\
    handshake_complete_ w' = false /\
    phase w' <> Established.
Proof.
  split; [reflexivity|]. split; [reflexivity|]. split; [reflexivity|].
  destruct (doHandshake_verification_failure Scenario.rejecting Scenario.fresh
              eq_refl eq_refl eq_refl)
    as (w' & H & _ & _ & F & _ & P).
  exists w'. auto.
Defined.

Lemma handshake_blocking_stays_witness :
  handshake_complete_ Scenario.fresh = false /\
  (forall k, (0 <= k < 3)%nat -> blocking (engine Scenario.stalling k)) /\
  exists w',
    drive Scenario.stalling [PumpRead 0; PumpWrite; Advance] Scenario.fresh
      = Some ([KeepOpen; KeepOpen; KeepOpen], w') /\
    handshake_complete_ w' = false /\
    phase w' = Handshaking.
Proof.
  assert (B : forall k, (0 <= k < 3)%nat -> blocking (engine Scenario.stalling k)).
  { intros k Hk. unfold blocking.
    destruct k as [|[|[|k]]]; [ | | | lia]; simpl; (split; [lia|]);
      [left | right | left]; reflexivity. }
  split; [reflexivity|]. split; [exact B|].
  destruct (handshake_blocking_stays Scenario.stalling
              [PumpRead 0; PumpWrite; Advance] Scenario.fresh eq_refl B)
    as (w' & evs & H & _ & _ & _ & _ & F & _ & P & _).
  exists w'. split; [exact H|]. split; [exact F | exact (P eq_refl)].
Defined.

Lemma doReadFromSocket_commits_received_witness :
  let env := Scenario.five_then_blocked Scenario.one_region in
  let w := Scenario.established [] [] [] in
  handshake_complete_ w = true /\
  engine_ok env /\
  queue_ok w /\
  (forall k, reserve_space env k <> []) /\
  (forall i, (i < 1)%nat -> 0 < rc (engine env (ssl_calls w + i))) /\
  rc (engine env (ssl_calls w + 1)) <= 0 /\
  exists w',
    doReadFromSocket env 2 w = Some (KeepOpen, w') /\
    Buffer.length (read_buffer_ w') = 5.
Proof.
  cbv zeta.
  assert (E : engine_ok (Scenario.five_then_blocked Scenario.one_region)).
  { apply scripted_engine_ok. repeat constructor. }
  assert (Q : queue_ok (Scenario.established [] [] [])) by constructor.
  assert (R : forall k, reserve_space
                          (Scenario.five_then_blocked Scenario.one_region) k
                        <> []) by (intros k; discriminate).
  assert (P : forall i, (i < 1)%nat ->
                0 < rc (engine (Scenario.five_then_blocked Scenario.one_region)
                               (ssl_calls (Scenario.established [] [] []) + i))).
  { intros i Hi. destruct i as [|i]; [reflexivity | lia]. }
  assert (N : rc (engine (Scenario.five_then_blocked Scenario.one_region)
                         (ssl_calls (Scenario.established [] [] []) + 1)) <= 0)
    by (simpl; lia).
  repeat (split; [assumption || reflexivity|]).
  destruct (doReadFromSocket_commits_received
              (Scenario.five_then_blocked Scenario.one_region)
              (Scenario.established [] [] []) 1 2 eq_refl E Q R P N
              (le_n 2))
    as (w' & evs & H & _ & _ & _ & _ & L & _).
  exists w'. split; [exact H | exact L].
Defined.

Lemma doWriteToSocket_drains_written_witness :
  let env := Scenario.forty_then_blocked in
  let w := Scenario.established [] Scenario.hundred_bytes [] in
  handshake_complete_ w = true /\
  engine_ok env /\
  queue_ok w /\
  buffer_ok (write_buffer_ w) /\
  writes_fit env (write_buffer_ w) (ssl_calls w) /\
  (forall i, (i < 1)%nat -> 0 < rc (engine env (ssl_calls w + i))) /\
  rc (engine env (ssl_calls w + 1)) <= 0 /\
  exists w',
    doWriteToSocket env w = (KeepOpen, w') /\
    write_buffer_ w' = Buffer.drain 40 (write_buffer_ w) /\
    Buffer.length (write_buffer_ w') = 60.
Proof.
  cbv zeta.
  assert (E : engine_ok Scenario.forty_then_blocked).
  { apply scripted_engine_ok. repeat constructor. }
  assert (Q : queue_ok (Scenario.established [] Scenario.hundred_bytes []))
    by constructor.
  assert (B : buffer_ok (write_buffer_
                           (Scenario.established [] Scenario.hundred_bytes []))).
  { split; [repeat constructor | reflexivity]. }
  assert (F : writes_fit Scenario.forty_then_blocked
                (write_buffer_ (Scenario.established [] Scenario.hundred_bytes []))
                (ssl_calls (Scenario.established [] Scenario.hundred_bytes []))).
  { simpl. lia. }
  assert (P : forall i, (i < 1)%nat ->
                0 < rc (engine Scenario.forty_then_blocked
                          (ssl_calls (Scenario.established []
                                        Scenario.hundred_bytes []) + i))).
  { intros i Hi. destruct i as [|i]; [reflexivity | lia]. }
  assert (N : rc (engine Scenario.forty_then_blocked
                    (ssl_calls (Scenario.established []
                                  Scenario.hundred_bytes []) + 1)) <= 0)
    by (simpl; lia).
  repeat (split; [assumption || reflexivity|]).
  destruct (doWriteToSocket_drains_written Scenario.forty_then_blocked
              (Scenario.established [] Scenario.hundred_bytes []) 1
              eq_refl E Q B F (le_S 1 1 (le_n 1)) P (fun _ => N))
    as (w' & evs & H & _ & _ & Wr & _ & _ & _ & D).
  exists w'. simpl in H, D, Wr. rewrite Wr in D. simpl in D.
  destruct D as [D1 D2]. auto.
Defined.

Lemma sha256PeerCertificateDigest_follows_engine_witness :
  let env := Scenario.rejecting in
  let w := snd (doHandshake env Scenario.fresh) in
  (forall cert, List.length (X509_digest env cert) = SHA256_DIGEST_LENGTH) /\
  sha256PeerCertificateDigest env Scenario.fresh = Some EmptyString /\
  sha256PeerCertificateDigest env w
    = Some (Hex.encode (X509_digest env Scenario.leaf_certificate)) /\
  sha256PeerCertificateDigest env (set_handshake_complete true w)
    = sha256PeerCertificateDigest env w.
Proof.
  cbv zeta. split; [exact stand_in_digest_length|].
  pose proof (sha256PeerCertificateDigest_follows_engine Scenario.rejecting
                Scenario.fresh stand_in_digest_length) as [H0 _].
  pose proof (sha256PeerCertificateDigest_follows_engine Scenario.rejecting
                (snd (doHandshake Scenario.rejecting Scenario.fresh))
                stand_in_digest_length) as [H1 [_ H2]].
  simpl in H0, H1. destruct H1 as [H1 _].
  split; [exact H0|]. split; [exact H1 | apply H2].
Defined.


Lemma closeSocket_drains_after_shutdown_witness :
  let env := Scenario.failing_shutdown in
  let w := Scenario.established [] [] [336151576] in
  engine_ok env /\
  queue_ok w /\
  handshake_complete_ w = true /\
  err_queue (closeSocket env w) = [] /\
  state_ (closeSocket env w) = Closed /\
  logged (events (closeSocket env w)) = [336151576; 336151576].
Proof.
  cbv zeta.
  assert (E : engine_ok Scenario.failing_shutdown).
  { apply scripted_engine_ok. repeat constructor; discriminate. }
  assert (Q : queue_ok (Scenario.established [] [] [336151576])).
  { repeat constructor. discriminate. }
  split; [exact E|]. split; [exact Q|]. split; [reflexivity|].
  destruct (closeSocket_drains_after_shutdown Scenario.failing_shutdown
              (Scenario.established [] [] [336151576]) E Q eq_refl)
    as (D & S & _).
  split; [exact D|]. split; [exact S | reflexivity].
Defined.

(** * Further properties of the code *)

(** ** doHandshake, all branches *)

Lemma closeSocket_buffers (env : Env) (w : World) :
  read_buffer_ (closeSocket env w) = read_buffer_ w /\
  write_buffer_ (closeSocket env w) = write_buffer_ w /\
  reserve_calls (closeSocket env w) = reserve_calls w /\
  exists evs,
    events (closeSocket env w) = events w ++ evs /\
    read_calls evs = [] /\ write_calls evs = [].
Proof.
  unfold closeSocket. destruct (handshake_complete_ w).
  - unfold SSL_shutdown, engine_call, log, emit. simpl.
    match goal with |- context [drainErrorQueue ?x] =>
      destruct (drainErrorQueue_frame x) as (q & codes & ->) end.
    simpl. repeat split; auto.
    eexists. rewrite <- !app_assoc. split; [reflexivity|].
    ghost_rw. auto.
  - simpl. repeat split; auto. exists [EvTransportClose]. auto.
Qed.

(** What a handshake step does to everything but the error queue, branch
    by branch. *)
Lemma doHandshake_summary (env : Env) (w : World) :
  exists evs,
    events (snd (doHandshake env w)) = events w ++ evs /\
    read_calls evs = [] /\ write_calls evs = [] /\
    connected evs = (if completes env w then [true] else []) /\
    shutdown_calls evs =
      (if completes env w && vetoed env w
       then [rc (engine env (S (ssl_calls w)))] else []) /\
    transport_closes evs =
      (if completes env w && vetoed env w then 1 else 0)%nat /\
    handshake_complete_ (snd (doHandshake env w)) =
      (completes env w || handshake_complete_ w) /\
    state_ (snd (doHandshake env w)) =
      (if completes env w && vetoed env w then Closed else state_ w) /\
    read_buffer_ (snd (doHandshake env w)) = read_buffer_ w /\
    write_buffer_ (snd (doHandshake env w)) = write_buffer_ w /\
    reserve_calls (snd (doHandshake env w)) = reserve_calls w.
Proof.
  unfold completes, vetoed.
  destruct (doHandshake_outcomes env w)
    as [(Hrc & Hv) | [(Hrc & Hv) | [(Hrc & Hb) | (Hrc & Hr & Hw)]]].
  - rewrite (doHandshake_verified env w Hrc Hv), Hrc, Hv. simpl.
    unfold raiseEvents. simpl.
    destruct (upstream env (S (ssl_calls w))) eqn:Hu.
    + simpl. eexists. rewrite <- app_assoc. split; [reflexivity|].
      simpl. repeat split; auto.
    + match goal with |- context [closeSocket env ?x] =>
        pose proof (closeSocket_frame env x) as P1;
        pose proof (closeSocket_buffers env x) as P2;
        remember (closeSocket env x) as wc eqn:Hwc
      end.
      clear Hwc.
      destruct P1 as (evs & E & Q & T & Sh & F & St & _).
      destruct P2 as (Rb & Wb & Rc & evs' & E' & Rd & Wr).
      simpl in *. rewrite E in E'. rewrite <- !app_assoc in E'.
      do 2 apply app_inv_head in E'. simpl in E'. injection E' as E'.
      eexists. rewrite E, <- !app_assoc. split; [reflexivity|].
      subst evs'. rewrite read_calls_app in Rd. rewrite write_calls_app in Wr.
      apply app_eq_nil in Rd. apply app_eq_nil in Wr.
      ghost_rw. rewrite Q, T, Sh.
      destruct Rd as [-> _]. destruct Wr as [-> _]. simpl.
      repeat split; auto.
  - rewrite (doHandshake_rejected env w Hrc Hv), Hrc, Hv. simpl.
    eexists. split; [reflexivity|]. simpl. repeat split; auto.
  - assert (N : (rc (engine env (ssl_calls w)) =? 1) = false)
      by (apply Z.eqb_neq; exact Hrc).
    rewrite N. simpl.
    unfold doHandshake, SSL_do_handshake, engine_call, SSL_get_error.
    rewrite N.
    replace ((ssl_error (engine env (ssl_calls w)) =? SSL_ERROR_WANT_READ)
             || (ssl_error (engine env (ssl_calls w)) =? SSL_ERROR_WANT_WRITE))
      with true
      by (symmetry; apply orb_true_iff; destruct Hb as [-> | ->]; auto).
    simpl. eexists. rewrite <- app_assoc. split; [reflexivity|].
    simpl. repeat split; auto.
  - assert (N : (rc (engine env (ssl_calls w)) =? 1) = false)
      by (apply Z.eqb_neq; exact Hrc).
    rewrite N. simpl.
    rewrite (doHandshake_fatal env w Hrc Hr Hw). simpl.
    match goal with |- context [drainErrorQueue ?x] =>
      destruct (drainErrorQueue_frame x) as (q & codes & ->) end.
    simpl. eexists. rewrite <- app_assoc. split; [reflexivity|].
    ghost_rw. repeat split; auto.
Qed.

Lemma doHandshake_action (env : Env) (w : World) :
  fst (doHandshake env w) =
  if completes env w
  then (if is_open (state_ (snd (doHandshake env w))) then KeepOpen else Close)
  else if rc (engine env (ssl_calls w)) =? 1 then Close
  else if (ssl_error (engine env (ssl_calls w)) =? SSL_ERROR_WANT_READ)
          || (ssl_error (engine env (ssl_calls w)) =? SSL_ERROR_WANT_WRITE)
  then KeepOpen else Close.
Proof.
  unfold completes.
  destruct (doHandshake_outcomes env w)
    as [(Hrc & Hv) | [(Hrc & Hv) | [(Hrc & Hb) | (Hrc & Hr & Hw)]]].
  - rewrite (doHandshake_verified env w Hrc Hv), Hrc, Hv. simpl.
    match goal with |- context [state_ ?x] => destruct (state_ x) end;
      reflexivity.
  - rewrite (doHandshake_rejected env w Hrc Hv), Hrc, Hv. reflexivity.
  - assert (N : (rc (engine env (ssl_calls w)) =? 1) = false)
      by (apply Z.eqb_neq; exact Hrc).
    assert (B : (ssl_error (engine env (ssl_calls w)) =? SSL_ERROR_WANT_READ)
                || (ssl_error (engine env (ssl_calls w)) =? SSL_ERROR_WANT_WRITE)
                = true)
      by (apply orb_true_iff; destruct Hb as [-> | ->]; auto).
    rewrite N, B. simpl.
    unfold doHandshake, SSL_do_handshake, engine_call, SSL_get_error.
    rewrite N, B. reflexivity.
  - assert (N : (rc (engine env (ssl_calls w)) =? 1) = false)
      by (apply Z.eqb_neq; exact Hrc).
    rewrite N. simpl. rewrite (doHandshake_fatal env w Hrc Hr Hw). simpl.
    destruct (Z.eqb_spec (ssl_error (engine env (ssl_calls w))) SSL_ERROR_WANT_READ);
      [contradiction|].
    destruct (Z.eqb_spec (ssl_error (engine env (ssl_calls w))) SSL_ERROR_WANT_WRITE);
      [contradiction|].
    reflexivity.
Qed.

(** X1: entered with the handshake incomplete, [doHandshake] sets
    [handshake_complete_] exactly when the engine step returns 1 and the peer
    passes verification, and it raises [Connected] (once, with the flag
    already set) in exactly that case; on a blocked step, a failed step or
    a rejected peer the flag stays false and nothing is raised. *)
Theorem doHandshake_completes_iff (env : Env) (w : World) :
  handshake_complete_ w = false ->
  exists act w' evs,
    doHandshake env w = (act, w') /\
    events w' = events w ++ evs /\
    handshake_complete_ w' = completes env w /\
    (handshake_complete_ w' = true <->
     rc (engine env (ssl_calls w)) = 1 /\
     verifyPeer env (S (ssl_calls w)) = true) /\
    connected evs = (if completes env w then [true] else []).
Proof.
  intros Hf. destruct (doHandshake env w) as [act w'] eqn:H.
  destruct (doHandshake_summary env w) as (evs & E & _ & _ & C & _ & _ & F & _).
  rewrite H in E, F. simpl in E, F. rewrite Hf, orb_false_r in F.
  exists act, w', evs.
  split; [reflexivity|]. split; [exact E|]. split; [exact F|].
  split; [|exact C].
  rewrite F. unfold completes. rewrite andb_true_iff, Z.eqb_eq. tauto.
Qed.

(** X2: [doHandshake] returns [KeepOpen] in two cases only: the step
    completed the handshake and the connection is [Open] when the
    [Connected] event has been handled (no consumer closed it, and it was
    open before), or the step did not return 1 and the engine's error is
    WantRead or WantWrite.  Everything else is [Close]. *)
Theorem doHandshake_keep_open_iff (env : Env) (w : World) :
  fst (doHandshake env w) = KeepOpen <->
  (completes env w = true /\ vetoed env w = false /\ state_ w = Open) \/
  (rc (engine env (ssl_calls w)) <> 1 /\
   (ssl_error (engine env (ssl_calls w)) = SSL_ERROR_WANT_READ \/
    ssl_error (engine env (ssl_calls w)) = SSL_ERROR_WANT_WRITE)).
Proof.
  rewrite doHandshake_action.
  destruct (doHandshake_summary env w) as (_ & _ & _ & _ & _ & _ & _ & _ & S & _).
  rewrite S. clear S.
  destruct (completes env w) eqn:C.
  - assert (Hrc : rc (engine env (ssl_calls w)) = 1).
    { unfold completes in C. apply andb_true_iff in C. apply Z.eqb_eq. tauto. }
    simpl. destruct (vetoed env w); simpl.
    + split; [discriminate|]. intros [(_ & V & _) | (N & _)];
        [discriminate | contradiction].
    + destruct (state_ w); simpl; split; try discriminate; auto;
        intros [(_ & _ & O) | (N & _)]; try discriminate; contradiction.
  - destruct (Z.eqb_spec (rc (engine env (ssl_calls w))) 1) as [E|E].
    + split; [discriminate|].
      intros [(D & _) | (N & _)]; [discriminate | contradiction].
    + destruct (Z.eqb_spec (ssl_error (engine env (ssl_calls w)))
                           SSL_ERROR_WANT_READ) as [R|R];
        destruct (Z.eqb_spec (ssl_error (engine env (ssl_calls w)))
                             SSL_ERROR_WANT_WRITE) as [W|W];
        simpl; split; auto; try discriminate;
        intros [(D & _) | (_ & [A | B])];
        try discriminate; try contradiction.
Qed.

(** X3: [doHandshake] never touches the read buffer, the write buffer or
    the reservations and never calls the engine's read or write; the
    transport state changes only when the step completed the handshake and
    a consumer closed the connection on [Connected], and then to [Closed]
    through one [closeSocket]. *)
Theorem doHandshake_leaves_buffers (env : Env) (w : World) :
  exists evs,
    events (snd (doHandshake env w)) = events w ++ evs /\
    read_calls evs = [] /\ write_calls evs = [] /\
    transport_closes evs =
      (if completes env w && vetoed env w then 1 else 0)%nat /\
    state_ (snd (doHandshake env w)) =
      (if completes env w && vetoed env w then Closed else state_ w) /\
    read_buffer_ (snd (doHandshake env w)) = read_buffer_ w /\
    write_buffer_ (snd (doHandshake env w)) = write_buffer_ w /\
    reserve_calls (snd (doHandshake env w)) = reserve_calls w.
Proof.
  destruct (doHandshake_summary env w)
    as (evs & E & R & W & _ & _ & T & _ & S & Rb & Wb & Rc).
  exists evs. auto 10.
Qed.

(** ** The pumps while the handshake is incomplete *)

Lemma handshake_gate (env : Env) (w : World) :
  handshake_complete_ w = false ->
  is_close (fst (doHandshake env w))
  || negb (handshake_complete_ (snd (doHandshake env w)))
  = negb (proceeds env w).
Proof.
  intros Hf. rewrite doHandshake_action.
  destruct (doHandshake_summary env w) as (_ & _ & _ & _ & _ & _ & _ & F & S & _).
  rewrite F, S, Hf. unfold proceeds.
  destruct (completes env w); simpl.
  - destruct (vetoed env w); simpl; [reflexivity|].
    destruct (state_ w); reflexivity.
  - now rewrite orb_true_r.
Qed.

Lemma doReadFromSocket_before_handshake (env : Env) (fuel : nat) (w : World) :
  handshake_complete_ w = false ->
  doReadFromSocket env fuel w =
  if proceeds env w
  then read_loop env fuel KeepOpen (snd (doHandshake env w))
  else Some (doHandshake env w).
Proof.
  intros Hf. pose proof (handshake_gate env w Hf) as G.
  unfold doReadFromSocket. rewrite Hf. simpl.
  destruct (doHandshake env w) as [a w1]. simpl in G. rewrite G.
  destruct (proceeds env w); reflexivity.
Qed.

Lemma doWriteToSocket_before_handshake (env : Env) (w : World) :
  handshake_complete_ w = false ->
  doWriteToSocket env w =
  if proceeds env w
  then write_body env (snd (doHandshake env w))
  else doHandshake env w.
Proof.
  intros Hf. pose proof (handshake_gate env w Hf) as G.
  unfold doWriteToSocket. rewrite Hf. simpl.
  destruct (doHandshake env w) as [a w1]. simpl in G. rewrite G.
  destruct (proceeds env w); reflexivity.
Qed.

Lemma proceeds_completes (env : Env) (w : World) :
  proceeds env w = true ->
  completes env w = true /\ vetoed env w = false /\ state_ w = Open.
Proof.
  unfold proceeds. intros H.
  apply andb_true_iff in H. destruct H as [H O].
  apply andb_true_iff in H. destruct H as [C V].
  apply negb_true_iff in V.
  destruct (state_ w); try discriminate. auto.
Qed.

(** X4: a pump that completes the handshake and finds the connection
    still open goes straight on to its I/O in the same call: it is the
    handshake step followed by the pump of a connection whose handshake is
    complete. *)
Theorem pump_goes_on_after_handshake (env : Env) (fuel : nat) (w : World) :
  handshake_complete_ w = false ->
  proceeds env w = true ->
  handshake_complete_ (snd (doHandshake env w)) = true /\
  state_ (snd (doHandshake env w)) = Open /\
  doReadFromSocket env fuel w
    = doReadFromSocket env fuel (snd (doHandshake env w)) /\
  doWriteToSocket env w = doWriteToSocket env (snd (doHandshake env w)).
Proof.
  intros Hf P. destruct (proceeds_completes env w P) as (C & V & O).
  destruct (doHandshake_summary env w) as (_ & _ & _ & _ & _ & _ & _ & F & S & _).
  rewrite C, V in *. simpl in F, S.
  split; [exact F|]. split; [now rewrite S|].
  rewrite (doReadFromSocket_before_handshake env fuel w Hf), P.
  rewrite (doWriteToSocket_before_handshake env w Hf), P.
  rewrite (doReadFromSocket_after_handshake env fuel _ F).
  rewrite (doWriteToSocket_after_handshake env _ F). auto.
Qed.

(** X5: when a consumer closes the connection on the [Connected] event,
    the pump that completed the handshake returns [Close] at once: the
    connection is [Closed] after one shutdown attempt and one transport
    close, and the engine has not been asked to read or write. *)
Theorem pump_returns_when_connection_closed_on_connected
        (env : Env) (fuel : nat) (w : World) :
  handshake_complete_ w = false ->
  completes env w = true ->
  vetoed env w = true ->
  exists w1 evs,
    doReadFromSocket env fuel w = Some (Close, w1) /\
    doWriteToSocket env w = (Close, w1) /\
    events w1 = events w ++ evs /\
    read_calls evs = [] /\ write_calls evs = [] /\
    connected evs = [true] /\
    shutdown_calls evs = [rc (engine env (S (ssl_calls w)))] /\
    transport_closes evs = 1%nat /\
    state_ w1 = Closed /\
    read_buffer_ w1 = read_buffer_ w /\
    write_buffer_ w1 = write_buffer_ w.
Proof.
  intros Hf C V.
  assert (P : proceeds env w = false).
  { unfold proceeds. rewrite C, V. reflexivity. }
  destruct (doHandshake_summary env w)
    as (evs & E & R & W & Cn & Sh & T & F & S & Rb & Wb & _).
  pose proof (doHandshake_action env w) as A.
  rewrite C, V in *. simpl in *. rewrite S in A. simpl in A.
  rewrite (doReadFromSocket_before_handshake env fuel w Hf), P.
  rewrite (doWriteToSocket_before_handshake env w Hf), P.
  destruct (doHandshake env w) as [a w1]. simpl in *. subst a.
  exists w1, evs. auto 12.
Qed.

Lemma pump_without_completion (env : Env) (w : World) :
  handshake_complete_ w = false ->
  proceeds env w = false ->
  handshake_complete_ (snd (doHandshake env w)) = false ->
  exists evs,
    events (snd (doHandshake env w)) = events w ++ evs /\
    read_calls evs = [] /\ write_calls evs = [] /\ shutdown_calls evs = [] /\
    read_buffer_ (snd (doHandshake env w)) = read_buffer_ w /\
    write_buffer_ (snd (doHandshake env w)) = write_buffer_ w.
Proof.
  intros Hf P F'.
  destruct (doHandshake_summary env w)
    as (evs & E & R & W & _ & Sh & _ & F & _ & Rb & Wb & _).
  rewrite F', Hf, orb_false_r in F. rewrite <- F in Sh. simpl in Sh.
  exists evs. auto 10.
Qed.

Lemma call_quiet (env : Env) (c : Call) (w w' : World) :
  handshake_complete_ w = false ->
  call env c w = Some w' ->
  handshake_complete_ w' = false ->
  exists evs,
    events w' = events w ++ evs /\
    read_calls evs = [] /\ write_calls evs = [] /\ shutdown_calls evs = [] /\
    read_buffer_ w' = read_buffer_ w /\
    write_buffer_ w' = write_buffer_ w.
Proof.
  intros Hf H F'. destruct c as [fuel| |]; simpl in H.
  - rewrite (doReadFromSocket_before_handshake env fuel w Hf) in H.
    destruct (proceeds env w) eqn:P.
    + destruct (proceeds_completes env w P) as (C & V & O).
      destruct (doHandshake_summary env w) as (_ & _ & _ & _ & _ & _ & _ & F & _).
      rewrite C in F. simpl in F.
      destruct (read_loop env fuel KeepOpen (snd (doHandshake env w)))
        as [[a w2]|] eqn:L; [|discriminate].
      simpl in H. injection H as <-.
      apply read_loop_spec in L. destruct L as [evs S]. destruct S.
      rewrite rl_world0 in F'. simpl in F'. congruence.
    + simpl in H. injection H as <-.
      apply pump_without_completion; assumption.
  - injection H as <-.
    rewrite (doWriteToSocket_before_handshake env w Hf) in F' |- *.
    destruct (proceeds env w) eqn:P.
    + destruct (proceeds_completes env w P) as (C & V & O).
      destruct (doHandshake_summary env w) as (_ & _ & _ & _ & _ & _ & _ & F & _).
      rewrite C in F. simpl in F.
      destruct (write_body env (snd (doHandshake env w))) as [a w2] eqn:B.
      apply write_body_spec in B. destruct B as [evs S]. destruct S.
      simpl in F'. rewrite wb_world0 in F'. simpl in F'. congruence.
    + apply pump_without_completion; assumption.
  - injection H as <-. unfold closeSocket. rewrite Hf. simpl.
    exists [EvTransportClose]. auto 10.
Qed.

Lemma lifetime_quiet (env : Env) (rd wr : Buffer.Instance) (cs : list Call) :
  forall w0 w,
    consistent w0 ->
    quiet_so_far rd wr w0 ->
    lifetime env cs w0 = Some w ->
    handshake_complete_ w = false ->
    quiet_so_far rd wr w.
Proof.
  induction cs as [|c cs IH]; intros w0 w C Q H F; simpl in H.
  - now injection H as <-.
  - destruct (call env c w0) as [w1|] eqn:Hc; [|discriminate].
    destruct (call_consistent env c w0 w1 C Hc) as [C1 M1].
    destruct (lifetime_consistent env cs w1 w C1 H) as [_ M].
    assert (F1 : handshake_complete_ w1 = false).
    { destruct (handshake_complete_ w1); [|reflexivity].
      rewrite (M eq_refl) in F. discriminate. }
    assert (F0 : handshake_complete_ w0 = false).
    { destruct (handshake_complete_ w0); [|reflexivity].
      rewrite (M1 eq_refl) in F1. discriminate. }
    destruct (call_quiet env c w0 w1 F0 Hc F1)
      as (evs & E & R & W & S & Rb & Wb).
    apply (IH w1 w C1); try assumption.
    destruct Q as (Q1 & Q2 & Q3 & Q4 & Q5). unfold quiet_so_far.
    rewrite E, read_calls_app, write_calls_app, shutdown_calls_app.
    rewrite Q1, Q2, Q3, R, W, S, Rb, Wb. auto.
Qed.

(** X6: as long as [handshake_complete_] is false, a connection has done
    no application I/O, whatever was called on it since construction: the
    engine was never asked to read, to write or to send a shutdown, and
    both buffers hold exactly what they held at construction. *)
Theorem no_io_before_handshake_completes (env : Env) (cs : list Call)
        (rd wr : Buffer.Instance) (q : list Z) (w : World) :
  lifetime env cs (initial rd wr q) = Some w ->
  handshake_complete_ w = false ->
  quiet_so_far rd wr w.
Proof.
  intros H F.
  apply (lifetime_quiet env rd wr cs (initial rd wr q) w); auto.
  - apply initial_consistent.
  - unfold quiet_so_far. simpl. auto.
Qed.

(** ** What each pump leaves alone *)

Lemma received_no_reads (evs : list Event) : read_calls evs = [] -> received evs = [].
Proof. intros H. unfold received. now rewrite H. Qed.

Lemma written_no_writes (evs : list Event) : write_calls evs = [] -> written evs = 0.
Proof. intros H. unfold written. now rewrite H. Qed.

(** X7: whatever the state of the handshake, a call of [doReadFromSocket]
    that returns has left the write buffer alone, has made no engine write,
    and has changed the read buffer only by appending, after what was
    there, the regions that received bytes in this call. *)
Theorem doReadFromSocket_appends_only (env : Env) (fuel : nat) (w : World)
        (act : PostIoAction) (w' : World) :
  doReadFromSocket env fuel w = Some (act, w') ->
  write_buffer_ w' = write_buffer_ w /\
  exists evs,
    events w' = events w ++ evs /\
    write_calls evs = [] /\
    read_buffer_ w' = read_buffer_ w ++ received evs /\
    Buffer.length (read_buffer_ w') =
      Buffer.length (read_buffer_ w) + accepted (read_calls evs) /\
    Buffer.length (read_buffer_ w) <= Buffer.length (read_buffer_ w').
Proof.
  assert (Loop : forall w1,
    read_loop env fuel KeepOpen w1 = Some (act, w') ->
    write_buffer_ w' = write_buffer_ w1 /\
    exists evs,
      events w' = events w1 ++ evs /\ write_calls evs = [] /\
      read_buffer_ w' = read_buffer_ w1 ++ received evs).
  { intros w1 H. apply read_loop_spec in H. destruct H as [evs S]. destruct S.
    split; [rewrite rl_world0; reflexivity|].
    exists evs. rewrite rl_world0. simpl. auto. }
  assert (Len : forall evs,
    read_buffer_ w' = read_buffer_ w ++ received evs ->
    Buffer.length (read_buffer_ w') =
      Buffer.length (read_buffer_ w) + accepted (read_calls evs) /\
    Buffer.length (read_buffer_ w) <= Buffer.length (read_buffer_ w')).
  { intros evs E. rewrite E, buffer_length_app. unfold received.
    rewrite buffer_length_shrunk.
    pose proof (accepted_nonneg (read_calls evs)). lia. }
  intros H. destruct (handshake_complete_ w) eqn:Hf.
  - rewrite (doReadFromSocket_after_handshake env fuel w Hf) in H.
    destruct (Loop w H) as (Wb & evs & E & Wc & Rb).
    split; [exact Wb|]. exists evs. destruct (Len evs Rb). auto.
  - rewrite (doReadFromSocket_before_handshake env fuel w Hf) in H.
    destruct (doHandshake_summary env w)
      as (evh & Eh & Rh & Wh & _ & _ & _ & _ & _ & Rbh & Wbh & _).
    destruct (proceeds env w).
    + destruct (Loop _ H) as (Wb & evs & E & Wc & Rb).
      split; [congruence|]. exists (evh ++ evs).
      assert (Rb' : read_buffer_ w' = read_buffer_ w ++ received (evh ++ evs)).
      { rewrite received_app, (received_no_reads evh Rh). simpl. congruence. }
      destruct (Len _ Rb').
      rewrite E, Eh, <- app_assoc, write_calls_app, Wh, Wc. auto.
    + injection H as H. rewrite H in *. simpl in *.
      split; [exact Wbh|]. exists evh.
      assert (Rb' : read_buffer_ w' = read_buffer_ w ++ received evh).
      { rewrite (received_no_reads evh Rh), app_nil_r. exact Rbh. }
      destruct (Len _ Rb'). auto.
Qed.

(** X8: whatever the state of the handshake, [doWriteToSocket] leaves the
    read buffer and the reservations alone and makes no engine read; the
    write buffer is either left as it was or, on [KeepOpen], drained from
    the front by the bytes the engine accepted. *)
Theorem doWriteToSocket_only_drains (env : Env) (w : World)
        (act : PostIoAction) (w' : World) :
  doWriteToSocket env w = (act, w') ->
  read_buffer_ w' = read_buffer_ w /\
  reserve_calls w' = reserve_calls w /\
  exists evs,
    events w' = events w ++ evs /\
    read_calls evs = [] /\
    (write_buffer_ w' = write_buffer_ w \/
     act = KeepOpen /\ 0 < written evs mod two64 /\
     write_buffer_ w' = Buffer.drain (written evs mod two64) (write_buffer_ w)).
Proof.
  assert (Body : forall w1,
    write_body env w1 = (act, w') ->
    read_buffer_ w' = read_buffer_ w1 /\
    reserve_calls w' = reserve_calls w1 /\
    exists evs,
      events w' = events w1 ++ evs /\ read_calls evs = [] /\
      (write_buffer_ w' = write_buffer_ w1 \/
       act = KeepOpen /\ 0 < written evs mod two64 /\
       write_buffer_ w' = Buffer.drain (written evs mod two64) (write_buffer_ w1))).
  { intros w1 H. apply write_body_spec in H. destruct H as [evs S]. destruct S.
    split; [rewrite wb_world0; reflexivity|].
    split; [rewrite wb_world0; reflexivity|].
    exists evs. split; [rewrite wb_world0; reflexivity|].
    split; [exact wb_read_calls0|].
    rewrite wb_buffer0. destruct act; [|left; reflexivity].
    destruct (Z.ltb_spec 0 (written evs mod two64)); auto. }
  intros H. destruct (handshake_complete_ w) eqn:Hf.
  - rewrite (doWriteToSocket_after_handshake env w Hf) in H. apply Body, H.
  - rewrite (doWriteToSocket_before_handshake env w Hf) in H.
    destruct (doHandshake_summary env w)
      as (evh & Eh & Rh & Wh & _ & _ & _ & _ & _ & Rbh & Wbh & Rch).
    destruct (proceeds env w).
    + destruct (Body _ H) as (Rb & Rc & evs & E & Rd & D).
      split; [congruence|]. split; [congruence|].
      exists (evh ++ evs).
      rewrite E, Eh, <- app_assoc, read_calls_app, Rh, Rd.
      split; [reflexivity|]. split; [reflexivity|].
      rewrite written_app, (written_no_writes evh Wh), Z.add_0_l, <- Wbh.
      exact D.
    + rewrite H in *. simpl in *. split; [exact Rbh|]. split; [exact Rch|].
      exists evh. auto.
Qed.

(** ** The order of the engine writes *)

Lemma continues_all_succeeded (cs : list (RawSlice * Z)) :
  Forall got_bytes cs ->
  continues_only_after got_bytes cs /\ stops_at_failure cs.
Proof.
  intros F. rewrite Forall_forall in F.
  assert (In_mid : forall pre c post, cs = pre ++ c :: post -> got_bytes c).
  { intros pre c post E. apply F. rewrite E. apply in_or_app. right. now left. }
  split.
  - intros pre c post E _. exact (In_mid pre c post E).
  - intros pre c post E Hc. pose proof (In_mid pre c post E) as G.
    unfold got_bytes in G. lia.
Qed.

(** ** Where the next write starts *)

Lemma positive_buffer_empty (b : Buffer.Instance) :
  Forall (fun s => 0 < len_ s) b -> Buffer.length b = 0 -> b = [].
Proof.
  intros Hl H0. destruct Hl as [|s b Hs Hb]; [reflexivity|].
  simpl in H0. pose proof (buffer_length_nonneg b Hb). lia.
Qed.

(** The outcome of the write loop read off the engine's answers: [k]
    slices are written with success and the next one, if any, fails. *)
Lemma write_body_outcome (env : Env) (w : World) (k : nat) (act : PostIoAction)
      (w' : World) (evs : list Event) :
  WriteBodySpec env w act w' evs ->
  Forall (fun s => 0 < len_ s) (write_buffer_ w) ->
  (k <= List.length (write_buffer_ w))%nat ->
  (forall i, (i < k)%nat -> 0 < rc (engine env (ssl_calls w + i))) ->
  ((k < List.length (write_buffer_ w))%nat ->
   rc (engine env (ssl_calls w + k)) <= 0) ->
  written evs = delivered env (ssl_calls w) k /\
  List.length (write_calls evs)
    = (if (k <? List.length (write_buffer_ w))%nat then S k else k) /\
  act = (if write_fatal env w k then Close else KeepOpen).
Proof.
  intros S Hl Hk Hpos Hneg. destruct S. unfold write_fatal.
  assert (Hcalls : (List.length (write_calls evs)
                    <= List.length (write_buffer_ w))%nat).
  { pose proof (f_equal (@List.length _) wb_regions0) as E.
    rewrite length_map, length_firstn in E. lia. }
  destruct wb_pattern0
    as [(Z0 & A & W & V) | [(NZ & A & L & F) | (NZ & ok & bad & R & F & B & A)]].
  - pose proof (positive_buffer_empty _ Hl Z0) as Hnil.
    rewrite Hnil in *. simpl in Hk. assert (k = 0)%nat by lia.
    subst k evs act. simpl. auto.
  - pose proof (positive_prefix (fun j => rc (engine env j)) (write_calls evs)
                  (ssl_calls w) wb_answers0 F) as Hp.
    assert (k = List.length (write_buffer_ w)).
    { destruct (Nat.eq_dec k (List.length (write_buffer_ w))) as [E|E]; [exact E|].
      assert (G : (k < List.length (write_buffer_ w))%nat) by lia.
      specialize (Hneg G). rewrite <- L in G. specialize (Hp _ G). lia. }
    subst k act. rewrite Nat.ltb_irrefl. simpl.
    split; [|auto]. unfold written. rewrite <- L.
    apply accepted_delivered; assumption.
  - rewrite R in wb_answers0.
    destruct (split_answers _ _ ok bad wb_answers0) as [Hm1 Hm2].
    pose proof (positive_prefix (fun j => rc (engine env j)) ok
                  (ssl_calls w) Hm1 F) as Hp.
    assert (Hlt : (List.length ok < List.length (write_buffer_ w))%nat).
    { rewrite R, length_app in Hcalls. simpl in Hcalls. lia. }
    assert (k = List.length ok).
    { destruct (Nat.lt_trichotomy k (List.length ok)) as [G | [E | G]].
      - specialize (Hp _ G).
        assert (G' : (k < List.length (write_buffer_ w))%nat) by lia.
        specialize (Hneg G'). lia.
      - exact E.
      - specialize (Hpos _ G). lia. }
    subst k. apply Nat.ltb_lt in Hlt. rewrite Hlt. simpl.
    split; [|split].
    + unfold written. rewrite R, (accepted_failed ok bad B).
      apply accepted_delivered; assumption.
    + rewrite R, length_app. simpl. lia.
    + rewrite A.
      destruct (ssl_error (engine env (ssl_calls w + List.length ok))
                =? SSL_ERROR_WANT_WRITE); reflexivity.
Qed.

Lemma delivered_whole_slices (env : Env) (k : nat) :
  forall (b : Buffer.Instance) (c : nat),
    (k <= List.length b)%nat ->
    (forall i s, (i < k)%nat -> nth_error b i = Some s ->
                 rc (engine env (c + i)) = len_ s) ->
    delivered env c k = Buffer.length (firstn k b).
Proof.
  induction k as [|k IH]; intros b c Hk Hw; simpl; [reflexivity|].
  destruct b as [|s b]; simpl in Hk; [lia|]. simpl.
  rewrite (IH b (S c)).
  - f_equal. rewrite <- (Nat.add_0_r c). apply Hw; [lia | reflexivity].
  - lia.
  - intros i si Hi Hn. replace (S c + i)%nat with (c + S i)%nat by lia.
    apply Hw; [lia | exact Hn].
Qed.

Lemma forall_firstn_skipn {A : Type} (P : A -> Prop) (k : nat) (l : list A) :
  Forall P l -> Forall P (firstn k l) /\ Forall P (skipn k l).
Proof.
  intros H. rewrite <- (firstn_skipn k l) in H.
  apply Forall_app in H. exact H.
Qed.

Lemma drain_prefix (b : Buffer.Instance) :
  Forall (fun s => 0 < len_ s) b ->
  forall k, Buffer.drain (Buffer.length (firstn k b)) b = skipn k b.
Proof.
  induction 1 as [|s b Hs Hb IH]; intros k.
  - destruct k; reflexivity.
  - destruct k as [|k].
    + simpl firstn. simpl Buffer.length. simpl skipn.
      apply drain_zero. constructor; assumption.
    + simpl.
      pose proof (buffer_length_nonneg (firstn k b)
                    (proj1 (forall_firstn_skipn _ k b Hb))) as Hn.
      destruct (Z.ltb_spec (len_ s + Buffer.length (firstn k b)) (len_ s)); [lia|].
      replace (len_ s + Buffer.length (firstn k b) - len_ s)
        with (Buffer.length (firstn k b)) by lia.
      apply IH.
Qed.

Lemma buffer_length_firstn_le (b : Buffer.Instance) (k : nat) :
  Forall (fun s => 0 < len_ s) b ->
  0 <= Buffer.length (firstn k b) <= Buffer.length b.
Proof.
  intros Hl. rewrite <- (firstn_skipn k b) at 3. rewrite buffer_length_app.
  pose proof (buffer_length_nonneg _ (proj1 (forall_firstn_skipn _ k b Hl))).
  pose proof (buffer_length_nonneg _ (proj2 (forall_firstn_skipn _ k b Hl))). lia.
Qed.

Lemma first_write_call (env : Env) (w : World) (act : PostIoAction) (w' : World)
      (evs : list Event) (s : RawSlice) (rest : list RawSlice) :
  WriteBodySpec env w act w' evs ->
  write_buffer_ w = s :: rest ->
  Buffer.length (s :: rest) <> 0 ->
  exists tl, write_calls evs = (s, rc (engine env (ssl_calls w))) :: tl.
Proof.
  intros S Hb NZ. destruct S. rewrite Hb in *.
  assert (Hne : write_calls evs <> []).
  { destruct wb_pattern0
      as [(Z0 & _) | [(_ & _ & L & _) | (_ & ok & bad & R & _)]].
    - contradiction.
    - intros E. rewrite E in L. discriminate L.
    - rewrite R. intros E. apply app_eq_nil in E. destruct E as [_ E].
      discriminate E. }
  destruct (write_calls evs) as [|[s0 r0] tl]; [contradiction|].
  simpl in wb_regions0, wb_answers0.
  injection wb_regions0 as E1 _. injection wb_answers0 as E2 _.
  exists tl. now rewrite E1, E2.
Qed.

(** ** A peer that never stops sending *)

Lemma read_loop_keeps_reading (env : Env) (fuel : nat) :
  forall act w,
    (forall k, (ssl_calls w <= k)%nat -> 0 < rc (engine env k)) ->
    read_loop env fuel act w = None.
Proof.
  induction fuel as [|fuel IH]; intros act w Hpos; [reflexivity|].
  rewrite read_loop_unfold.
  remember (firstn 2 (reserve_space env (reserve_calls w))) as slices eqn:Hsl.
  clear Hsl.
  match goal with |- context [read_slices env slices ?v0 ?w1] =>
    destruct (read_slices env slices v0 w1) as [[v rest] w2] eqn:Hrs end.
  apply read_slices_spec in Hrs. destruct Hrs as [evs1 S1]. destruct S1.
  simpl in *.
  destruct rs_pattern0 as [(K & A & L & F) | (_ & ok & bad & R & _ & B & _)].
  - rewrite K.
    destruct (after_commit_spec v rest w2 (received evs1))
      as (evc & Hc & _); [assumption | assumption |].
    apply IH. intros k Hk. apply Hpos.
    rewrite Hc, rs_world0 in Hk. simpl in Hk. lia.
  - rewrite R in rs_answers0.
    destruct (split_answers _ _ ok bad rs_answers0) as [_ Hb].
    assert (P : 0 < rc (engine env (ssl_calls w + List.length ok)))
      by (apply Hpos; lia).
    lia.
Qed.

(** X11: the read loop stops only at an engine call that delivers nothing.
    While every call of the engine delivers bytes, [doReadFromSocket] does
    not return, however many rounds it is given: nothing bounds what one
    call reads. *)
Theorem doReadFromSocket_reads_while_data_arrives (env : Env) (w : World) :
  handshake_complete_ w = true ->
  (forall k, (ssl_calls w <= k)%nat -> 0 < rc (engine env k)) ->
  forall fuel, doReadFromSocket env fuel w = None.
Proof.
  intros Hf Hpos fuel.
  rewrite (doReadFromSocket_after_handshake env fuel w Hf).
  apply read_loop_keeps_reading. exact Hpos.
Qed.

(** ** drainErrorQueue on any queue *)

Lemma drain_loop_up_to_zero (a : list Z) :
  Forall (fun e => e <> 0) a ->
  forall b evs,
    (b = [] \/ exists b', b = 0 :: b') ->
    drain_loop (a ++ b) evs = (tl b, evs ++ error_log a).
Proof.
  induction 1 as [|e a He Ha IH]; intros b evs Hb; simpl.
  - rewrite app_nil_r. destruct Hb as [-> | (b' & ->)]; reflexivity.
  - destruct (Z.eqb_spec e 0) as [E|_]; [contradiction|].
    rewrite (IH b _ Hb), <- app_assoc. reflexivity.
Qed.

(** X12: [drainErrorQueue] changes nothing but the error queue and the log.
    It logs at debug level, oldest first, the records in front of the first
    record that is 0, removes them together with that 0 and leaves what
    follows it queued; on a queue without a 0 record it logs everything and
    leaves the queue empty, and draining again then changes nothing. *)
Theorem drainErrorQueue_up_to_zero (w : World) (a b : list Z) :
  err_queue w = a ++ b ->
  Forall (fun e => e <> 0) a ->
  (b = [] \/ exists b', b = 0 :: b') ->
  drainErrorQueue w =
    mkWorld (handshake_complete_ w) (state_ w) (read_buffer_ w)
            (write_buffer_ w) (tl b) (ssl_calls w) (reserve_calls w)
            (events w ++ error_log a) /\
  (b = [] -> drainErrorQueue (drainErrorQueue w) = drainErrorQueue w).
Proof.
  intros Hq Ha Hb.
  assert (E : drainErrorQueue w =
              mkWorld (handshake_complete_ w) (state_ w) (read_buffer_ w)
                      (write_buffer_ w) (tl b) (ssl_calls w) (reserve_calls w)
                      (events w ++ error_log a)).
  { unfold drainErrorQueue. rewrite Hq, (drain_loop_up_to_zero a Ha b _ Hb).
    reflexivity. }
  split; [exact E|].
  intros ->. rewrite E. reflexivity.
Qed.

(** ** The shape of the digest *)

(** X13: whatever the digest function of the engine produces,
    [sha256PeerCertificateDigest] never returns a string of a length other
    than 0 (no peer certificate) or 64 (a certificate): a digest that is
    not 32 bytes long never reaches the caller, the RELEASE_ASSERT stops
    the process instead. *)
Theorem sha256PeerCertificateDigest_shape (env : Env) (w : World) :
  match sha256PeerCertificateDigest env w with
  | Some s =>
      (peer_certificate env (ssl_calls w) = None /\ s = EmptyString) \/
      (exists cert, peer_certificate env (ssl_calls w) = Some cert /\
                    List.length (X509_digest env cert) = SHA256_DIGEST_LENGTH /\
                    String.length s = 64%nat)
  | None =>
      exists cert, peer_certificate env (ssl_calls w) = Some cert /\
                   List.length (X509_digest env cert) <> SHA256_DIGEST_LENGTH
  end.
Proof.
  unfold sha256PeerCertificateDigest.
  destruct (peer_certificate env (ssl_calls w)) as [cert|]; [|left; auto].
  destruct (Nat.eqb_spec (List.length (X509_digest env cert)) SHA256_DIGEST_LENGTH)
    as [E|E].
  - right. exists cert. rewrite hex_encode_length, E. auto.
  - exists cert. auto.
Qed.

(** ** The state machine over the life of a connection *)

Lemma call_state (env : Env) (c : Call) (w w' : World) :
  call env c w = Some w' ->
  state_ w' = state_ w \/ state_ w' = Closed.
Proof.
  assert (Hs : state_ (snd (doHandshake env w)) = state_ w \/
               state_ (snd (doHandshake env w)) = Closed).
  { destruct (doHandshake_summary env w)
      as (_ & _ & _ & _ & _ & _ & _ & _ & S & _).
    rewrite S. destruct (completes env w && vetoed env w); auto. }
  intros H. destruct c as [fuel| |]; simpl in H.
  - destruct (doReadFromSocket env fuel w) as [[a w1]|] eqn:Hr; [|discriminate].
    injection H as <-. destruct (handshake_complete_ w) eqn:Hf.
    + rewrite (doReadFromSocket_after_handshake env fuel w Hf) in Hr.
      apply read_loop_spec in Hr. destruct Hr as [evs S]. destruct S.
      left. rewrite rl_world0. reflexivity.
    + rewrite (doReadFromSocket_before_handshake env fuel w Hf) in Hr.
      destruct (proceeds env w).
      * apply read_loop_spec in Hr. destruct Hr as [evs S]. destruct S.
        rewrite rl_world0. simpl. exact Hs.
      * injection Hr as Hr. rewrite Hr in Hs. exact Hs.
  - injection H as <-. destruct (handshake_complete_ w) eqn:Hf.
    + rewrite (doWriteToSocket_after_handshake env w Hf).
      destruct (write_body env w) as [a w1] eqn:B.
      apply write_body_spec in B. destruct B as [evs S]. destruct S.
      left. simpl. rewrite wb_world0. reflexivity.
    + rewrite (doWriteToSocket_before_handshake env w Hf).
      destruct (proceeds env w); [|exact Hs].
      destruct (write_body env (snd (doHandshake env w))) as [a w1] eqn:B.
      apply write_body_spec in B. destruct B as [evs S]. destruct S.
      simpl. rewrite wb_world0. simpl. exact Hs.
  - injection H as <-. right.
    destruct (closeSocket_frame env w) as (_ & _ & _ & _ & _ & _ & S & _).
    exact S.
Qed.

Lemma call_phase (env : Env) (c : Call) (w w' : World) :
  consistent w ->
  call env c w = Some w' ->
  (phase_rank (phase w) <= phase_rank (phase w'))%nat /\
  (state_ w = Closed -> state_ w' = Closed).
Proof.
  intros C H.
  destruct (call_consistent env c w w' C H) as [_ M].
  destruct (call_state env c w w' H) as [S | S].
  - split; [|congruence]. unfold phase. rewrite S.
    destruct (state_ w); simpl; try lia.
    destruct (handshake_complete_ w); [rewrite (M eq_refl); simpl; lia|].
    destruct (handshake_complete_ w'); simpl; lia.
  - split; [|auto]. unfold phase at 2. rewrite S. simpl.
    destruct (phase w); simpl; lia.
Qed.

(** X14: over any sequence of calls to the entry points of a connection
    the state machine only moves forward: from Handshaking to Established
    to Terminated, never back.  [handshake_complete_] once true stays true,
    a closed connection stays closed, and at every moment the [Connected]
    event has been raised exactly once if the flag is set and not at all
    otherwise. *)
Theorem connection_only_moves_forward (env : Env) (cs : list Call) :
  forall w w',
    consistent w ->
    lifetime env cs w = Some w' ->
    (phase_rank (phase w) <= phase_rank (phase w'))%nat /\
    (handshake_complete_ w = true -> handshake_complete_ w' = true) /\
    (state_ w = Closed -> state_ w' = Closed) /\
    connected (events w') = (if handshake_complete_ w' then [true] else []).
Proof.
  induction cs as [|c cs IH]; intros w w' C H; simpl in H.
  - injection H as <-. repeat split; auto.
  - destruct (call env c w) as [w1|] eqn:Hc; [|discriminate].
    destruct (call_consistent env c w w1 C Hc) as [C1 M1].
    destruct (call_phase env c w w1 C Hc) as [P1 S1].
    destruct (IH w1 w' C1 H) as (P & M & S & K).
    repeat split; auto. lia.
Qed.

(** ** What decides the action once the handshake is complete *)

(** X15: once the handshake is complete, [doReadFromSocket] returns only
    after an engine call that delivered nothing, and that call alone
    decides the action: [KeepOpen] when its error is WANT_READ, [Close] for
    every other error, WANT_WRITE (a renegotiation) included. *)
Theorem doReadFromSocket_action (env : Env) (fuel : nat) (w : World)
        (act : PostIoAction) (w' : World) :
  handshake_complete_ w = true ->
  doReadFromSocket env fuel w = Some (act, w') ->
  (ssl_calls w < ssl_calls w')%nat /\
  rc (engine env (pred (ssl_calls w'))) <= 0 /\
  (act = KeepOpen <->
   ssl_error (engine env (pred (ssl_calls w'))) = SSL_ERROR_WANT_READ).
Proof.
  intros Hf H.
  rewrite (doReadFromSocket_after_handshake env fuel w Hf) in H.
  apply read_loop_spec in H. destruct H as [evs S]. destruct S.
  destruct rl_pattern0 as (ok & bad & R & _ & B & A).
  assert (N : ssl_calls w' = S (ssl_calls w + List.length ok)).
  { rewrite rl_world0. simpl. rewrite R, length_app. simpl. lia. }
  rewrite R in rl_answers0.
  destruct (split_answers _ _ ok bad rl_answers0) as [_ Hb].
  rewrite N. simpl. split; [lia|]. split; [rewrite <- Hb; exact B|].
  rewrite A.
  destruct (Z.eqb_spec (ssl_error (engine env (ssl_calls w + List.length ok)))
                       SSL_ERROR_WANT_READ) as [E|E].
  - tauto.
  - split; [discriminate | contradiction].
Qed.

(** X16: once the handshake is complete, [doWriteToSocket] returns [Close]
    exactly when it called the engine and the last call wrote nothing and
    failed with an error other than WANT_WRITE, WANT_READ (a renegotiation)
    included.  With an empty write buffer, after writing every slice, and
    after a WANT_WRITE it returns [KeepOpen]. *)
Theorem doWriteToSocket_action (env : Env) (w : World)
        (act : PostIoAction) (w' : World) :
  handshake_complete_ w = true ->
  doWriteToSocket env w = (act, w') ->
  (act = Close <->
   (ssl_calls w < ssl_calls w')%nat /\
   rc (engine env (pred (ssl_calls w'))) <= 0 /\
   ssl_error (engine env (pred (ssl_calls w'))) <> SSL_ERROR_WANT_WRITE).
Proof.
  intros Hf H.
  rewrite (doWriteToSocket_after_handshake env w Hf) in H.
  apply write_body_spec in H. destruct H as [evs S]. destruct S.
  assert (N : ssl_calls w' = (ssl_calls w + List.length (write_calls evs))%nat)
    by (rewrite wb_world0; reflexivity).
  destruct wb_pattern0
    as [(_ & A & W & _) | [(_ & A & L & F) | (_ & ok & bad & R & _ & B & A)]].
  - subst w'. rewrite A. split; [discriminate | intros [K _]; lia].
  - rewrite A. split; [discriminate|]. intros (K & P & _). exfalso.
    assert (Hne : write_calls evs <> [])
      by (intros E0; rewrite E0 in N; simpl in N; lia).
    destruct (exists_last Hne) as (cs0 & c0 & Hc).
    rewrite Hc in F, wb_answers0, N.
    apply Forall_app in F. destruct F as [_ F]. inversion F as [|? ? F1 _]; subst.
    destruct (split_answers _ _ cs0 c0 wb_answers0) as [_ Hb].
    rewrite N, length_app in P. simpl in P.
    replace (pred (ssl_calls w + (List.length cs0 + 1)))
      with (ssl_calls w + List.length cs0)%nat in P by lia.
    lia.
  - rewrite R in wb_answers0, N.
    destruct (split_answers _ _ ok bad wb_answers0) as [_ Hb].
    rewrite length_app in N. simpl in N.
    replace (pred (ssl_calls w')) with (ssl_calls w + List.length ok)%nat by lia.
    rewrite A.
    destruct (Z.eqb_spec (ssl_error (engine env (ssl_calls w + List.length ok)))
                         SSL_ERROR_WANT_WRITE) as [E|E].
    + split; [discriminate | intros (_ & _ & K); contradiction].
    + split; [|reflexivity]. intros _. split; [lia|]. split; [lia | exact E].
Qed.

(** ** Error records over the life of a connection *)


(** ** The further properties on concrete connections *)

Lemma doHandshake_completes_iff_witness :
  let env := Scenario.accepting in
  let w := Scenario.fresh in
  handshake_complete_ w = false /\
  handshake_complete_ (snd (doHandshake env w)) = true /\
  connected (events (snd (doHandshake env w))) = [true].
Proof.
  cbv zeta. split; [reflexivity|].
  destruct (doHandshake_completes_iff Scenario.accepting Scenario.fresh eq_refl)
    as (act & w' & evs & D & E & F & _ & K).
  rewrite D. simpl. rewrite F, E, connected_app, K. split; reflexivity.
Defined.

Lemma pump_goes_on_after_handshake_witness :
  let env := Scenario.five_then_blocked Scenario.one_region in
  let w := Scenario.fresh in
  handshake_complete_ w = false /\
  proceeds env w = true /\
  doReadFromSocket env 3 w = doReadFromSocket env 3 (snd (doHandshake env w)) /\
  doWriteToSocket env w = doWriteToSocket env (snd (doHandshake env w)).
Proof.
  cbv zeta. split; [reflexivity|]. split; [reflexivity|].
  destruct (pump_goes_on_after_handshake
              (Scenario.five_then_blocked Scenario.one_region) 3 Scenario.fresh
              eq_refl eq_refl) as (_ & _ & R & W).
  split; assumption.
Defined.

Lemma pump_returns_when_connection_closed_on_connected_witness :
  let env := Scenario.vetoing in
  let w := Scenario.fresh in
  handshake_complete_ w = false /\
  completes env w = true /\
  vetoed env w = true /\
  exists w1,
    doReadFromSocket env 1 w = Some (Close, w1) /\
    doWriteToSocket env w = (Close, w1) /\
    read_calls (events w1) = [] /\ write_calls (events w1) = [] /\
    state_ w1 = Closed.
Proof.
  cbv zeta. split; [reflexivity|]. split; [reflexivity|]. split; [reflexivity|].
  destruct (pump_returns_when_connection_closed_on_connected
              Scenario.vetoing 1 Scenario.fresh eq_refl eq_refl eq_refl)
    as (w1 & evs & R & W & E & Rc & Wc & _ & _ & _ & S & _).
  exists w1. rewrite E, read_calls_app, write_calls_app, Rc, Wc. auto.
Defined.

Lemma no_io_before_handshake_completes_witness :
  let env := Scenario.stalling in
  let cs := [OnRead 1; OnWrite; OnRead 1; OnClose] in
  exists w,
    lifetime env cs (initial [] Scenario.hundred_bytes []) = Some w /\
    handshake_complete_ w = false /\
    ssl_calls w = 3%nat /\
    quiet_so_far [] Scenario.hundred_bytes w.
Proof.
  cbv zeta. eexists. split; [reflexivity|]. split; [reflexivity|].
  split; [reflexivity|].
  apply (no_io_before_handshake_completes Scenario.stalling
           [OnRead 1; OnWrite; OnRead 1; OnClose] [] Scenario.hundred_bytes []);
    reflexivity.
Defined.

Lemma doReadFromSocket_appends_only_witness :
  let env := Scenario.five_then_blocked Scenario.one_region in
  let w := initial [mkSlice 0 7] Scenario.hundred_bytes [] in
  let w' := Scenario.world_of (doReadFromSocket env 3 w) w in
  doReadFromSocket env 3 w = Some (KeepOpen, w') /\
  write_buffer_ w' = Scenario.hundred_bytes /\
  Buffer.length (read_buffer_ w) <= Buffer.length (read_buffer_ w').
Proof.
  cbv zeta.
  assert (H : doReadFromSocket
                (Scenario.five_then_blocked Scenario.one_region) 3
                (initial [mkSlice 0 7] Scenario.hundred_bytes [])
              = Some (KeepOpen,
                      Scenario.world_of
                        (doReadFromSocket
                           (Scenario.five_then_blocked Scenario.one_region) 3
                           (initial [mkSlice 0 7] Scenario.hundred_bytes []))
                        (initial [mkSlice 0 7] Scenario.hundred_bytes [])))
    by (vm_compute; reflexivity).
  split; [exact H|].
  pose proof (doReadFromSocket_appends_only
                (Scenario.five_then_blocked Scenario.one_region) 3
                (initial [mkSlice 0 7] Scenario.hundred_bytes []) KeepOpen
                (Scenario.world_of
                   (doReadFromSocket
                      (Scenario.five_then_blocked Scenario.one_region) 3
                      (initial [mkSlice 0 7] Scenario.hundred_bytes []))
                   (initial [mkSlice 0 7] Scenario.hundred_bytes [])) H) as K.
  split; [exact (proj1 K)|].
  destruct (proj2 K) as (evs & _ & _ & _ & _ & L). exact L.
Defined.

Lemma doWriteToSocket_only_drains_witness :
  let env := Scenario.forty_then_blocked in
  let w := initial [mkSlice 0 7] Scenario.hundred_bytes [] in
  let w' := snd (doWriteToSocket env w) in
  doWriteToSocket env w = (KeepOpen, w') /\
  read_buffer_ w' = [mkSlice 0 7] /\
  reserve_calls w' = reserve_calls w.
Proof.
  cbv zeta.
  assert (H : doWriteToSocket Scenario.forty_then_blocked
                (initial [mkSlice 0 7] Scenario.hundred_bytes [])
              = (KeepOpen,
                 snd (doWriteToSocket Scenario.forty_then_blocked
                        (initial [mkSlice 0 7] Scenario.hundred_bytes []))))
    by (vm_compute; reflexivity).
  split; [exact H|].
  pose proof (doWriteToSocket_only_drains Scenario.forty_then_blocked
                (initial [mkSlice 0 7] Scenario.hundred_bytes []) KeepOpen
                (snd (doWriteToSocket Scenario.forty_then_blocked
                        (initial [mkSlice 0 7] Scenario.hundred_bytes []))) H)
    as K.
  split; [exact (proj1 K) | exact (proj1 (proj2 K))].
Defined.

Lemma doReadFromSocket_reads_while_data_arrives_witness :
  let w := Scenario.established [] [] [] in
  handshake_complete_ w = true /\
  (forall k, (ssl_calls w <= k)%nat -> 0 < rc (engine streaming k)) /\
  doReadFromSocket streaming 1000 w = None.
Proof.
  cbv zeta.
  assert (P : forall k, (ssl_calls (Scenario.established [] [] []) <= k)%nat ->
                        0 < rc (engine streaming k))
    by (intros k _; simpl; lia).
  split; [reflexivity|]. split; [exact P|].
  apply (doReadFromSocket_reads_while_data_arrives streaming
           (Scenario.established [] [] []) eq_refl P).
Defined.

Lemma drainErrorQueue_up_to_zero_witness :
  let w := initial [] [] [336151576; 0; 218529960] in
  err_queue w = [336151576] ++ [0; 218529960] /\
  Forall (fun e => e <> 0) [336151576] /\
  err_queue (drainErrorQueue w) = [218529960] /\
  logged (events (drainErrorQueue w)) = [336151576].
Proof.
  cbv zeta.
  assert (F : Forall (fun e => e <> 0) [336151576])
    by (repeat constructor; discriminate).
  split; [reflexivity|]. split; [exact F|].
  destruct (drainErrorQueue_up_to_zero
              (initial [] [] [336151576; 0; 218529960])
              [336151576] [0; 218529960] eq_refl F
              (or_intror (ex_intro _ [218529960] eq_refl))) as [E _].
  rewrite E. split; reflexivity.
Defined.

Lemma connection_only_moves_forward_witness :
  let env := Scenario.five_then_blocked Scenario.one_region in
  let cs := [OnRead 3; OnWrite; OnClose] in
  let w' := match lifetime env cs Scenario.fresh with
            | Some x => x
            | None => Scenario.fresh
            end in
  consistent Scenario.fresh /\
  lifetime env cs Scenario.fresh = Some w' /\
  phase Scenario.fresh = Handshaking /\
  phase w' = Terminated /\
  handshake_complete_ w' = true /\
  connected (events w') = [true].
Proof.
  cbv zeta.
  assert (H : lifetime (Scenario.five_then_blocked Scenario.one_region)
                [OnRead 3; OnWrite; OnClose] Scenario.fresh
              = Some match lifetime
                             (Scenario.five_then_blocked Scenario.one_region)
                             [OnRead 3; OnWrite; OnClose] Scenario.fresh with
                     | Some x => x
                     | None => Scenario.fresh
                     end)
    by (vm_compute; reflexivity).
  split; [reflexivity|]. split; [exact H|]. split; [reflexivity|].
  split; [vm_compute; reflexivity|].
  split; [vm_compute; reflexivity|].
  etransitivity;
    [exact (proj2 (proj2 (proj2
       (connection_only_moves_forward
          (Scenario.five_then_blocked Scenario.one_region)
          [OnRead 3; OnWrite; OnClose] Scenario.fresh
          (match lifetime (Scenario.five_then_blocked Scenario.one_region)
                          [OnRead 3; OnWrite; OnClose] Scenario.fresh with
           | Some x => x
           | None => Scenario.fresh
           end) eq_refl H))))
    | vm_compute; reflexivity].
Defined.

Lemma doReadFromSocket_action_witness :
  let env := Scenario.five_then_failure Scenario.one_region in
  let w := Scenario.established [] [] [] in
  let w' := Scenario.world_of (doReadFromSocket env 2 w) w in
  handshake_complete_ w = true /\
  doReadFromSocket env 2 w = Some (Close, w') /\
  rc (engine env (pred (ssl_calls w'))) <= 0 /\
  ssl_error (engine env (pred (ssl_calls w'))) <> SSL_ERROR_WANT_READ.
Proof.
  cbv zeta.
  assert (H : doReadFromSocket
                (Scenario.five_then_failure Scenario.one_region) 2
                (Scenario.established [] [] [])
              = Some (Close,
                      Scenario.world_of
                        (doReadFromSocket
                           (Scenario.five_then_failure Scenario.one_region) 2
                           (Scenario.established [] [] []))
                        (Scenario.established [] [] [])))
    by (vm_compute; reflexivity).
  split; [reflexivity|]. split; [exact H|].
  pose proof (doReadFromSocket_action
                (Scenario.five_then_failure Scenario.one_region) 2
                (Scenario.established [] [] []) Close
                (Scenario.world_of
                   (doReadFromSocket
                      (Scenario.five_then_failure Scenario.one_region) 2
                      (Scenario.established [] [] []))
                   (Scenario.established [] [] [])) eq_refl H) as K.
  split; [exact (proj1 (proj2 K))|].
  intros E. apply (proj2 (proj2 K)) in E. discriminate E.
Defined.

Lemma doWriteToSocket_action_witness :
  let env := Scenario.forty_then_failure in
  let w := Scenario.established [] Scenario.hundred_bytes [] in
  handshake_complete_ w = true /\
  exists w',
    doWriteToSocket env w = (Close, w') /\
    (ssl_calls w < ssl_calls w')%nat /\
    ssl_error (engine env (pred (ssl_calls w'))) <> SSL_ERROR_WANT_WRITE.
Proof.
  cbv zeta. split; [reflexivity|]. eexists. split; [reflexivity|].
  destruct (doWriteToSocket_action Scenario.forty_then_failure
              (Scenario.established [] Scenario.hundred_bytes []) Close _
              eq_refl eq_refl) as [K _].
  destruct (K eq_refl) as (L & _ & E). split; [exact L | exact E].
Defined.


(** ** What the engine receives as the length of a slice *)

Lemma to_int_small (n : Z) : 0 <= n < 2 ^ 31 -> to_int n = n.
Proof.
  intros H. unfold to_int.
  change (2 ^ 31) with 2147483648 in *. change (2 ^ 32) with 4294967296.
  rewrite Z.mod_small; lia.
Qed.

Lemma as_passed_fits (b : list RawSlice) :
  Forall fits_int b -> map as_passed b = map (fun s => (mem_ s, len_ s)) b.
Proof.
  induction 1 as [|s b Hs _ IH]; simpl; [reflexivity|].
  unfold as_passed at 1. rewrite (to_int_small _ Hs), IH. reflexivity.
Qed.

Lemma converted_error_log (codes : list Z) : Forall converted (error_log codes).
Proof. induction codes; simpl; constructor; simpl; auto. Qed.

Lemma args_of_calls (evs : list Event) :
  Forall converted evs ->
  read_args evs = map (fun c => as_passed (fst c)) (read_calls evs) /\
  write_args evs = map (fun c => as_passed (fst c)) (write_calls evs).
Proof.
  unfold read_args, write_args, read_calls, write_calls, as_passed.
  induction 1 as [|e evs He _ [IR IW]]; simpl; [auto|].
  rewrite IR, IW.
  destruct e; simpl in *; subst; auto.
Qed.

Lemma grows_refl (w : World) : grows w w.
Proof. exists []. rewrite app_nil_r. split; [reflexivity | constructor]. Qed.

Lemma grows_trans (w1 w2 w3 : World) : grows w1 w2 -> grows w2 w3 -> grows w1 w3.
Proof.
  intros (e1 & E1 & C1) (e2 & E2 & C2). exists (e1 ++ e2).
  split; [rewrite E2, E1, app_assoc; reflexivity | apply Forall_app; auto].
Qed.

Lemma grows_unique (w w' : World) (evs : list Event) :
  grows w w' -> events w' = events w ++ evs -> Forall converted evs.
Proof.
  intros (e & E & C) H. rewrite E in H. apply app_inv_head in H. now subst.
Qed.

Lemma read_slices_grows (env : Env) (todo : list RawSlice) :
  forall v w v' rest w',
    read_slices env todo v w = (v', rest, w') -> grows w w'.
Proof.
  induction todo as [|s todo IH]; intros v w v' rest w' H.
  - simpl in H. injection H as <- <- <-. apply grows_refl.
  - simpl in H.
    set (r := engine env (ssl_calls w)) in *.
    assert (C : Forall converted
                  [EvRead (mem_ s) (len_ s) (to_int (len_ s)) (rc r);
                   EvLog LvTrace (MsgSslReadReturns (rc r))])
      by (repeat constructor).
    destruct (0 <? rc r).
    + apply IH in H. eapply grows_trans; [|exact H].
      eexists. split; [|exact C]. simpl. rewrite <- app_assoc. reflexivity.
    + unfold SSL_get_error in H.
      destruct (ssl_error r =? SSL_ERROR_WANT_READ).
      * injection H as <- <- <-.
        eexists. split; [|exact C]. simpl. rewrite <- app_assoc. reflexivity.
      * match type of H with context [drainErrorQueue ?x] =>
          destruct (drainErrorQueue_frame x) as (q & codes & Hd) end.
        rewrite Hd in H. simpl in H. injection H as <- <- <-.
        exists ([EvRead (mem_ s) (len_ s) (to_int (len_ s)) (rc r);
                 EvLog LvTrace (MsgSslReadReturns (rc r))] ++ error_log codes).
        split; [simpl; rewrite <- !app_assoc; reflexivity|].
        apply Forall_app. split; [exact C | apply converted_error_log].
Qed.

Lemma after_commit_grows (v : ReadVars) (rest : list RawSlice) (w : World) :
  grows w (after_commit v rest w).
Proof.
  unfold after_commit. destruct (0 <? slices_to_commit v)%nat.
  - eexists. split; [reflexivity|]. repeat constructor.
  - apply grows_refl.
Qed.

Lemma read_loop_grows (env : Env) (fuel : nat) :
  forall act0 w act w',
    read_loop env fuel act0 w = Some (act, w') -> grows w w'.
Proof.
  induction fuel as [|fuel IH]; intros act0 w act w' H; [discriminate|].
  rewrite read_loop_unfold in H.
  match type of H with context [read_slices env ?sl ?v0 ?w1] =>
    destruct (read_slices env sl v0 w1) as [[v rest] w2] eqn:Hrs end.
  apply read_slices_grows in Hrs.
  assert (G : grows w (after_commit v rest w2)).
  { eapply grows_trans; [|apply after_commit_grows].
    destruct Hrs as (e & E & C). exists e. split; [exact E | exact C]. }
  destruct (keep_reading v).
  - apply IH in H. eapply grows_trans; eassumption.
  - injection H as <- <-. exact G.
Qed.

Lemma write_slices_grows (env : Env) (todo : list RawSlice) :
  forall bw w ret bw' w',
    write_slices env todo bw w = (ret, bw', w') -> grows w w'.
Proof.
  induction todo as [|s todo IH]; intros bw w ret bw' w' H.
  - simpl in H. injection H as <- <- <-. apply grows_refl.
  - simpl in H.
    set (r := engine env (ssl_calls w)) in *.
    assert (C : Forall converted
                  [EvWrite (mem_ s) (len_ s) (to_int (len_ s)) (rc r);
                   EvLog LvTrace (MsgSslWriteReturns (rc r))])
      by (repeat constructor).
    destruct (0 <? rc r).
    + apply IH in H. eapply grows_trans; [|exact H].
      eexists. split; [|exact C]. simpl. rewrite <- app_assoc. reflexivity.
    + unfold SSL_get_error in H.
      destruct (ssl_error r =? SSL_ERROR_WANT_WRITE).
      * injection H as <- <- <-.
        eexists. split; [|exact C]. simpl. rewrite <- app_assoc. reflexivity.
      * match type of H with context [drainErrorQueue ?x] =>
          destruct (drainErrorQueue_frame x) as (q & codes & Hd) end.
        rewrite Hd in H. simpl in H. injection H as <- <- <-.
        exists ([EvWrite (mem_ s) (len_ s) (to_int (len_ s)) (rc r);
                 EvLog LvTrace (MsgSslWriteReturns (rc r))] ++ error_log codes).
        split; [simpl; rewrite <- !app_assoc; reflexivity|].
        apply Forall_app. split; [exact C | apply converted_error_log].
Qed.

Lemma write_body_grows (env : Env) (w : World) (act : PostIoAction) (w' : World) :
  write_body env w = (act, w') -> grows w w'.
Proof.
  unfold write_body, Buffer.getRawSlices.
  destruct (Buffer.length (write_buffer_ w) =? 0); intros H.
  - injection H as <- <-. apply grows_refl.
  - destruct (write_slices env (write_buffer_ w) 0 w) as [[ret bw] w1] eqn:Hws.
    apply write_slices_grows in Hws.
    destruct ret as [a|].
    + injection H as <- <-. exact Hws.
    + injection H as <- <-. eapply grows_trans; [exact Hws|].
      destruct (0 <? bw); [|apply grows_refl].
      eexists. split; [reflexivity|]. repeat constructor.
Qed.

(** ** The read loop, entered directly or through the handshake *)

Lemma loop_entry_spec (env : Env) (fuel : nat) (w : World) :
  reaches_loop env w = true ->
  doReadFromSocket env fuel w = read_loop env fuel KeepOpen (loop_entry env w) /\
  doWriteToSocket env w = write_body env (loop_entry env w) /\
  handshake_complete_ (loop_entry env w) = true /\
  reserve_calls (loop_entry env w) = reserve_calls w /\
  write_buffer_ (loop_entry env w) = write_buffer_ w /\
  read_calls (events (loop_entry env w)) = read_calls (events w) /\
  write_calls (events (loop_entry env w)) = write_calls (events w).
Proof.
  unfold reaches_loop, loop_entry. intros Hr.
  destruct (handshake_complete_ w) eqn:Hf.
  - rewrite (doReadFromSocket_after_handshake env fuel w Hf),
      (doWriteToSocket_after_handshake env w Hf). auto 10.
  - simpl in Hr.
    rewrite (doReadFromSocket_before_handshake env fuel w Hf),
      (doWriteToSocket_before_handshake env w Hf), Hr.
    destruct (proceeds_completes env w Hr) as (Hc & _).
    destruct (doHandshake_summary env w)
      as (evs & E & R & W & _ & _ & _ & F & _ & _ & Wb & Rc).
    rewrite E, read_calls_app, write_calls_app, R, W, !app_nil_r, F, Hc.
    auto 10.
Qed.

(** C5 (amended): let a call of [doReadFromSocket] reach its read loop,
    with the handshake complete at entry or completed by the call itself,
    and let the engine deliver bytes in its next [n] calls and nothing in the
    one after.  Then the call returns (any fuel above [n] is enough) after
    exactly [n + 1] engine reads: they are made for the reserved regions in
    order, one call per region, each passing the region's address and its
    length as an [int]; a call is followed by the call for the next region
    only if it delivered bytes (n > 0, which need not fill the region), and
    the first call that delivers nothing is the last one. *)
Theorem read_continues_while_bytes_arrive (env : Env) (w : World)
        (n fuel : nat) :
  reaches_loop env w = true ->
  (forall k, reserve_space env k <> []) ->
  (forall i, (i < n)%nat ->
             0 < rc (engine env (ssl_calls (loop_entry env w) + i))) ->
  rc (engine env (ssl_calls (loop_entry env w) + n)) <= 0 ->
  (n < fuel)%nat ->
  exists act w' evs m,
    doReadFromSocket env fuel w = Some (act, w') /\
    events w' = events (loop_entry env w) ++ evs /\
    read_calls (events (loop_entry env w)) = read_calls (events w) /\
    List.length (read_calls evs) = S n /\
    map fst (read_calls evs) =
      firstn (S n) (reserved env (reserve_calls w) m) /\
    read_args evs =
      map as_passed (firstn (S n) (reserved env (reserve_calls w) m)) /\
    map snd (read_calls evs) =
      map (fun k => rc (engine env k))
          (seq (ssl_calls (loop_entry env w)) (S n)) /\
    continues_only_after got_bytes (read_calls evs) /\
    stops_at_failure (read_calls evs) /\
    exists last, nth_error (read_calls evs) n = Some last /\ snd last <= 0.
Proof.
  intros Hr Hres Hpos Hneg Hfuel.
  destruct (loop_entry_spec env fuel w Hr) as (He & _ & _ & Hrc & _ & Hrd & _).
  rewrite He.
  destruct (read_loop_terminates env Hres fuel n KeepOpen (loop_entry env w)
              Hpos Hneg Hfuel) as (act & w' & H).
  pose proof (read_loop_grows env fuel KeepOpen _ act w' H) as G.
  destruct (read_loop_spec env fuel KeepOpen _ act w' H) as [evs S].
  destruct S. destruct rl_regions0 as (m & _ & Hreg).
  destruct rl_pattern0 as (ok & bad & R & Fok & B & _).
  assert (Ee : events w' = events (loop_entry env w) ++ evs)
    by (rewrite rl_world0; reflexivity).
  pose proof (grows_unique _ _ _ G Ee) as Cv.
  destruct (args_of_calls evs Cv) as [Ha _].
  rewrite R in rl_answers0.
  pose proof (first_failure (fun k => rc (engine env k)) _ n ok bad
                Hpos Hneg rl_answers0 Fok B) as Hn.
  assert (Hlen : List.length (read_calls evs) = S n).
  { rewrite R, length_app. simpl. lia. }
  rewrite <- R, Hlen in rl_answers0. rewrite Hlen, Hrc in Hreg.
  destruct (continues_while_bytes ok bad Fok B) as [C T].
  exists act, w', evs, m.
  split; [exact H|]. split; [exact Ee|]. split; [exact Hrd|].
  split; [exact Hlen|]. split; [exact Hreg|].
  split; [rewrite Ha, <- Hreg, map_map; reflexivity|].
  split; [exact rl_answers0|].
  rewrite R. split; [exact C|]. split; [exact T|].
  exists bad. split; [|exact B].
  rewrite nth_error_app2 by lia. rewrite Hn, Nat.sub_diag. reflexivity.
Qed.

Lemma read_continues_while_bytes_arrive_witness :
  let env := Scenario.five_then_blocked Scenario.two_regions in
  let w := Scenario.fresh in
  reaches_loop env w = true /\
  (forall k, reserve_space env k <> []) /\
  rc (engine env (ssl_calls (loop_entry env w) + 1)) <= 0 /\
  exists w' evs,
    doReadFromSocket env 2 w = Some (KeepOpen, w') /\
    events w' = events (loop_entry env w) ++ evs /\
    read_args evs = [(4096, 4000); (65536, 12384)] /\
    map snd (read_calls evs) = [5; -1] /\
    continues_only_after got_bytes (read_calls evs).
Proof.
  cbv zeta.
  assert (R : forall k, reserve_space
                          (Scenario.five_then_blocked Scenario.two_regions) k
                        <> []) by (intros k; discriminate).
  assert (P : forall i, (i < 1)%nat ->
                0 < rc (engine (Scenario.five_then_blocked Scenario.two_regions)
                          (ssl_calls
                             (loop_entry
                                (Scenario.five_then_blocked Scenario.two_regions)
                                Scenario.fresh) + i))).
  { intros i Hi. destruct i as [|i]; [reflexivity | lia]. }
  assert (N : rc (engine (Scenario.five_then_blocked Scenario.two_regions)
                    (ssl_calls
                       (loop_entry
                          (Scenario.five_then_blocked Scenario.two_regions)
                          Scenario.fresh) + 1)) <= 0)
    by (vm_compute; discriminate).
  split; [reflexivity|]. split; [exact R|]. split; [exact N|].
  destruct (read_continues_while_bytes_arrive
              (Scenario.five_then_blocked Scenario.two_regions) Scenario.fresh
              1 2 eq_refl R P N (le_n 2))
    as (act & w' & evs & m & H & E & _ & L & G & A & S & C & _).
  assert (Hm : firstn 2 (reserved
                           (Scenario.five_then_blocked Scenario.two_regions)
                           (reserve_calls Scenario.fresh) m)
               = Scenario.two_regions).
  { destruct m as [|m]; [|reflexivity].
    apply (f_equal (@List.length _)) in G.
    rewrite length_map, L in G. discriminate G. }
  assert (Hact : act = KeepOpen).
  { assert (K : option_map fst
                  (doReadFromSocket
                     (Scenario.five_then_blocked Scenario.two_regions) 2
                     Scenario.fresh) = Some KeepOpen) by (vm_compute; reflexivity).
    rewrite H in K. simpl in K. now injection K. }
  subst act. exists w', evs. rewrite A, Hm, S. auto.
Defined.

(** ** The order and the parameters of the engine writes *)

(** X9: after the handshake, [doWriteToSocket] makes its engine writes for
    the slices of the write buffer in buffer order, each at most once,
    starting with the first.  Each call passes the address of its slice and
    the slice's [uint64_t] length converted to [int], which is the length
    itself for slices below 2^31 bytes.  It goes on to the next slice only
    after the engine accepted bytes of the one before and makes no call
    after one that accepted nothing. *)
Theorem doWriteToSocket_writes_in_order (env : Env) (w : World)
        (act : PostIoAction) (w' : World) :
  handshake_complete_ w = true ->
  doWriteToSocket env w = (act, w') ->
  exists evs,
    events w' = events w ++ evs /\
    (List.length (write_calls evs) <= List.length (write_buffer_ w))%nat /\
    map fst (write_calls evs) =
      firstn (List.length (write_calls evs)) (write_buffer_ w) /\
    write_args evs =
      map as_passed (firstn (List.length (write_calls evs)) (write_buffer_ w)) /\
    (Forall fits_int (write_buffer_ w) ->
     write_args evs =
       map (fun s => (mem_ s, len_ s))
           (firstn (List.length (write_calls evs)) (write_buffer_ w))) /\
    map snd (write_calls evs) =
      map (fun k => rc (engine env k))
          (seq (ssl_calls w) (List.length (write_calls evs))) /\
    continues_only_after got_bytes (write_calls evs) /\
    stops_at_failure (write_calls evs).
Proof.
  intros Hf H. rewrite (doWriteToSocket_after_handshake env w Hf) in H.
  pose proof (write_body_grows env w act w' H) as G.
  apply write_body_spec in H. destruct H as [evs S]. destruct S.
  assert (Ee : events w' = events w ++ evs) by (rewrite wb_world0; reflexivity).
  destruct (args_of_calls evs (grows_unique _ _ _ G Ee)) as [_ Ha].
  assert (Hargs : write_args evs =
                  map as_passed
                      (firstn (List.length (write_calls evs)) (write_buffer_ w))).
  { rewrite Ha, <- wb_regions0, map_map. reflexivity. }
  exists evs. split; [exact Ee|].
  split.
  { pose proof (f_equal (@List.length _) wb_regions0) as Hl.
    rewrite length_map, length_firstn in Hl. lia. }
  split; [exact wb_regions0|]. split; [exact Hargs|].
  split.
  { intros Hfit. rewrite Hargs. apply as_passed_fits.
    apply (forall_firstn_skipn _ _ _ Hfit). }
  split; [exact wb_answers0|].
  destruct wb_pattern0
    as [(_ & _ & _ & ->) | [(_ & _ & _ & F) | (_ & ok & bad & R & F & B & _)]].
  - apply continues_all_succeeded. constructor.
  - apply continues_all_succeeded. exact F.
  - rewrite R. apply continues_while_bytes; assumption.
Qed.

(** X10: the guarantee the comment in [doWriteToSocket] relies on.  When
    the engine takes whole slices ([SSL_write] returns the length of the
    slice) and then answers WantWrite on slice [k], the call returns
    [KeepOpen] with the write buffer holding exactly the slices from [k]
    on.  Whatever happens to the connection before the next write, as long
    as the write buffer was only appended to, the first [SSL_write] of the
    next [doWriteToSocket] is made for that same slice and passes the same
    address and the same [int] length as the call that was blocked. *)
Theorem write_retry_repeats_blocked_slice (env : Env) (w : World) (k : nat)
        (s : RawSlice) :
  handshake_complete_ w = true ->
  buffer_ok (write_buffer_ w) ->
  nth_error (write_buffer_ w) k = Some s ->
  (forall i si, (i < k)%nat -> nth_error (write_buffer_ w) i = Some si ->
                rc (engine env (ssl_calls w + i)) = len_ si) ->
  rc (engine env (ssl_calls w + k)) <= 0 ->
  ssl_error (engine env (ssl_calls w + k)) = SSL_ERROR_WANT_WRITE ->
  exists w' evs,
    doWriteToSocket env w = (KeepOpen, w') /\
    events w' = events w ++ evs /\
    write_buffer_ w' = skipn k (write_buffer_ w) /\
    ssl_calls w' = (ssl_calls w + S k)%nat /\
    List.length (write_args evs) = S k /\
    nth_error (write_args evs) k = Some (as_passed s) /\
    forall w2 more,
      handshake_complete_ w2 = true ->
      write_buffer_ w2 = write_buffer_ w' ++ more ->
      buffer_ok (write_buffer_ w2) ->
      exists evs2 calls args,
        events (snd (doWriteToSocket env w2)) = events w2 ++ evs2 /\
        write_calls evs2 = (s, rc (engine env (ssl_calls w2))) :: calls /\
        write_args evs2 = as_passed s :: args.
Proof.
  intros Hf [Hl Hlt] Hs Hwhole Hneg Hww.
  assert (Hk : (k < List.length (write_buffer_ w))%nat).
  { apply nth_error_Some. rewrite Hs. discriminate. }
  rewrite (doWriteToSocket_after_handshake env w Hf).
  destruct (write_body env w) as [act w'] eqn:H.
  pose proof (write_body_grows env w act w' H) as G.
  apply write_body_spec in H. destruct H as [evs Sp].
  assert (Hpos : forall i, (i < k)%nat -> 0 < rc (engine env (ssl_calls w + i))).
  { intros i Hi.
    destruct (nth_error (write_buffer_ w) i) as [si|] eqn:Hi'.
    - rewrite (Hwhole i si Hi Hi'). rewrite Forall_forall in Hl.
      apply Hl. eapply nth_error_In. exact Hi'.
    - apply nth_error_None in Hi'. lia. }
  destruct (write_body_outcome env w k act w' evs Sp Hl (Nat.lt_le_incl _ _ Hk)
              Hpos (fun _ => Hneg)) as (Wr & Len & A).
  unfold write_fatal in A. rewrite Hww, Z.eqb_refl, andb_false_r in A.
  apply Nat.ltb_lt in Hk. rewrite Hk in Len. apply Nat.ltb_lt in Hk.
  rewrite (delivered_whole_slices env k (write_buffer_ w) (ssl_calls w)
             (Nat.lt_le_incl _ _ Hk) Hwhole) in Wr.
  pose proof (buffer_length_firstn_le (write_buffer_ w) k Hl) as Hb.
  assert (Hskip : write_buffer_ w' = skipn k (write_buffer_ w)).
  { destruct Sp. rewrite wb_buffer0. subst act. rewrite Wr.
    rewrite Z.mod_small by lia.
    destruct (Z.ltb_spec 0 (Buffer.length (firstn k (write_buffer_ w)))) as [P|P].
    - apply drain_prefix. exact Hl.
    - assert (E0 : Buffer.length (firstn k (write_buffer_ w)) = 0) by lia.
      rewrite <- (drain_prefix _ Hl k), E0. symmetry. apply drain_zero, Hl. }
  assert (Hc : ssl_calls w' = (ssl_calls w + S k)%nat).
  { destruct Sp. rewrite wb_world0. simpl. now rewrite Len. }
  assert (Ee : events w' = events w ++ evs).
  { destruct Sp. rewrite wb_world0. reflexivity. }
  destruct (args_of_calls evs (grows_unique _ _ _ G Ee)) as [_ Ha].
  assert (Hargs : write_args evs = map as_passed (firstn (S k) (write_buffer_ w))).
  { destruct Sp. rewrite Ha, <- Len, <- wb_regions0, map_map. reflexivity. }
  subst act. exists w', evs. split; [reflexivity|]. split; [exact Ee|].
  split; [exact Hskip|]. split; [exact Hc|].
  split; [rewrite Hargs, length_map, length_firstn; lia|].
  split.
  { rewrite Hargs, nth_error_map, nth_error_firstn.
    destruct (Nat.ltb_spec k (S k)) as [_|Hx]; [|lia].
    rewrite Hs. reflexivity. }
  intros w2 more Hf2 Hb2 [Hl2 _].
  rewrite (doWriteToSocket_after_handshake env w2 Hf2).
  destruct (write_body env w2) as [act2 w3] eqn:H2.
  pose proof (write_body_grows env w2 act2 w3 H2) as G2.
  apply write_body_spec in H2. destruct H2 as [evs2 S2].
  destruct (skipn k (write_buffer_ w)) as [|s0 rest] eqn:Hsk.
  { pose proof (f_equal (@List.length _) Hsk) as E.
    rewrite length_skipn in E. simpl in E. lia. }
  assert (Hs0 : s0 = s).
  { pose proof (nth_error_skipn k (write_buffer_ w) 0%nat) as E.
    rewrite Hsk, Nat.add_0_r, Hs in E. simpl in E. congruence. }
  subst s0. rewrite Hskip in Hb2. simpl in Hb2.
  assert (E2 : events w3 = events w2 ++ evs2).
  { destruct S2. rewrite wb_world0. reflexivity. }
  destruct (first_write_call env w2 act2 w3 evs2 s (rest ++ more) S2 Hb2)
    as [calls Hcalls].
  - rewrite <- Hb2. rewrite Hb2 in Hl2.
    pose proof (Forall_inv Hl2) as P. simpl in P.
    pose proof (buffer_length_nonneg _ (Forall_inv_tail Hl2)).
    rewrite Hb2. simpl. lia.
  - destruct (args_of_calls evs2 (grows_unique _ _ _ G2 E2)) as [_ Ha2].
    exists evs2, calls, (map (fun c => as_passed (fst c)) calls).
    split; [exact E2|]. split; [exact Hcalls|].
    rewrite Ha2, Hcalls. reflexivity.
Qed.

(** ** Error records and the capacity of the error queue *)




Lemma doWriteToSocket_writes_in_order_witness :
  let env := Scenario.forty_then_blocked in
  let w := Scenario.established [] Scenario.hundred_bytes [] in
  handshake_complete_ w = true /\
  Forall fits_int (write_buffer_ w) /\
  exists w' evs,
    doWriteToSocket env w = (KeepOpen, w') /\
    events w' = events w ++ evs /\
    write_args evs = [(8192, 40); (12288, 60)] /\
    continues_only_after got_bytes (write_calls evs) /\
    stops_at_failure (write_calls evs).
Proof.
  cbv zeta.
  assert (F : Forall fits_int
                (write_buffer_
                   (Scenario.established [] Scenario.hundred_bytes [])))
    by (repeat constructor; discriminate).
  assert (H : doWriteToSocket Scenario.forty_then_blocked
                (Scenario.established [] Scenario.hundred_bytes [])
              = (KeepOpen,
                 snd (doWriteToSocket Scenario.forty_then_blocked
                        (Scenario.established [] Scenario.hundred_bytes []))))
    by (vm_compute; reflexivity).
  split; [reflexivity|]. split; [exact F|].
  destruct (doWriteToSocket_writes_in_order Scenario.forty_then_blocked
              (Scenario.established [] Scenario.hundred_bytes []) KeepOpen
              (snd (doWriteToSocket Scenario.forty_then_blocked
                      (Scenario.established [] Scenario.hundred_bytes [])))
              eq_refl H)
    as (evs & E & _ & R & _ & A & _ & C & S).
  eexists. exists evs. split; [exact H|]. split; [exact E|].
  split; [|split; [exact C | exact S]].
  rewrite (A F).
  assert (L : List.length (write_calls evs) = 2%nat).
  { assert (K : write_calls
                  (events (snd (doWriteToSocket Scenario.forty_then_blocked
                                  (Scenario.established []
                                     Scenario.hundred_bytes []))))
                = [(mkSlice 8192 40, 40); (mkSlice 12288 60, -1)])
      by (vm_compute; reflexivity).
    rewrite E, write_calls_app in K. simpl in K. rewrite K. reflexivity. }
  rewrite L. reflexivity.
Defined.

Lemma write_retry_repeats_blocked_slice_witness :
  let env := Scenario.forty_then_blocked in
  let w := Scenario.established [] Scenario.hundred_bytes [] in
  let s := mkSlice 12288 60 in
  handshake_complete_ w = true /\
  buffer_ok (write_buffer_ w) /\
  nth_error (write_buffer_ w) 1 = Some s /\
  rc (engine env (ssl_calls w + 1)) <= 0 /\
  ssl_error (engine env (ssl_calls w + 1)) = SSL_ERROR_WANT_WRITE /\
  exists w' evs,
    doWriteToSocket env w = (KeepOpen, w') /\
    write_buffer_ w' = [s] /\
    nth_error (write_args evs) 1 = Some (12288, 60) /\
    exists evs2 calls args,
      events (snd (doWriteToSocket env
                     (set_write_buffer (write_buffer_ w' ++ [mkSlice 16384 25])
                                       w')))
      = events w' ++ evs2 /\
      write_calls evs2 = (s, 60) :: calls /\
      write_args evs2 = (12288, 60) :: args.
Proof.
  cbv zeta.
  assert (B : buffer_ok (write_buffer_
                           (Scenario.established [] Scenario.hundred_bytes []))).
  { split; [repeat constructor | reflexivity]. }
  assert (N : rc (engine Scenario.forty_then_blocked
                    (ssl_calls (Scenario.established []
                                  Scenario.hundred_bytes []) + 1)) <= 0)
    by (simpl; lia).
  assert (P : forall i si, (i < 1)%nat ->
                nth_error (write_buffer_
                             (Scenario.established [] Scenario.hundred_bytes []))
                          i = Some si ->
                rc (engine Scenario.forty_then_blocked
                      (ssl_calls (Scenario.established []
                                    Scenario.hundred_bytes []) + i)) = len_ si).
  { intros i si Hi H. assert (i = 0)%nat by lia. subst i.
    simpl in H. injection H as <-. reflexivity. }
  split; [reflexivity|]. split; [exact B|]. split; [reflexivity|].
  split; [exact N|]. split; [reflexivity|].
  destruct (write_retry_repeats_blocked_slice Scenario.forty_then_blocked
              (Scenario.established [] Scenario.hundred_bytes []) 1
              (mkSlice 12288 60) eq_refl B eq_refl P N eq_refl)
    as (w' & evs & D & E & Wb & C & _ & A & Retry).
  exists w', evs. split; [exact D|]. split; [exact Wb|]. split; [exact A|].
  assert (F : handshake_complete_ w' = true).
  { assert (K : handshake_complete_
                  (snd (doWriteToSocket Scenario.forty_then_blocked
                          (Scenario.established [] Scenario.hundred_bytes [])))
                = true) by (vm_compute; reflexivity).
    rewrite D in K. exact K. }
  assert (B2 : buffer_ok (write_buffer_ w' ++ [mkSlice 16384 25])).
  { rewrite Wb. split; [repeat constructor | reflexivity]. }
  destruct (Retry (set_write_buffer (write_buffer_ w' ++ [mkSlice 16384 25]) w')
                  [mkSlice 16384 25] F eq_refl B2)
    as (evs2 & calls & args & E2 & C2 & A2).
  exists evs2, calls, args. split; [exact E2|].
  split; [rewrite C2; simpl; rewrite C; reflexivity | exact A2].
Defined.

